(** * Memory Crystal: a shallow embedding of the core and its relay

    The development follows the TypeScript sources of the repository:
    - [core.ts]        chunker, ingest, hybrid search, RRF fusion, forget;
    - [crypto.ts]      the sealed envelope (AES-256-GCM + HMAC framing);
    - [mirror-sync.ts] the device-side mirror pull;
    - [worker.ts]      the dead-drop relay.

    Numbers that the code keeps in JavaScript doubles (scores, ages) are
    modelled as exact rationals [Q]; indices and lengths are integers [Z];
    a JavaScript string is a [string] (a sequence of code units, here the
    8-bit ones); a Node [Buffer] is a list of [byte]s.
    Everything that lives outside the repository (the embedding provider,
    SHA-256, AES-GCM, HMAC, HKDF, the vector and full-text indexes, LanceDB)
    is a [Variable] of the section that uses it. *)

From Stdlib Require Import ZArith QArith Qabs Lqa Lia List Ascii String Bool.
From stdpp Require Import base decidable option list gmap strings fin_maps.

Import ListNotations.
Local Open Scope string_scope.
Local Open Scope list_scope.
Local Open Scope Z_scope.

(* ===================================================================== *)
(** ** Recency helpers ([core.ts], Crystal.recencyWeight / freshnessLabel) *)
(* ===================================================================== *)

Module Recency.

Inductive freshness := fresh | recent | aging | stale.

#[global] Instance freshness_eq_dec : EqDecision freshness.
Proof. solve_decision. Defined.

(** [a <? b] on rationals, as the JavaScript comparison [a < b]. *)
Definition Qltb (a b : Q) : bool :=
  match Qlt_le_dec a b with left _ => true | right _ => false end.

Definition Qmax (a b : Q) : Q := if Qltb a b then b else a.
Definition Qmin (a b : Q) : Q := if Qltb b a then b else a.

(** [Math.max(0.5, 1.0 - ageDays * 0.01)], for an age that is a number
    and in exact arithmetic: the rounding of the doubles is not modelled,
    and only what survives it is stated of the weight. *)
Definition recencyWeight (ageDays : Q) : Q :=
  Qmax (1 # 2) (1 - ageDays * (1 # 100)).

(** The four [if] lines of [freshnessLabel], in order. *)
Definition freshnessLabel (ageDays : Q) : freshness :=
  if Qltb ageDays 3 then fresh
  else if Qltb ageDays 7 then recent
  else if Qltb ageDays 14 then aging
  else stale.

Lemma Qltb_lt a b : Qltb a b = true <-> (a < b)%Q.
Proof.
  unfold Qltb. destruct (Qlt_le_dec a b) as [H|H]; split; intros; try easy.
  exfalso. apply (Qlt_irrefl a). eapply Qlt_le_trans; eauto.
Qed.

Lemma Qltb_ge a b : Qltb a b = false <-> (b <= a)%Q.
Proof.
  unfold Qltb. destruct (Qlt_le_dec a b) as [H|H]; split; intros; try easy.
  exfalso. apply (Qlt_irrefl a). eapply Qlt_le_trans; eauto.
Qed.

End Recency.

(** C8. The freshness label is a function of the age in days with the
    thresholds 3, 7 and 14: [fresh] exactly when age < 3, [recent] exactly
    when 3 <= age < 7, [aging] exactly when 7 <= age < 14, and [stale]
    exactly when age >= 14. *)
Theorem freshnessLabel_thresholds (age : Q) :
  (Recency.freshnessLabel age = Recency.fresh <-> (age < 3)%Q) /\
  (Recency.freshnessLabel age = Recency.recent <-> (3 <= age)%Q /\ (age < 7)%Q) /\
  (Recency.freshnessLabel age = Recency.aging <-> (7 <= age)%Q /\ (age < 14)%Q) /\
  (Recency.freshnessLabel age = Recency.stale <-> (14 <= age)%Q).
Proof.
  unfold Recency.freshnessLabel.
  destruct (Recency.Qltb age 3) eqn:H3;
    [apply Recency.Qltb_lt in H3 | apply Recency.Qltb_ge in H3];
  (destruct (Recency.Qltb age 7) eqn:H7;
    [apply Recency.Qltb_lt in H7 | apply Recency.Qltb_ge in H7]);
  (destruct (Recency.Qltb age 14) eqn:H14;
    [apply Recency.Qltb_lt in H14 | apply Recency.Qltb_ge in H14]);
  repeat split; intros; try discriminate; try lra;
    try (destruct_and?; exfalso; lra).
Qed.

(* ===================================================================== *)
(** ** JavaScript string primitives used by the core                      *)
(* ===================================================================== *)

Module JS.

(** [s.length] *)
Definition len (s : string) : Z := Z.of_nat (String.length s).

(** An index argument of [slice]: negative values count from the end. *)
Definition relIndex (n : Z) (i : Z) : Z :=
  if i <? 0 then Z.max (n + i) 0 else Z.min i n.

(** [s.slice(a, b)] *)
Definition slice (s : string) (a b : Z) : string :=
  let from := relIndex (len s) a in
  let to := relIndex (len s) b in
  substring (Z.to_nat from) (Z.to_nat (Z.max (to - from) 0)) s.

(** Does [pat] occur in [s] at index [i]? *)
Definition occursAt (s pat : string) (i : nat) : bool :=
  String.eqb (substring i (String.length pat) s) pat.

(** The candidates [i], [i-1], ..., [0], in this order. *)
Fixpoint lastIndexFrom (s pat : string) (i : nat) : Z :=
  if occursAt s pat i then Z.of_nat i
  else match i with
       | O => -1
       | S j => lastIndexFrom s pat j
       end.

(** [s.lastIndexOf(pat, pos)]: the position is clamped between 0 and
    [s.length - pat.length]; the result is -1 when there is no occurrence
    at or before it. *)
Definition lastIndexOf (s pat : string) (pos : Z) : Z :=
  let hi := len s - len pat in
  let start := Z.min (Z.max pos 0) hi in
  if start <? 0 then -1 else lastIndexFrom s pat (Z.to_nat start).

(** White space of [String.prototype.trim] among the 8-bit code units:
    TAB, LF, VT, FF, CR, SP and NBSP. *)
Definition isWhite (c : ascii) : bool :=
  let n := nat_of_ascii c in
  ((9 <=? n)%nat && (n <=? 13)%nat) || (n =? 32)%nat || (n =? 160)%nat.

Fixpoint trimStart (s : string) : string :=
  match s with
  | EmptyString => EmptyString
  | String c r => if isWhite c then trimStart r else s
  end.

Fixpoint trimEnd (s : string) : string :=
  match s with
  | EmptyString => EmptyString
  | String c r =>
      match trimEnd r with
      | EmptyString => if isWhite c then EmptyString else String c EmptyString
      | t => String c t
      end
  end.

(** [s.trim()] *)
Definition trim (s : string) : string := trimEnd (trimStart s).

(** Truthiness of a string: only the empty string is falsy. *)
Definition truthy (s : string) : bool :=
  match s with EmptyString => false | _ => true end.

(** The line feed and the two separators the chunker looks for. *)
Definition LF : string := String "010"%char EmptyString.
Definition paragraphBreak : string := (LF ++ LF)%string.
Definition sentenceBreak : string := ". ".

End JS.

(* ===================================================================== *)
(** ** Chunker ([core.ts], Crystal.chunkText)                             *)
(* ===================================================================== *)

Module Chunker.

(** The two variables of the [while] loop. *)
Record loopState := LoopState { start : Z; chunks : list string }.

(** What one pass through the loop body does: leave by [break], or go on
    with new values of [start] and [chunks]. *)
Inductive pass :=
| Break (out : list string)
| Again (st : loopState).

(** Lines 500-515: the end of the window that starts at [start]. *)
Definition windowEnd (text : string) (targetChars start : Z) : Z :=
  let end0 := Z.min (start + targetChars) (JS.len text) in
  if end0 <? JS.len text then
    let minBreak := start + targetChars / 2 in
    let paraBreak := JS.lastIndexOf text JS.paragraphBreak end0 in
    if minBreak <? paraBreak then paraBreak
    else
      let sentBreak := JS.lastIndexOf text JS.sentenceBreak end0 in
      if minBreak <? sentBreak then sentBreak + 1 else end0
  else end0.

(** Lines 521-524: the start of the next window. *)
Definition nextStart (targetChars overlapChars : Z)
    (chunks : list string) (end_ : Z) : Z :=
  let start := end_ - overlapChars in
  if start <=? (if (0 <? Z.of_nat (length chunks)) then end_ - targetChars else 0)
  then end_ else start.

(** Lines 500-524: the loop body. *)
Definition body (text : string) (targetChars overlapChars : Z)
    (st : loopState) : pass :=
  let end_ := windowEnd text targetChars (start st) in
  let chunk := JS.trim (JS.slice text (start st) end_) in
  let chunks' :=
    if 0 <? JS.len chunk then chunks st ++ [chunk] else chunks st in
  if JS.len text <=? end_ then Break chunks'
  else Again (LoopState (nextStart targetChars overlapChars chunks' end_) chunks').

(** The [while (start < text.length)] loop, run for at most [fuel] passes;
    [None] when the passes are used up before the loop is left. *)
Fixpoint loop (fuel : nat) (text : string) (targetChars overlapChars : Z)
    (st : loopState) : option (list string) :=
  match fuel with
  | O => None
  | S fuel' =>
      if start st <? JS.len text then
        match body text targetChars overlapChars st with
        | Break out => Some out
        | Again st' => loop fuel' text targetChars overlapChars st'
        end
      else Some (chunks st)
  end.

Definition chunkText (fuel : nat) (text : string)
    (targetTokens overlapTokens : Z) : option (list string) :=
  loop fuel text (targetTokens * 4) (overlapTokens * 4) (LoopState 0 []).

(** A text whose only paragraph break sits at index 9: nine letters, a
    blank line, twelve letters (23 code units). *)
Definition stuckText : string :=
  ("aaaaaaaaa" ++ JS.paragraphBreak ++ "bbbbbbbbbbbb")%string.

(** *** Progress of the loop *)

(** When the window stops before the end of the text, it is either a full
    window or it was snapped to a break beyond the middle of the window. *)
Lemma windowEnd_short text T st :
  windowEnd text T st < JS.len text ->
  windowEnd text T st = st + T \/ st + T / 2 < windowEnd text T st.
Proof.
  unfold windowEnd.
  destruct (Z.ltb_spec (Z.min (st + T) (JS.len text)) (JS.len text)) as [Hlt|Hge];
    [|lia].
  destruct (Z.ltb_spec (st + T / 2)
              (JS.lastIndexOf text JS.paragraphBreak (Z.min (st + T) (JS.len text))));
    [lia|].
  destruct (Z.ltb_spec (st + T / 2)
              (JS.lastIndexOf text JS.sentenceBreak (Z.min (st + T) (JS.len text))));
    lia.
Qed.

Lemma nextStart_ge T O cs e : 0 <= O -> e - O <= nextStart T O cs e.
Proof.
  intros HO. unfold nextStart.
  destruct (e - O <=? _); lia.
Qed.

(** With an overlap of at most half the window, every pass that goes on
    moves [start] forward. *)
Lemma body_advances text T O st st' :
  0 < T -> 0 <= O -> O <= T / 2 ->
  body text T O st = Again st' -> start st < start st'.
Proof.
  intros HT HO HTO. unfold body.
  destruct (Z.leb_spec (JS.len text) (windowEnd text T (start st))) as [|Hlt];
    [discriminate|].
  intros [= <-]. cbn [start].
  pose proof (windowEnd_short _ _ _ Hlt) as Hw.
  match goal with |- _ < nextStart T O ?cs ?e =>
    pose proof (nextStart_ge T O cs e HO) end.
  assert (T / 2 < T) by (apply Z.div_lt; lia).
  lia.
Qed.

Lemma loop_terminates text T O :
  0 < T -> 0 <= O -> O <= T / 2 ->
  forall fuel st,
    Z.max 0 (JS.len text - start st) < Z.of_nat fuel ->
    exists out, loop fuel text T O st = Some out.
Proof.
  intros HT HO HTO. induction fuel as [|fuel IH]; intros st Hfuel; [lia|].
  - cbn [loop].
    destruct (Z.ltb_spec (start st) (JS.len text)) as [Hlt|Hge]; [|eauto].
    destruct (body text T O st) as [out|st'] eqn:Hb; [eauto|].
    apply IH. apply body_advances in Hb; lia.
Qed.

(** The chunker returns whenever the overlap is at most half the target
    (the defaults, 400 and 80, are of this kind); [text.length + 1] passes
    are enough. *)
Lemma chunkText_terminates_small_overlap text targetTokens overlapTokens :
  0 < targetTokens -> 0 <= overlapTokens -> 2 * overlapTokens <= targetTokens ->
  exists out,
    chunkText (S (String.length text)) text targetTokens overlapTokens = Some out.
Proof.
  intros Ht Ho Hto. unfold chunkText.
  apply loop_terminates; cbn [start]; unfold JS.len; try lia.
  apply Z.div_le_lower_bound; lia.
Qed.

(** The defaults of [chunkText]. *)
Lemma chunkText_terminates_defaults text :
  exists out, chunkText (S (String.length text)) text 400 80 = Some out.
Proof. apply chunkText_terminates_small_overlap; lia. Qed.

(** *** The loop on [stuckText] with a target of 4 and an overlap of 3 *)

Definition stuckState : loopState := LoopState (-3) ["aaaaaaaaa"].

Lemma stuck_first_pass :
  body stuckText 16 12 (LoopState 0 []) = Again stuckState.
Proof. reflexivity. Qed.

Lemma stuck_fixed_point : body stuckText 16 12 stuckState = Again stuckState.
Proof. reflexivity. Qed.

Lemma stuck_loop fuel : loop fuel stuckText 16 12 stuckState = None.
Proof.
  induction fuel as [|fuel IH]; [reflexivity|].
  cbn [loop]. rewrite stuck_fixed_point.
  change (start stuckState <? JS.len stuckText) with true. exact IH.
Qed.

(** C9. On the 23-character text [stuckText], with [targetTokens = 4] and
    [overlapTokens = 3] (both positive), the first window ends at the
    paragraph break (index 9) before the text end, the next window starts at
    9 - 12 = -3, below the start 0 of the window before it, and from there
    every pass of the loop returns to the same state: no number of passes
    makes [chunkText] return. *)
Theorem chunkText_stuck :
  body stuckText (4 * 4) (3 * 4) (LoopState 0 []) = Again stuckState /\
  start stuckState < 0 /\
  forall fuel, chunkText fuel stuckText 4 3 = None.
Proof.
  split; [exact stuck_first_pass|]. split; [reflexivity|].
  intros [|fuel]; [reflexivity|].
  unfold chunkText. cbn [loop].
  change (start (LoopState 0 []) <? JS.len stuckText) with true.
  change (4 * 4) with 16. change (3 * 4) with 12.
  rewrite stuck_first_pass. apply stuck_loop.
Qed.

End Chunker.

(* ===================================================================== *)
(** ** The store and the ingest pipeline ([core.ts])                      *)
(* ===================================================================== *)

(** A call either returns a value or throws. *)
Inductive outcome (A : Type) :=
| Returns (a : A)
| Throws (msg : string).
Arguments Returns {A} a.
Arguments Throws {A} msg.

Module Crystal.

(** An embedding as the provider returns it: [number[]]. *)
Definition vector := list Q.

(** [new Float32Array(v)]: the numbers of [v], each rounded to single
    precision. The rounding is sqlite-vec's business and is not computed:
    what is read of such an array here is the vector it was made from and
    its length. *)
Inductive float32Array := Float32Array (source : vector).

Definition f32length (a : float32Array) : nat :=
  match a with Float32Array source => length source end.

(** [interface Chunk], as handed to [ingest]. *)
Record Chunk := mkChunk {
  text : string;
  role : string;
  source_type : string;
  source_id : string;
  agent_id : string;
  token_count : Z;
  created_at : string
}.

(** A row of the [chunks] table. *)
Record ChunkRow := mkChunkRow {
  row_id : Z;
  row_text : string;
  row_text_hash : string;
  row_role : string;
  row_source_type : string;
  row_source_id : string;
  row_agent_id : string;
  row_token_count : Z;
  row_created_at : string
}.

(** A record of the LanceDB [chunks] table (the dual write). *)
Record LanceRecord := mkLanceRecord {
  l_text : string;
  l_vector : vector;
  l_role : string;
  l_source_type : string;
  l_source_id : string;
  l_agent_id : string;
  l_token_count : Z;
  l_created_at : string
}.

Inductive memoryStatus := active | deprecated | deleted.

#[global] Instance memoryStatus_eq_dec : EqDecision memoryStatus.
Proof. solve_decision. Defined.

(** A row of the [memories] table, keyed by its [id] in the store. *)
Record MemoryRow := mkMemoryRow {
  m_text : string;
  m_category : string;
  m_confidence : Q;
  m_source_ids : string;
  m_status : memoryStatus;
  m_created_at : string;
  m_updated_at : string
}.

(** The [chunks_vec] virtual table: its declared dimension and its rows. *)
Record VecTable := mkVecTable {
  vec_dim : nat;
  vec_rows : list (Z * float32Array)
}.

(** The SQLite file: [chunks] in rowid order, the [chunks_fts] rows the
    insert trigger writes, [chunks_vec] when it has been created, the
    AUTOINCREMENT counters, and [memories]. *)
Record Db := mkDb {
  chunks : list ChunkRow;
  chunks_fts : list (Z * string);
  chunks_vec : option VecTable;
  chunks_seq : Z;
  memories : gmap Z MemoryRow;
  memories_seq : Z
}.

(** The fields of a [Crystal] instance that the operations read or write. *)
Record State := mkState {
  sqliteDb : Db;
  vecDimensions : option nat;
  chunksTable : option (list LanceRecord)
}.

Definition emptyDb : Db := mkDb [] [] None 0 ∅ 0.

(** A freshly initialised instance over an empty data directory. *)
Definition freshState : State := mkState emptyDb None None.

(** [SELECT COUNT( * ) FROM chunks] *)
Definition countChunks (db : Db) : Z := Z.of_nat (length (chunks db)).

(** [!this.vecDimensions]: [null] and [0] are falsy. *)
Definition dimsUnset (d : option nat) : bool :=
  match d with None => true | Some O => true | Some (S _) => false end.

(** [c.created_at || new Date().toISOString()] *)
Definition orNow (s now : string) : string := if JS.truthy s then s else now.

Section Engine.

(** SHA-256 of a text as a hexadecimal string, and the embedding provider
    ([None] when the request fails). *)
Variable sha256hex : string -> string.
Variable embed : list string -> option (list vector).

(** [SELECT 1 FROM chunks WHERE text_hash = ?] *)
Definition hashPresent (db : Db) (h : string) : bool :=
  existsb (fun r => String.eqb (row_text_hash r) h) (chunks db).

(** Step 1 of [ingest]: the chunks whose hash is not yet in the store. The
    filter runs before any row of this batch is written. *)
Definition newChunksOf (db : Db) (batch : list Chunk) : list Chunk :=
  List.filter (fun c => negb (hashPresent db (sha256hex (text c)))) batch.

(** [ensureVecTable]: create [chunks_vec] unless it exists, then record
    the dimension on the instance. sqlite-vec refuses a column of
    dimension 0: the CREATE then throws ([None]) before anything is
    recorded. *)
Definition ensureVecTable (dimensions : nat) (st : State) : option State :=
  let db := sqliteDb st in
  match chunks_vec db with
  | Some _ => Some (mkState db (Some dimensions) (chunksTable st))
  | None =>
      if (dimensions =? 0)%nat then None
      else
        Some (mkState
                (mkDb (chunks db) (chunks_fts db) (Some (mkVecTable dimensions []))
                   (chunks_seq db) (memories db) (memories_seq db))
                (Some dimensions) (chunksTable st))
  end.

(** [insertChunk.run]: the row gets the next AUTOINCREMENT id and the
    trigger [chunks_fts_insert] writes the full-text row. *)
Definition insertChunk (now : string) (c : Chunk) (db : Db) : Z * Db :=
  let id := chunks_seq db + 1 in
  let r := mkChunkRow id (text c) (sha256hex (text c)) (role c) (source_type c)
             (source_id c) (agent_id c) (token_count c)
             (orNow (created_at c) now) in
  (id, mkDb (chunks db ++ [r]) (chunks_fts db ++ [(id, text c)]) (chunks_vec db)
         id (memories db) (memories_seq db)).

(** [insertVec.run(chunkId, new Float32Array(v))]: fails when the table is
    missing, when the array has another length than the table's
    dimension, or when the key is taken. *)
Definition insertVec (id : Z) (v : vector) (db : Db) : option Db :=
  match chunks_vec db with
  | None => None
  | Some t =>
      if (f32length (Float32Array v) =? vec_dim t)%nat
         && negb (existsb (fun p => fst p =? id) (vec_rows t))
      then Some (mkDb (chunks db) (chunks_fts db)
                   (Some (mkVecTable (vec_dim t)
                            (vec_rows t ++ [(id, Float32Array v)])))
                   (chunks_seq db) (memories db) (memories_seq db))
      else None
  end.

(** The body of the transaction: the loop over [newChunks], with
    [embeddings[i]] ([undefined], hence an empty array, past the end). *)
Fixpoint insertAll (now : string) (cs : list Chunk) (embeddings : list vector)
    (db : Db) : option Db :=
  match cs with
  | [] => Some db
  | c :: cs' =>
      let '(id, db1) := insertChunk now c db in
      match insertVec id (hd [] embeddings) db1 with
      | None => None
      | Some db2 => insertAll now cs' (tl embeddings) db2
      end
  end.

Definition lanceRecord (now : string) (c : Chunk) (v : vector) : LanceRecord :=
  mkLanceRecord (text c) v (role c) (source_type c) (source_id c) (agent_id c)
    (token_count c) (orNow (created_at c) now).

Fixpoint lanceRecords (now : string) (cs : list Chunk) (embeddings : list vector)
    : list LanceRecord :=
  match cs with
  | [] => []
  | c :: cs' => lanceRecord now c (hd [] embeddings)
                  :: lanceRecords now cs' (tl embeddings)
  end.

(** Step 5: the dual write; a failure ([lanceOk = false]) is logged and
    ignored. *)
Definition lanceWrite (lanceOk : bool) (records : list LanceRecord)
    (t : option (list LanceRecord)) : option (list LanceRecord) :=
  if lanceOk then
    match t with
    | None => Some records
    | Some old => Some (old ++ records)
    end
  else t.

(** Step 3 of [ingest], lines 549-551: the state in which the transaction
    starts, or [None] when [ensureVecTable] throws. *)
Definition prepared (embeddings : list vector) (st : State) : option State :=
  match embeddings with
  | e0 :: _ =>
      if dimsUnset (vecDimensions st) then ensureVecTable (length e0) st
      else Some st
  | [] => Some st
  end.

(** [Crystal.ingest]. [now] is the clock, [lanceOk] whether the LanceDB
    write goes through. A throw inside the transaction rolls the SQLite
    file back to where the transaction began. *)
Definition ingest (now : string) (lanceOk : bool) (batch : list Chunk)
    (st : State) : outcome Z * State :=
  match batch with
  | [] => (Returns 0, st)
  | _ =>
      let newChunks := newChunksOf (sqliteDb st) batch in
      match newChunks with
      | [] => (Returns 0, st)
      | _ =>
          match embed (map text newChunks) with
          | None => (Throws "embedding failed", st)
          | Some embeddings =>
              match prepared embeddings st with
              | None => (Throws "chunks_vec could not be created", st)
              | Some st1 =>
                  match insertAll now newChunks embeddings (sqliteDb st1) with
                  | None => (Throws "transaction failed", st1)
                  | Some db' =>
                      (Returns (Z.of_nat (length newChunks)),
                       mkState db' (vecDimensions st1)
                         (lanceWrite lanceOk
                            (lanceRecords now newChunks embeddings)
                            (chunksTable st1)))
                  end
              end
          end
      end
  end.

(** [Crystal.forget]: the conditional UPDATE and [result.changes > 0]. *)
Definition forget (now : string) (memoryId : Z) (st : State) : bool * State :=
  let db := sqliteDb st in
  match memories db !! memoryId with
  | Some m =>
      match m_status m with
      | active =>
          let m' := mkMemoryRow (m_text m) (m_category m) (m_confidence m)
                      (m_source_ids m) deprecated (m_created_at m) now in
          (true,
           mkState (mkDb (chunks db) (chunks_fts db) (chunks_vec db)
                      (chunks_seq db) (<[memoryId := m']> (memories db))
                      (memories_seq db))
             (vecDimensions st) (chunksTable st))
      | _ => (false, st)
      end
  | None => (false, st)
  end.

(** *** Hybrid search *)

(** [interface SearchResult] *)
Record SearchResult := mkResult {
  r_text : string;
  r_role : string;
  r_score : Q;
  r_source_type : string;
  r_source_id : string;
  r_agent_id : string;
  r_created_at : string;
  r_freshness : option Recency.freshness
}.

(** The optional [filter] argument and its two optional fields. *)
Record SearchFilter := mkFilter {
  f_agent_id : option string;
  f_source_type : option string
}.

(** [filter?.agent_id] and [filter?.source_type] as the [if] tests read
    them: the value when it is truthy, nothing otherwise. *)
Definition truthyField (o : option string) : option string :=
  match o with
  | Some s => if JS.truthy s then Some s else None
  | None => None
  end.

Definition agentFilter (filter : option SearchFilter) : option string :=
  match filter with Some f => truthyField (f_agent_id f) | None => None end.

Definition sourceFilter (filter : option SearchFilter) : option string :=
  match filter with Some f => truthyField (f_source_type f) | None => None end.

(** The two [AND ... = ?] conditions appended to the metadata queries. *)
Definition passes (filter : option SearchFilter) (r : ChunkRow) : bool :=
  match agentFilter filter with
  | Some a => String.eqb (row_agent_id r) a
  | None => true
  end
  &&
  match sourceFilter filter with
  | Some t => String.eqb (row_source_type r) t
  | None => true
  end.

(** Stable sorts, as [Array.prototype.sort] and [ORDER BY] over rows that
    already have an order: descending and ascending by a rational key. *)
Fixpoint insertDesc {A} (key : A -> Q) (x : A) (l : list A) : list A :=
  match l with
  | [] => [x]
  | y :: l' =>
      if Recency.Qltb (key x) (key y) then y :: insertDesc key x l'
      else x :: y :: l'
  end.

Definition sortDesc {A} (key : A -> Q) (l : list A) : list A :=
  fold_right (insertDesc key) [] l.

Fixpoint insertAsc {A} (key : A -> Q) (x : A) (l : list A) : list A :=
  match l with
  | [] => [x]
  | y :: l' =>
      if Recency.Qltb (key y) (key x) then y :: insertAsc key x l'
      else x :: y :: l'
  end.

Definition sortAsc {A} (key : A -> Q) (l : list A) : list A :=
  fold_right (insertAsc key) [] l.

(** [arr.slice(0, n)] *)
Definition sliceTo {A} (l : list A) (n : Z) : list A :=
  take (Z.to_nat (JS.relIndex (Z.of_nat (length l)) n)) l.

(** The indexes and the clock, outside the repository: the k-nearest
    neighbour [MATCH] of sqlite-vec ([None] when the statement throws), the
    FTS5 [MATCH] with its [bm25] value per matching rowid, the LanceDB
    vector query with the [where] clauses in the order of the calls and the
    [_distance] of each row, and [new Date(s).getTime()] in milliseconds,
    for the strings that [Date] reads (for the others it is NaN, which is
    not modelled: what is proved of scores and of their order is stated
    for dates that read). *)
Variable vecMatch : VecTable -> float32Array -> Z -> option (list (Z * Q)).
Variable ftsMatch : list (Z * string) -> string -> list (Z * Q).
Variable lanceSearch :
  list LanceRecord -> vector -> Z -> list string ->
  option (list (LanceRecord * option Q)).
Variable getTime : string -> Z.

(** [distMap.get(id)]: the last pair with this key wins in [new Map]. *)
Fixpoint distGet (id : Z) (rows : list (Z * Q)) : option Q :=
  match rows with
  | [] => None
  | (i, d) :: rest =>
      match distGet id rest with
      | Some d' => Some d'
      | None => if i =? id then Some d else None
      end
  end.

(** [distMap.get(row.id) || 1] *)
Definition distOrOne (o : option Q) : Q :=
  match o with
  | Some d => if Qeq_bool d 0 then 1%Q else d
  | None => 1%Q
  end.

Definition vecResult (dist : list (Z * Q)) (r : ChunkRow) : SearchResult :=
  mkResult (row_text r) (row_role r) (1 - distOrOne (distGet (row_id r) dist))
    (row_source_type r) (row_source_id r) (row_agent_id r) (row_created_at r)
    None.

(** [Crystal.searchVec]: the MATCH statement, then the metadata query with
    [id IN (...)] and the filter conditions, in rowid order. *)
Definition searchVec (st : State) (embedding : vector) (limit : Z)
    (filter : option SearchFilter) : outcome (list SearchResult) :=
  if dimsUnset (vecDimensions st) then Returns []
  else
    match chunks_vec (sqliteDb st) with
    | None => Throws "no such table: chunks_vec"
    | Some t =>
        match vecMatch t (Float32Array embedding) limit with
        | None => Throws "vector query failed"
        | Some [] => Returns []
        | Some vecRows =>
            let ids := map fst vecRows in
            let rows :=
              List.filter (fun r => existsb (Z.eqb (row_id r)) ids && passes filter r)
                (chunks (sqliteDb st)) in
            Returns (map (vecResult vecRows) rows)
        end
    end.

(** Unicode letters and numbers among the 8-bit code units, and the
    apostrophe: what the [replace] of [buildFTS5Query] keeps. *)
Definition between (lo hi n : nat) : bool := ((lo <=? n) && (n <=? hi))%nat.

Definition keptInTerm (c : ascii) : bool :=
  let n := nat_of_ascii c in
  (n =? 39)%nat
  || between 48 57 n || between 65 90 n || between 97 122 n
  || (n =? 170)%nat || (n =? 178)%nat || (n =? 179)%nat || (n =? 181)%nat
  || (n =? 185)%nat || (n =? 186)%nat || between 188 190 n
  || between 192 214 n || between 216 246 n || between 248 255 n.

Definition lowerChar (c : ascii) : ascii :=
  let n := nat_of_ascii c in
  if between 65 90 n || between 192 214 n || between 216 222 n
  then ascii_of_nat (n + 32) else c.

Fixpoint cleanTerm (t : string) : string :=
  match t with
  | EmptyString => EmptyString
  | String c r =>
      if keptInTerm c then String (lowerChar c) (cleanTerm r) else cleanTerm r
  end.

(** [query.split(/\s+/)] *)
Fixpoint splitWhite (inWhite : bool) (cur : string) (s : string) : list string :=
  match s with
  | EmptyString => [cur]
  | String c r =>
      if JS.isWhite c then
        if inWhite then splitWhite true cur r
        else cur :: splitWhite true EmptyString r
      else splitWhite false (cur ++ String c EmptyString)%string r
  end.

Definition dquote : string := String "034"%char EmptyString.

Definition quoteTerm (t : string) : string := (dquote ++ t ++ dquote ++ "*")%string.

Fixpoint joinAnd (ts : list string) : string :=
  match ts with
  | [] => EmptyString
  | [t] => t
  | t :: rest => (t ++ " AND " ++ joinAnd rest)%string
  end.

(** [Crystal.buildFTS5Query] *)
Definition buildFTS5Query (query : string) : option string :=
  let terms :=
    List.filter (fun t => 0 <? JS.len t)
      (map cleanTerm (splitWhite false EmptyString query)) in
  match terms with
  | [] => None
  | [t] => Some (quoteTerm t)
  | _ => Some (joinAnd (map quoteTerm terms))
  end.

Definition ftsResult (p : ChunkRow * Q) : SearchResult :=
  let '(r, bm25) := p in
  mkResult (row_text r) (row_role r) (Qabs bm25 / (1 + Qabs bm25))
    (row_source_type r) (row_source_id r) (row_agent_id r) (row_created_at r)
    None.

(** [Crystal.searchFTS]: the join of the matching full-text rows with
    [chunks], the filter conditions, [ORDER BY bm25_score LIMIT ?]. *)
Definition searchFTS (st : State) (query : string) (limit : Z)
    (filter : option SearchFilter) : list SearchResult :=
  match buildFTS5Query query with
  | None => []
  | Some ftsQuery =>
      let db := sqliteDb st in
      let joined :=
        flat_map
          (fun '(rowid, bm25) =>
             map (fun r => (r, bm25))
               (List.filter (fun r => row_id r =? rowid) (chunks db)))
          (ftsMatch (chunks_fts db) ftsQuery) in
      let kept := List.filter (fun p => passes filter (fst p)) joined in
      let ordered := sortAsc snd kept in
      let limited := if limit <? 0 then ordered else take (Z.to_nat limit) ordered in
      map ftsResult limited
  end.

(** *** Reciprocal Rank Fusion *)

(** A value of the [scores] map. *)
Record Entry := mkEntry {
  result : SearchResult;
  rrfScore : Q;
  topRank : Z
}.

(** [result.text.slice(0, 200)] *)
Definition dedupKey (r : SearchResult) : string := JS.slice (r_text r) 0 200.

(** The [scores] map, in insertion order. *)
Fixpoint scoresGet (key : string) (m : list (string * Entry)) : option Entry :=
  match m with
  | [] => None
  | (k, e) :: rest => if String.eqb k key then Some e else scoresGet key rest
  end.

Fixpoint scoresAlter (f : Entry -> Entry) (key : string)
    (m : list (string * Entry)) : list (string * Entry) :=
  match m with
  | [] => []
  | (k, e) :: rest =>
      if String.eqb k key then (k, f e) :: rest
      else (k, e) :: scoresAlter f key rest
  end.

(** The body of the inner loop, lines 774-790. *)
Definition fuseResult (weight : Q) (k rank : Z) (r : SearchResult)
    (scores : list (string * Entry)) : list (string * Entry) :=
  let rrfContribution := (weight / inject_Z (k + rank + 1))%Q in
  let dedup := dedupKey r in
  match scoresGet dedup scores with
  | Some _ =>
      scoresAlter
        (fun e => mkEntry (result e) (rrfScore e + rrfContribution)
                    (Z.min (topRank e) rank))
        dedup scores
  | None => scores ++ [(dedup, mkEntry r rrfContribution rank)]
  end.

(** The inner loop over one list, from rank [rank] on. *)
Fixpoint fuseList (weight : Q) (k rank : Z) (l : list SearchResult)
    (scores : list (string * Entry)) : list (string * Entry) :=
  match l with
  | [] => scores
  | r :: rest => fuseList weight k (rank + 1) rest (fuseResult weight k rank r scores)
  end.

(** The outer loop; [weights[listIdx] ?? 1.0]. *)
Fixpoint fuseLists (weights : list Q) (k : Z) (listIdx : nat)
    (resultLists : list (list SearchResult))
    (scores : list (string * Entry)) : list (string * Entry) :=
  match resultLists with
  | [] => scores
  | l :: rest =>
      fuseLists weights k (S listIdx) rest
        (fuseList (nth listIdx weights 1%Q) k 0 l scores)
  end.

(** The top-rank bonus, lines 795-801. *)
Definition bonus (e : Entry) : Entry :=
  if topRank e =? 0 then mkEntry (result e) (rrfScore e + (5 # 100)) (topRank e)
  else if topRank e <=? 2 then mkEntry (result e) (rrfScore e + (2 # 100)) (topRank e)
  else e.

Definition withScore (e : Entry) : SearchResult :=
  let r := result e in
  mkResult (r_text r) (r_role r) (rrfScore e) (r_source_type r) (r_source_id r)
    (r_agent_id r) (r_created_at r) (r_freshness r).

(** [Crystal.reciprocalRankFusion] *)
Definition reciprocalRankFusion (resultLists : list (list SearchResult))
    (weights : list Q) (k : Z) : list SearchResult :=
  let scores := fuseLists weights k 0 resultLists [] in
  let entries := map (fun p => bonus (snd p)) scores in
  map withScore (sortDesc rrfScore entries).

(** *** The search entry point *)

(** [(now - new Date(created_at).getTime()) / 86400000] *)
Definition ageDaysOf (now : Z) (created_at : string) : Q :=
  (inject_Z (now - getTime created_at) / 86400000)%Q.

(** The [fused.map] of [search], lines 648-659. *)
Definition rescore (now : Z) (r : SearchResult) : SearchResult :=
  let dated := JS.truthy (r_created_at r) in
  let ageDays := if dated then ageDaysOf now (r_created_at r) else 0%Q in
  let recency := if dated then Recency.recencyWeight ageDays else 1%Q in
  let rescaled := Recency.Qmin (r_score r * recency * 8) 1 in
  mkResult (r_text r) (r_role r) rescaled (r_source_type r) (r_source_id r)
    (r_agent_id r) (r_created_at r)
    (if dated then Some (Recency.freshnessLabel ageDays) else None).

(** [Math.max(limit * 3, 30)] *)
Definition fetchLimitOf (limit : Z) : Z := Z.max (limit * 3) 30.

(** The two template literals of lines 817 and 820: the value goes
    between single quotes as it is. *)
Definition agentClause (a : string) : string := ("agent_id = '" ++ a ++ "'")%string.

Definition sourceClause (t : string) : string :=
  ("source_type = '" ++ t ++ "'")%string.

(** The [where] clauses of the fallback, in the order of the calls. *)
Definition whereClauses (filter : option SearchFilter) : list string :=
  match agentFilter filter with
  | Some a => [agentClause a]
  | None => []
  end ++
  match sourceFilter filter with
  | Some t => [sourceClause t]
  | None => []
  end.

(** No single quote in a string: spliced into a clause, such a value is
    the whole of the string literal. *)
Fixpoint noQuote (s : string) : bool :=
  match s with
  | EmptyString => true
  | String c r => negb (Ascii.eqb c "'"%char) && noQuote r
  end.

(** What is asked of LanceDB on the fallback path. A row satisfies a
    clause of the two forms above, for a value without a single quote,
    when its column holds the value. [honoursWhere]: a query returns only
    rows that satisfy every [where] clause it was given.
    [honoursLastWhere]: a query returns only rows that satisfy the clause
    of its last [where] call (which is all that is left of the filter if
    a later call replaces the clause of an earlier one). *)
Definition rowSatisfies (clause : string) (row : LanceRecord) : Prop :=
  (forall a, noQuote a = true -> clause = agentClause a -> l_agent_id row = a) /\
  (forall t, noQuote t = true -> clause = sourceClause t -> l_source_type row = t).

Definition honoursWhere : Prop :=
  forall table v k clauses rows,
    lanceSearch table v k clauses = Some rows ->
    Forall (fun p => forall c, In c clauses -> rowSatisfies c (fst p)) rows.

Definition honoursLastWhere : Prop :=
  forall table v k clauses c rows,
    lanceSearch table v k (clauses ++ [c]) = Some rows ->
    Forall (fun p => rowSatisfies c (fst p)) rows.

Definition lanceResult (now : Z) (p : LanceRecord * option Q) : SearchResult :=
  let '(row, distance) := p in
  let cosine := match distance with Some d => (1 - d)%Q | None => 0%Q end in
  let createdAt := l_created_at row in
  let dated := JS.truthy createdAt in
  let ageDays := if dated then ageDaysOf now createdAt else 0%Q in
  let weight := if dated then Recency.recencyWeight ageDays else 1%Q in
  mkResult (l_text row) (l_role row) (cosine * weight) (l_source_type row)
    (l_source_id row) (l_agent_id row) createdAt
    (if dated then Some (Recency.freshnessLabel ageDays) else None).

(** [Crystal.searchLanceFallback] *)
Definition searchLanceFallback (now : Z) (st : State) (query : string)
    (limit : Z) (filter : option SearchFilter) : outcome (list SearchResult) :=
  match chunksTable st with
  | None => Returns []
  | Some table =>
      match embed [query] with
      | None => Throws "embedding failed"
      | Some embeddings =>
          match lanceSearch table (hd [] embeddings) (fetchLimitOf limit)
                  (whereClauses filter) with
          | None => Throws "LanceDB query failed"
          | Some results =>
              Returns (sliceTo (sortDesc r_score (map (lanceResult now) results)) limit)
          end
      end
  end.

(** The test of line 634 that sends [search] to the fallback;
    [countRows()] is the number of records of the LanceDB table. *)
Definition usesFallback (st : State) : bool :=
  let sqliteChunks := countChunks (sqliteDb st) in
  let lanceChunks :=
    match chunksTable st with
    | Some table => Z.of_nat (length table)
    | None => 0
    end in
  (sqliteChunks =? 0) || ((0 <? lanceChunks) && (2 * sqliteChunks <? lanceChunks)).

(** [Crystal.search]; [now] is [Date.now()]. *)
Definition search (now : Z) (st : State) (query : string) (limit : Z)
    (filter : option SearchFilter) : outcome (list SearchResult) :=
  if usesFallback st then searchLanceFallback now st query limit filter
  else
    match embed [query] with
    | None => Throws "embedding failed"
    | Some embeddings =>
        let fetchLimit := fetchLimitOf limit in
        match searchVec st (hd [] embeddings) fetchLimit filter with
        | Throws msg => Throws msg
        | Returns vecResults =>
            let ftsResults := searchFTS st query fetchLimit filter in
            let fused :=
              reciprocalRankFusion [ftsResults; vecResults] [1%Q; 1%Q] 60 in
            let scored := map (rescore now) fused in
            Returns (sliceTo (sortDesc r_score scored) limit)
        end
    end.

(* --------------------------------------------------------------------- *)
(** *** Facts about ingest                                                *)
(* --------------------------------------------------------------------- *)

Lemma ensureVecTable_chunks d st st1 :
  ensureVecTable d st = Some st1 -> chunks (sqliteDb st1) = chunks (sqliteDb st).
Proof.
  unfold ensureVecTable. destruct (chunks_vec (sqliteDb st)); [now intros [= <-]|].
  destruct (d =? 0)%nat; [discriminate|]. now intros [= <-].
Qed.

Lemma prepared_chunks es st st1 :
  prepared es st = Some st1 -> chunks (sqliteDb st1) = chunks (sqliteDb st).
Proof.
  unfold prepared. destruct es as [|e0 es]; [now intros [= <-]|].
  destruct (dimsUnset _); [apply ensureVecTable_chunks|now intros [= <-]].
Qed.

Lemma insertVec_chunks id v db db' :
  insertVec id v db = Some db' -> chunks db' = chunks db.
Proof.
  unfold insertVec. destruct (chunks_vec db) as [t|]; [|discriminate].
  destruct (_ && _); [|discriminate]. intros [= <-]. reflexivity.
Qed.

(** A transaction that commits appends one row per chunk of [newChunks],
    in order, each with the hash of its text. *)
Lemma insertAll_chunks now cs : forall es db db',
  insertAll now cs es db = Some db' ->
  map row_text_hash (chunks db')
  = map row_text_hash (chunks db) ++ map (fun c => sha256hex (text c)) cs.
Proof.
  induction cs as [|c cs IH]; intros es db db' H; cbn in H.
  - injection H as <-. cbn. now rewrite app_nil_r.
  - destruct (insertVec _ _ _) as [db2|] eqn:Hv; [|discriminate].
    apply IH in H. rewrite H. apply insertVec_chunks in Hv. rewrite Hv.
    cbn. rewrite map_app. cbn. now rewrite <- app_assoc.
Qed.

(** Whenever [ingest] returns, it returns the number of chunks that passed
    the filter of step 1, and the table has grown by exactly that many
    rows: a text that occurs twice in the batch and is new to the store is
    counted, and written, twice. *)
Lemma ingest_count now lanceOk batch st n st' :
  ingest now lanceOk batch st = (Returns n, st') ->
  n = Z.of_nat (length (newChunksOf (sqliteDb st) batch)) /\
  countChunks (sqliteDb st') = countChunks (sqliteDb st) + n.
Proof.
  unfold ingest, countChunks. destruct batch as [|c0 batch0]; [intros [= <- <-]; cbn; lia|].
  set (batch := c0 :: batch0).
  destruct (newChunksOf (sqliteDb st) batch) as [|n0 ns] eqn:Hnew;
    [intros [= <- <-]; cbn; lia|].
  destruct (embed _) as [es|]; [|discriminate].
  destruct (prepared es st) as [st1|] eqn:Hprep; [|discriminate].
  pose proof (prepared_chunks _ _ _ Hprep) as Hst1.
  destruct (insertAll _ _ _ _) as [db'|] eqn:Hall; [|discriminate].
  intros [= <- <-]. split; [reflexivity|]. cbn [sqliteDb].
  apply insertAll_chunks in Hall.
  apply (f_equal (@length _)) in Hall.
  rewrite length_app, !length_map, Hst1 in Hall. cbn [length] in *. lia.
Qed.

(** C1. Ingesting the same new text twice in one call, into a freshly
    initialised store and with a working embedding provider, returns 2 and
    leaves two chunk rows that carry the same text hash: the chunk count
    grows by 2, not by 1. *)
Theorem ingest_same_text_twice now lanceOk (c : Chunk) (v : vector) :
  (0 < length v)%nat ->
  embed [text c; text c] = Some [v; v] ->
  exists st',
    ingest now lanceOk [c; c] freshState = (Returns 2, st') /\
    countChunks (sqliteDb st') = countChunks (sqliteDb freshState) + 2 /\
    map row_text_hash (chunks (sqliteDb st'))
    = [sha256hex (text c); sha256hex (text c)] /\
    map row_id (chunks (sqliteDb st')) = [1; 2].
Proof.
  intros Hv Hembed. unfold ingest, newChunksOf. cbn [List.filter freshState sqliteDb
    hashPresent chunks emptyDb existsb negb map].
  rewrite Hembed. unfold prepared, ensureVecTable.
  cbn [dimsUnset vecDimensions freshState sqliteDb chunks_vec emptyDb].
  destruct (Nat.eqb_spec (length v) 0) as [E|_]; [lia|].
  cbn -[Nat.eqb]. rewrite Nat.eqb_refl.
  change (0 + 1 + 1) with 2. change (0 + 1) with 1. change (1 =? 2) with false.
  cbn -[Nat.eqb]. rewrite Nat.eqb_refl. cbn.
  eexists. repeat split.
Qed.

(* --------------------------------------------------------------------- *)
(** *** Facts about forget                                                *)
(* --------------------------------------------------------------------- *)

(** [forget] leaves everything but the [memories] table as it was. *)
Lemma forget_frame now id st :
  let st' := snd (forget now id st) in
  chunks (sqliteDb st') = chunks (sqliteDb st) /\
  chunks_fts (sqliteDb st') = chunks_fts (sqliteDb st) /\
  chunks_vec (sqliteDb st') = chunks_vec (sqliteDb st) /\
  vecDimensions st' = vecDimensions st /\
  chunksTable st' = chunksTable st.
Proof.
  unfold forget. destruct (memories (sqliteDb st) !! id) as [m|]; [|easy].
  destruct (m_status m); easy.
Qed.

(** Search reads the chunk tables, the vector dimension and the LanceDB
    table only; it gives the same answer in two states that agree there. *)
Lemma search_frame now st st' query limit filter :
  chunks (sqliteDb st') = chunks (sqliteDb st) ->
  chunks_fts (sqliteDb st') = chunks_fts (sqliteDb st) ->
  chunks_vec (sqliteDb st') = chunks_vec (sqliteDb st) ->
  vecDimensions st' = vecDimensions st ->
  chunksTable st' = chunksTable st ->
  search now st' query limit filter = search now st query limit filter.
Proof.
  intros Hc Hf Hv Hd Ht.
  unfold search, usesFallback, searchLanceFallback, searchVec, searchFTS, countChunks.
  now rewrite Hc, Hf, Hv, Hd, Ht.
Qed.

(** C6. [forget] returns true exactly when a memory row with this id exists
    and is active. When it returns true the row is still there, with status
    [deprecated], [updated_at] set to the time of the call and its other
    columns untouched. In every case no memory row is removed, the chunk
    tables (rows, full-text rows, vectors, LanceDB records) are untouched,
    so that every search answers as before, and a second [forget] of the
    same id returns false. *)
Theorem forget_deprecates now (memoryId : Z) (st : State) :
  let b := fst (forget now memoryId st) in
  let st' := snd (forget now memoryId st) in
  (b = true <->
   exists m, memories (sqliteDb st) !! memoryId = Some m /\ m_status m = active) /\
  (b = true ->
   exists m, memories (sqliteDb st) !! memoryId = Some m /\
     memories (sqliteDb st') !! memoryId
     = Some (mkMemoryRow (m_text m) (m_category m) (m_confidence m)
               (m_source_ids m) deprecated (m_created_at m) now)) /\
  (forall i, is_Some (memories (sqliteDb st) !! i) ->
             is_Some (memories (sqliteDb st') !! i)) /\
  chunks (sqliteDb st') = chunks (sqliteDb st) /\
  chunks_fts (sqliteDb st') = chunks_fts (sqliteDb st) /\
  chunks_vec (sqliteDb st') = chunks_vec (sqliteDb st) /\
  chunksTable st' = chunksTable st /\
  (forall t query limit filter,
     search t st' query limit filter = search t st query limit filter) /\
  (forall now', fst (forget now' memoryId st') = false).
Proof.
  assert (Hsearch : forall t query limit filter,
    search t (snd (forget now memoryId st)) query limit filter
    = search t st query limit filter).
  { intros. pose proof (forget_frame now memoryId st) as (? & ? & ? & ? & ?).
    now apply search_frame. }
  pose proof (forget_frame now memoryId st) as (Hc & Hf & Hv & _ & Ht).
  cbn zeta in *.
  revert Hsearch Hc Hf Hv Ht. unfold forget.
  destruct (memories (sqliteDb st) !! memoryId) as [m|] eqn:Hm;
    [destruct (m_status m) eqn:Hs|]; cbn [fst snd]; intros Hsearch Hc Hf Hv Ht.
  - (* an active row *)
    cbn [sqliteDb memories].
    split; [split; [eauto|reflexivity]|].
    split; [intros _; exists m; split; [reflexivity|apply lookup_insert_eq]|].
    split.
    { intros j Hj. destruct (decide (memoryId = j)) as [<-|Hne].
      - rewrite lookup_insert_eq. eauto.
      - now rewrite lookup_insert_ne. }
    repeat (split; [assumption|]).
    intros now'. now rewrite lookup_insert_eq.
  - (* a deprecated row *)
    split; [split; [discriminate|intros (m' & [= <-] & ?); congruence]|].
    split; [discriminate|].
    repeat (split; [easy|]).
    intros now'. now rewrite Hm, Hs.
  - (* a deleted row *)
    split; [split; [discriminate|intros (m' & [= <-] & ?); congruence]|].
    split; [discriminate|].
    repeat (split; [easy|]).
    intros now'. now rewrite Hm, Hs.
  - (* no row *)
    split; [split; [discriminate|intros (m' & [=] & ?)]|].
    split; [discriminate|].
    repeat (split; [easy|]).
    intros now'. now rewrite Hm.
Qed.

(* --------------------------------------------------------------------- *)
(** *** Facts about the sorts and about Reciprocal Rank Fusion            *)
(* --------------------------------------------------------------------- *)

Lemma insertDesc_Forall {A} (P : A -> Prop) key x l :
  P x -> Forall P l -> Forall P (insertDesc key x l).
Proof.
  intros Hx Hl. induction Hl as [|y l Hy Hl IH]; cbn.
  - now constructor.
  - destruct (Recency.Qltb _ _); repeat constructor; auto.
Qed.

Lemma sortDesc_Forall {A} (P : A -> Prop) key l :
  Forall P l -> Forall P (sortDesc key l).
Proof.
  induction 1 as [|x l Hx Hl IH]; cbn; [constructor|].
  now apply insertDesc_Forall.
Qed.

Lemma insertAsc_Forall {A} (P : A -> Prop) key x l :
  P x -> Forall P l -> Forall P (insertAsc key x l).
Proof.
  intros Hx Hl. induction Hl as [|y l Hy Hl IH]; cbn.
  - now constructor.
  - destruct (Recency.Qltb _ _); repeat constructor; auto.
Qed.

Lemma sortAsc_Forall {A} (P : A -> Prop) key l :
  Forall P l -> Forall P (sortAsc key l).
Proof.
  induction 1 as [|x l Hx Hl IH]; cbn; [constructor|].
  now apply insertAsc_Forall.
Qed.

Lemma sliceTo_Forall {A} (P : A -> Prop) (l : list A) n :
  Forall P l -> Forall P (sliceTo l n).
Proof. intros H. unfold sliceTo. now apply Forall_take. Qed.

(** The contribution of a rank, with weight 1 and [k = 60], lies between 0
    and 1/61. *)
Lemma contribution_range rank :
  0 <= rank ->
  (0 <= 1 / inject_Z (60 + rank + 1) /\ 1 / inject_Z (60 + rank + 1) <= 1 # 61)%Q.
Proof.
  intros Hr. destruct (60 + rank + 1) as [|p|p] eqn:Hp; try lia.
  unfold Qdiv, Qinv, Qmult, Qle, inject_Z. cbn. lia.
Qed.

(** The entries of a [scores] map are within [B + 1/61], and within [B]
    for the keys that the current list is still to bring. *)
Definition within (pending : list string) (B : Q) (m : list (string * Entry)) : Prop :=
  Forall (fun p => (rrfScore (snd p) <= B + (1 # 61))%Q /\
                   (In (fst p) pending -> (rrfScore (snd p) <= B)%Q)) m.

Lemma within_weaken key pending B m :
  within (key :: pending) B m -> within pending B m.
Proof.
  unfold within. apply List.Forall_impl. intros [k e] [H1 H2]. split; [exact H1|].
  intros Hin. apply H2. now right.
Qed.

Lemma scoresAlter_within key pending B c rank m :
  (0 <= c)%Q -> (c <= 1 # 61)%Q -> ~ In key pending ->
  within (key :: pending) B m ->
  within pending B
    (scoresAlter (fun e => mkEntry (result e) (rrfScore e + c) (Z.min (topRank e) rank))
       key m).
Proof.
  intros Hc0 Hc1 Hfresh. induction m as [|[k e] m IH]; intros Hm; cbn.
  - constructor.
  - apply Forall_cons in Hm as [[H1 H2] Hm].
    destruct (String.eqb_spec k key) as [->|Hne].
    + constructor; [|now apply (within_weaken key)].
      cbn. split; [|intros Hin; now destruct Hfresh].
      assert (rrfScore e <= B)%Q by (apply H2; now left). lra.
    + constructor; [|now apply IH].
      cbn. split; [exact H1|]. intros Hin. apply H2. now right.
Qed.

Lemma fuseResult_within r pending B rank m :
  (0 <= B)%Q -> 0 <= rank -> ~ In (dedupKey r) pending ->
  within (dedupKey r :: pending) B m ->
  within pending B (fuseResult 1 60 rank r m).
Proof.
  intros HB Hr Hfresh Hm. unfold fuseResult.
  destruct (contribution_range rank Hr) as [Hc0 Hc1].
  destruct (scoresGet (dedupKey r) m).
  - now apply scoresAlter_within.
  - apply Forall_app. split; [now apply (within_weaken (dedupKey r))|].
    constructor; [|constructor]. cbn. split; [lra|]. intros Hin. now destruct Hfresh.
Qed.

Lemma fuseList_within l : forall rank B m,
  (0 <= B)%Q -> 0 <= rank -> List.NoDup (map dedupKey l) ->
  within (map dedupKey l) B m ->
  Forall (fun p => (rrfScore (snd p) <= B + (1 # 61))%Q) (fuseList 1 60 rank l m).
Proof.
  induction l as [|r l IH]; intros rank B m HB Hr Hnd Hm; cbn.
  - revert Hm. apply List.Forall_impl. now intros p [H _].
  - cbn in Hnd. apply List.NoDup_cons_iff in Hnd as [Hfresh Hnd].
    apply IH; try lia; auto. now apply fuseResult_within.
Qed.

Lemma bonus_le e : (rrfScore (bonus e) <= rrfScore e + (5 # 100))%Q.
Proof.
  unfold bonus. destruct (topRank e =? 0); [cbn; lra|].
  destruct (topRank e <=? 2); cbn; lra.
Qed.

(** C4. When, within each of the two lists, no two results have the same
    dedup key (the first 200 characters of the text), every score that
    Reciprocal Rank Fusion returns with [k = 60] and weights (1.0, 1.0),
    top-rank bonus included, is at most 2/61 + 0.05. *)
Theorem rrf_score_bound (l1 l2 : list SearchResult) :
  List.NoDup (map dedupKey l1) -> List.NoDup (map dedupKey l2) ->
  Forall (fun r => (r_score r <= 2 * (1 # 61) + (5 # 100))%Q)
    (reciprocalRankFusion [l1; l2] [1%Q; 1%Q] 60).
Proof.
  intros Hnd1 Hnd2. unfold reciprocalRankFusion. cbn [fuseLists nth].
  apply Forall_map, sortDesc_Forall, Forall_map.
  assert (H1 : Forall (fun p => (rrfScore (snd p) <= 0 + (1 # 61))%Q)
                 (fuseList 1 60 0 l1 [])).
  { apply fuseList_within; try lia; try lra; auto. constructor. }
  assert (H2 : Forall (fun p => (rrfScore (snd p) <= (1 # 61) + (1 # 61))%Q)
                 (fuseList 1 60 0 l2 (fuseList 1 60 0 l1 []))).
  { apply fuseList_within; try lia; try lra; auto.
    revert H1. apply List.Forall_impl. intros p Hp. split; [lra|]. intros _. lra. }
  revert H2. apply List.Forall_impl. intros p Hp. cbn.
  pose proof (bonus_le (snd p)). lra.
Qed.

(* --------------------------------------------------------------------- *)
(** *** Facts about search                                                *)
(* --------------------------------------------------------------------- *)

(** C5. When the [chunks] table is empty and no LanceDB table is open,
    [search] returns the empty list for every query, limit and filter. *)
Theorem search_empty_without_lance now st query limit filter :
  chunks (sqliteDb st) = [] -> chunksTable st = None ->
  search now st query limit filter = Returns [].
Proof.
  intros Hc Ht. unfold search, usesFallback, countChunks, searchLanceFallback.
  now rewrite Hc, Ht.
Qed.

(** With an empty [chunks] table the answer is the fallback's. *)
Lemma search_empty_sqlite_is_fallback now st query limit filter :
  chunks (sqliteDb st) = [] ->
  search now st query limit filter = searchLanceFallback now st query limit filter.
Proof.
  intros Hc. unfold search, usesFallback, countChunks. now rewrite Hc.
Qed.

(** A result agrees with the filter on the fields the filter gives. *)
Definition satisfies (filter : option SearchFilter) (r : SearchResult) : Prop :=
  (forall a, agentFilter filter = Some a -> r_agent_id r = a) /\
  (forall t, sourceFilter filter = Some t -> r_source_type r = t).

Lemma passes_fields filter row :
  passes filter row = true ->
  (forall a, agentFilter filter = Some a -> row_agent_id row = a) /\
  (forall t, sourceFilter filter = Some t -> row_source_type row = t).
Proof.
  unfold passes. intros [Ha Hs]%andb_prop. split.
  - intros a Hf. rewrite Hf in Ha. now apply String.eqb_eq.
  - intros t Hf. rewrite Hf in Hs. now apply String.eqb_eq.
Qed.

Lemma searchVec_satisfies st embedding limit filter rs :
  searchVec st embedding limit filter = Returns rs -> Forall (satisfies filter) rs.
Proof.
  unfold searchVec. destruct (dimsUnset _); [intros [= <-]; constructor|].
  destruct (chunks_vec _) as [t|]; [|discriminate].
  destruct (vecMatch t _ limit) as [[|p vecRows]|];
    [intros [= <-]; constructor| |discriminate].
  intros [= <-]. apply Forall_map, List.Forall_forall. intros row [_ Hrow]%filter_In.
  apply andb_prop in Hrow as [_ Hp]. exact (passes_fields _ _ Hp).
Qed.

Lemma searchFTS_satisfies st query limit filter :
  Forall (satisfies filter) (searchFTS st query limit filter).
Proof.
  unfold searchFTS. destruct (buildFTS5Query query) as [q|]; [|constructor].
  apply Forall_map.
  assert (Hkept : forall l : list (ChunkRow * Q),
    Forall (fun p => satisfies filter (ftsResult p))
      (List.filter (fun p => passes filter (fst p)) l)).
  { intros l. apply List.Forall_forall. intros [row b] [_ Hp]%filter_In.
    exact (passes_fields _ _ Hp). }
  destruct (limit <? 0); [|apply Forall_take]; apply sortAsc_Forall, Hkept.
Qed.

(** Fusion keeps, for every key, a result taken from one of the lists. *)
Lemma scoresAlter_results (P : SearchResult -> Prop) f key m :
  (forall e, result (f e) = result e) ->
  Forall (fun p => P (result (snd p))) m ->
  Forall (fun p => P (result (snd p))) (scoresAlter f key m).
Proof.
  intros Hf. induction 1 as [|[k e] m He Hm IH]; cbn; [constructor|].
  destruct (String.eqb k key); constructor; auto. cbn. now rewrite Hf.
Qed.

Lemma fuseList_results (P : SearchResult -> Prop) weight k l : forall rank m,
  Forall P l ->
  Forall (fun p => P (result (snd p))) m ->
  Forall (fun p => P (result (snd p))) (fuseList weight k rank l m).
Proof.
  induction l as [|r l IH]; intros rank m Hl Hm; cbn; [exact Hm|].
  apply Forall_cons in Hl as [Hr Hl]. apply IH; [exact Hl|].
  unfold fuseResult. destruct (scoresGet _ _).
  - now apply scoresAlter_results.
  - apply Forall_app. split; [exact Hm|]. now repeat constructor.
Qed.

Lemma fuseLists_results (P : SearchResult -> Prop) weights k ls : forall idx m,
  Forall (Forall P) ls ->
  Forall (fun p => P (result (snd p))) m ->
  Forall (fun p => P (result (snd p))) (fuseLists weights k idx ls m).
Proof.
  induction ls as [|l ls IH]; intros idx m Hls Hm; cbn; [exact Hm|].
  apply Forall_cons in Hls as [Hl Hls]. apply IH; [exact Hls|].
  now apply fuseList_results.
Qed.

Lemma rrf_satisfies filter ls weights k :
  Forall (Forall (satisfies filter)) ls ->
  Forall (satisfies filter) (reciprocalRankFusion ls weights k).
Proof.
  intros Hls. unfold reciprocalRankFusion.
  apply Forall_map, sortDesc_Forall, Forall_map.
  assert (H : Forall (fun p => satisfies filter (result (snd p)))
                (fuseLists weights k 0 ls [])).
  { apply fuseLists_results; [exact Hls|constructor]. }
  revert H. apply List.Forall_impl. intros [key e] He. cbn in *.
  unfold bonus. destruct (_ =? _); [exact He|]. destruct (_ <=? _); exact He.
Qed.

(** A returned result agrees with the filter on a field that the filter
    gives as a non-empty string. On the fallback path the value is spliced
    into a [where] clause, and is to hold no single quote. *)
Definition agentKept (st : State) (f : SearchFilter) (r : SearchResult) : Prop :=
  forall a, f_agent_id f = Some a -> a <> EmptyString ->
    (usesFallback st = true -> noQuote a = true) -> r_agent_id r = a.

Definition sourceKept (st : State) (f : SearchFilter) (r : SearchResult) : Prop :=
  forall t, f_source_type f = Some t -> t <> EmptyString ->
    (usesFallback st = true -> noQuote t = true) -> r_source_type r = t.

Lemma honoursWhere_last : honoursWhere -> honoursLastWhere.
Proof.
  intros H table v k clauses c rows Hrows. apply H in Hrows.
  revert Hrows. apply List.Forall_impl. intros p Hp. apply Hp.
  apply in_or_app. right. now left.
Qed.

Lemma truthyField_Some o x : truthyField o = Some x <-> o = Some x /\ x <> EmptyString.
Proof.
  unfold truthyField. destruct o as [s|]; [|split; [discriminate|now intros [? _]]].
  destruct s; cbn; split; try discriminate.
  - now intros [[= <-] H].
  - intros [= <-]. split; [reflexivity|discriminate].
  - now intros [[= <-] _].
Qed.

(** The hybrid path: both branches apply the filter before fusion. *)
Lemma search_hybrid_satisfies now st query limit filter results :
  usesFallback st = false ->
  search now st query limit filter = Returns results ->
  Forall (satisfies filter) results.
Proof.
  intros Hpath. unfold search. rewrite Hpath.
  destruct (embed [query]) as [es|]; [|discriminate].
  destruct (searchVec _ _ _ _) as [vecResults|] eqn:Hvec; [|discriminate].
  intros [= <-]. apply searchVec_satisfies in Hvec.
  pose proof (searchFTS_satisfies st query (fetchLimitOf limit) filter) as Hfts.
  apply sliceTo_Forall, sortDesc_Forall, Forall_map.
  assert (H : Forall (satisfies filter)
    (reciprocalRankFusion
       [searchFTS st query (fetchLimitOf limit) filter; vecResults] [1%Q; 1%Q] 60)).
  { apply rrf_satisfies. now repeat constructor. }
  revert H. apply List.Forall_impl. intros r [Ha Hs]. now split.
Qed.

(** The fallback path: what comes back is what LanceDB returned for the
    clauses of the filter, with new scores. *)
Lemma searchLanceFallback_rows now st query limit filter results
    (P : LanceRecord -> Prop) :
  (forall table v k rows,
     lanceSearch table v k (whereClauses filter) = Some rows ->
     Forall (fun p => P (fst p)) rows) ->
  searchLanceFallback now st query limit filter = Returns results ->
  Forall (fun r => exists row, P row /\ r_agent_id r = l_agent_id row /\
                               r_source_type r = l_source_type row) results.
Proof.
  intros Hrows. unfold searchLanceFallback.
  destruct (chunksTable st) as [table|]; [|intros [= <-]; constructor].
  destruct (embed [query]) as [es|]; [|discriminate].
  destruct (lanceSearch _ _ _ _) as [rows|] eqn:E; [|discriminate].
  intros [= <-]. apply sliceTo_Forall, sortDesc_Forall, Forall_map.
  apply Hrows in E. revert E. apply List.Forall_impl.
  intros [row d] Hp. exists row. now repeat split.
Qed.

(** C10. Every result that [search] returns with a filter carries the
    [agent_id] of the filter when the filter gives a non-empty one, and
    the [source_type] of the filter when the filter gives a non-empty
    one. On the hybrid path this is the work of the two metadata queries.
    On the LanceDB fallback path the values go into [where] clauses
    between single quotes: there it holds for values without a single
    quote when LanceDB returns only rows that satisfy every clause it was
    given; and when LanceDB is only known to apply the clause of the last
    [where] call, the [source_type] of the filter is still kept, and so
    is the [agent_id] when the filter gives no [source_type]. *)
Theorem search_respects_filter now st query limit
    (f : SearchFilter) (results : list SearchResult) :
  search now st query limit (Some f) = Returns results ->
  ((usesFallback st = true -> honoursWhere) ->
   Forall (fun r => agentKept st f r /\ sourceKept st f r) results) /\
  ((usesFallback st = true -> honoursLastWhere) ->
   Forall (fun r => sourceKept st f r /\
                    (sourceFilter (Some f) = None -> agentKept st f r)) results).
Proof.
  intros Hrun. destruct (usesFallback st) eqn:Hpath.
  - (* the fallback *)
    unfold search in Hrun. rewrite Hpath in Hrun. split; intros Hlance.
    + specialize (Hlance eq_refl).
      apply (searchLanceFallback_rows _ _ _ _ _ _
               (fun row => forall c, In c (whereClauses (Some f)) -> rowSatisfies c row))
        in Hrun; [|intros table v k rows E; exact (Hlance _ _ _ _ _ E)].
      revert Hrun. apply List.Forall_impl. intros r (row & Hrow & Ea & Es).
      split.
      * intros a Ha Hne Hq. rewrite Ea. apply (Hrow (agentClause a)); auto.
        unfold whereClauses. apply in_or_app. left.
        replace (agentFilter (Some f)) with (Some a); [now left|].
        symmetry. now apply truthyField_Some.
      * intros t Ht Hne Hq. rewrite Es. apply (Hrow (sourceClause t)); auto.
        unfold whereClauses. apply in_or_app. right.
        replace (sourceFilter (Some f)) with (Some t); [now left|].
        symmetry. now apply truthyField_Some.
    + specialize (Hlance eq_refl).
      destruct (sourceFilter (Some f)) as [t0|] eqn:Hsrc.
      * apply (searchLanceFallback_rows _ _ _ _ _ _
                 (fun row => rowSatisfies (sourceClause t0) row)) in Hrun.
        { revert Hrun. apply List.Forall_impl. intros r (row & Hrow & _ & Es).
          split; [|discriminate]. intros t Ht Hne Hq. rewrite Es.
          assert (t0 = t) as ->.
          { assert (E : sourceFilter (Some f) = Some t) by now apply truthyField_Some.
            congruence. }
          apply Hrow; auto. }
        intros table v k rows E. unfold whereClauses in E. rewrite Hsrc in E.
        exact (Hlance _ _ _ _ _ _ E).
      * destruct (agentFilter (Some f)) as [a0|] eqn:Hag.
        { apply (searchLanceFallback_rows _ _ _ _ _ _
                   (fun row => rowSatisfies (agentClause a0) row)) in Hrun.
          { revert Hrun. apply List.Forall_impl. intros r (row & Hrow & Ea & _).
            split.
            - intros t Ht Hne _. exfalso.
              assert (E : sourceFilter (Some f) = Some t) by now apply truthyField_Some.
              congruence.
            - intros _ a Ha Hne Hq. rewrite Ea.
              assert (a0 = a) as ->.
              { assert (E : agentFilter (Some f) = Some a) by now apply truthyField_Some.
                congruence. }
              apply Hrow; auto. }
          intros table v k rows E. unfold whereClauses in E. rewrite Hag, Hsrc in E.
          exact (Hlance _ _ _ [] _ _ E). }
        { apply List.Forall_forall. intros r _. split.
          - intros t Ht Hne _. exfalso.
            assert (E : sourceFilter (Some f) = Some t) by now apply truthyField_Some.
            congruence.
          - intros _ a Ha Hne _. exfalso.
            assert (E : agentFilter (Some f) = Some a) by now apply truthyField_Some.
            congruence. }
  - (* the hybrid path *)
    apply (search_hybrid_satisfies _ _ _ _ _ _ Hpath) in Hrun.
    assert (H : Forall (fun r => agentKept st f r /\ sourceKept st f r) results).
    { revert Hrun. apply List.Forall_impl. intros r [Ha Hs]. split.
      - intros a Hf Hne _. apply Ha. now apply truthyField_Some.
      - intros t Hf Hne _. apply Hs. now apply truthyField_Some. }
    split; intros _; [exact H|].
    revert H. apply List.Forall_impl. intros r [Ha Hs]. now split.
Qed.

End Engine.

(* --------------------------------------------------------------------- *)
(** *** Concrete runs                                                     *)
(* --------------------------------------------------------------------- *)

(** Stand-ins for the outside world, to run the model on concrete inputs:
    a hash that is the text itself, a provider that embeds every text as
    the one-dimensional vector (1), a vector index that returns the first
    [k] rows at distance 1/2, a full-text index that matches nothing, a
    LanceDB table that returns its first [k] records at distance 1/2 when
    no [where] clause is given, and a clock that reads every date as 0. *)
Definition plainHash (t : string) : string := t.

Definition unitEmbed (texts : list string) : option (list vector) :=
  Some (map (fun _ => [1%Q]) texts).

Definition firstRows (t : VecTable) (_ : float32Array) (k : Z)
    : option (list (Z * Q)) :=
  Some (map (fun p => (fst p, 1 # 2)) (take (Z.to_nat k) (vec_rows t))).

Definition noMatch (_ : list (Z * string)) (_ : string) : list (Z * Q) := [].

Definition firstRecords (table : list LanceRecord) (_ : vector) (k : Z)
    (clauses : list string) : option (list (LanceRecord * option Q)) :=
  match clauses with
  | [] => Some (map (fun r => (r, Some (1 # 2))) (take (Z.to_nat k) table))
  | _ => None
  end.

Definition epoch (_ : string) : Z := 0.

Definition shipPolicy : Chunk :=
  mkChunk "Ship policy is review-before-merge" "assistant" "conversation"
    "session-1" "main" 9 "2026-02-10T00:00:00.000Z".

(** The store after [ingest([shipPolicy])] on a fresh instance. *)
Definition oneChunkState : State :=
  snd (ingest plainHash unitEmbed "2026-02-10T00:00:00.000Z" true [shipPolicy]
         freshState).

(** A pre-migration store: no row in SQLite, one record in LanceDB. *)
Definition lanceOnlyState : State :=
  mkState emptyDb None
    (Some [lanceRecord "2026-02-10T00:00:00.000Z" shipPolicy [1%Q]]).

(** Two results whose texts differ only after their first 200 characters. *)
Definition longPrefix : string := string_of_list_ascii (repeat "a"%char 200).

Definition twinA : SearchResult :=
  mkResult (longPrefix ++ "1")%string "user" 0 "conversation" "s" "main" "" None.

Definition twinB : SearchResult :=
  mkResult (longPrefix ++ "2")%string "user" 0 "conversation" "s" "main" "" None.

Definition resultOf (t agent : string) : SearchResult :=
  mkResult t "assistant" 0 "conversation" "session-1" agent "" None.

(** Same text twice, at a concrete chunk, hash and provider. *)
Lemma ingest_same_text_twice_witness :
  exists st',
    ingest plainHash unitEmbed "2026-02-10T00:00:00.000Z" true
      [shipPolicy; shipPolicy] freshState = (Returns 2, st') /\
    countChunks (sqliteDb st') = countChunks (sqliteDb freshState) + 2 /\
    map row_text_hash (chunks (sqliteDb st'))
    = [plainHash (text shipPolicy); plainHash (text shipPolicy)] /\
    map row_id (chunks (sqliteDb st')) = [1; 2].
Proof.
  apply (ingest_same_text_twice plainHash unitEmbed
           "2026-02-10T00:00:00.000Z" true shipPolicy [1%Q]).
  - cbn. lia.
  - reflexivity.
Defined.

(** The bound at two lists over two results with distinct keys. *)
Lemma rrf_score_bound_witness :
  Forall (fun r => (r_score r <= 2 * (1 # 61) + (5 # 100))%Q)
    (reciprocalRankFusion
       [[resultOf "alpha" "main"; resultOf "beta" "main"];
        [resultOf "beta" "main"; resultOf "alpha" "main"]] [1%Q; 1%Q] 60).
Proof.
  apply rrf_score_bound; vm_compute;
    (constructor; [intros [E|[]]; discriminate E|]);
    (constructor; [intros []|constructor]).
Defined.

(** Two lists that both rank [twinA] then [twinB]: the two texts differ,
    their dedup keys do not, and the one fused entry collects
    1/61 + 1/62 + 1/61 + 1/62 + 0.05, more than 2/61 + 0.05. *)
Lemma rrf_shared_prefix_exceeds_bound :
  r_text twinA <> r_text twinB /\
  ~ Forall (fun r => (r_score r <= 2 * (1 # 61) + (5 # 100))%Q)
      (reciprocalRankFusion [[twinA; twinB]; [twinA; twinB]] [1%Q; 1%Q] 60).
Proof.
  split.
  - intros E. apply (f_equal (String.get 200)) in E. vm_compute in E.
    discriminate.
  - remember (reciprocalRankFusion [[twinA; twinB]; [twinA; twinB]] [1%Q; 1%Q] 60)
      as fused eqn:E.
    vm_compute in E. subst fused. intros H. apply Forall_inv in H.
    revert H. unfold Qle. cbn. lia.
Qed.

(** A fresh instance: no chunk row and no LanceDB table. *)
Lemma search_empty_without_lance_witness :
  search unitEmbed firstRows noMatch firstRecords epoch 0 freshState
    "deployment policy" 2 None = Returns [].
Proof.
  apply search_empty_without_lance; reflexivity.
Defined.

(** An empty [chunks] table with a populated LanceDB table: [search]
    answers from LanceDB. *)
Lemma search_empty_sqlite_answers_from_lance :
  countChunks (sqliteDb lanceOnlyState) = 0 /\
  search unitEmbed firstRows noMatch firstRecords epoch 0 lanceOnlyState
    "deployment policy" 2 None <> Returns [].
Proof.
  split; [reflexivity|]. vm_compute. discriminate.
Qed.

(** A stand-in for LanceDB that reads a [where] clause as SQL reads it:
    a disjunction of tests [column = 'literal'] over the two columns, a
    literal running up to the next single quote. A query with a clause
    that does not read so fails; otherwise it returns the first [k]
    records that pass every clause, at distance 1/2. *)
Inductive sqlTest :=
| AgentIs (a : string)
| SourceIs (t : string).

Fixpoint dropPrefix (pre s : string) : option string :=
  match pre, s with
  | EmptyString, _ => Some s
  | String a p, String b r => if Ascii.eqb a b then dropPrefix p r else None
  | String _ _, EmptyString => None
  end.

(** The literal up to the closing quote, and what follows the quote. *)
Fixpoint readLiteral (s : string) : option (string * string) :=
  match s with
  | EmptyString => None
  | String c r =>
      if Ascii.eqb c "'"%char then Some (EmptyString, r)
      else match readLiteral r with
           | Some (lit, rest) => Some (String c lit, rest)
           | None => None
           end
  end.

Fixpoint readTests (fuel : nat) (s : string) : option (list sqlTest) :=
  match fuel with
  | O => None
  | S fuel' =>
      let literalOf (mk : string -> sqlTest) (r : string) :=
        match readLiteral r with
        | Some (lit, EmptyString) => Some [mk lit]
        | Some (lit, rest) =>
            match dropPrefix " OR " rest with
            | Some more =>
                match readTests fuel' more with
                | Some tests => Some (mk lit :: tests)
                | None => None
                end
            | None => None
            end
        | None => None
        end in
      match dropPrefix "agent_id = '" s with
      | Some r => literalOf AgentIs r
      | None =>
          match dropPrefix "source_type = '" s with
          | Some r => literalOf SourceIs r
          | None => None
          end
      end
  end.

Definition readClause (clause : string) : option (list sqlTest) :=
  readTests (String.length clause) clause.

Definition passesTest (row : LanceRecord) (t : sqlTest) : bool :=
  match t with
  | AgentIs a => String.eqb (l_agent_id row) a
  | SourceIs t => String.eqb (l_source_type row) t
  end.

Definition passesClause (row : LanceRecord) (clause : string) : bool :=
  match readClause clause with
  | Some tests => existsb (passesTest row) tests
  | None => false
  end.

Definition sqlRecords (table : list LanceRecord) (_ : vector) (k : Z)
    (clauses : list string) : option (list (LanceRecord * option Q)) :=
  if forallb (fun c => match readClause c with Some _ => true | None => false end)
       clauses
  then Some (map (fun r => (r, Some (1 # 2)))
               (take (Z.to_nat k)
                  (List.filter (fun r => forallb (passesClause r) clauses) table)))
  else None.

Lemma readLiteral_noQuote a :
  noQuote a = true -> readLiteral (a ++ "'") = Some (a, EmptyString).
Proof.
  induction a as [|c a IH]; [reflexivity|]. cbn [noQuote].
  intros [Hc Ha]%andb_prop.
  change (readLiteral (String c (a ++ "'")) = Some (String c a, EmptyString)).
  cbn [readLiteral]. apply negb_true_iff in Hc. now rewrite Hc, IH.
Qed.

Lemma readClause_agent a :
  noQuote a = true -> readClause (agentClause a) = Some [AgentIs a].
Proof.
  intros Ha. unfold readClause, agentClause.
  change (String.length ("agent_id = '" ++ a ++ "'"))
    with (S (String.length ("gent_id = '" ++ a ++ "'"))).
  cbn [readTests].
  change (dropPrefix "agent_id = '" ("agent_id = '" ++ a ++ "'"))
    with (Some (a ++ "'")%string).
  cbv beta iota. now rewrite readLiteral_noQuote.
Qed.

Lemma readClause_source t :
  noQuote t = true -> readClause (sourceClause t) = Some [SourceIs t].
Proof.
  intros Ht. unfold readClause, sourceClause.
  change (String.length ("source_type = '" ++ t ++ "'"))
    with (S (String.length ("ource_type = '" ++ t ++ "'"))).
  cbn [readTests].
  change (dropPrefix "agent_id = '" ("source_type = '" ++ t ++ "'")) with (@None string).
  change (dropPrefix "source_type = '" ("source_type = '" ++ t ++ "'"))
    with (Some (t ++ "'")%string).
  cbv beta iota. now rewrite readLiteral_noQuote.
Qed.

(** The stand-in returns only rows that satisfy every clause. *)
Lemma sqlRecords_honoursWhere : honoursWhere sqlRecords.
Proof.
  intros table v k clauses rows. unfold sqlRecords.
  destruct (forallb _ clauses); [|discriminate]. intros [= <-].
  apply Forall_map, Forall_take, List.Forall_forall.
  intros row [_ Hrow]%filter_In c Hc. cbn [fst].
  rewrite forallb_forall in Hrow. specialize (Hrow c Hc).
  unfold passesClause in Hrow. split.
  - intros a Ha ->. rewrite readClause_agent in Hrow by exact Ha.
    cbn in Hrow. rewrite orb_false_r in Hrow. now apply String.eqb_eq.
  - intros t Ht ->. rewrite readClause_source in Hrow by exact Ht.
    cbn in Hrow. rewrite orb_false_r in Hrow. now apply String.eqb_eq.
Qed.

(** A pre-migration store with the records of two agents. *)
Definition deployNote : Chunk :=
  mkChunk "Deploys go out on Thursdays" "assistant" "conversation" "session-3"
    "cc-mini" 7 "2026-02-11T00:00:00.000Z".

Definition twoAgentLance : State :=
  mkState emptyDb None
    (Some [lanceRecord "2026-02-10T00:00:00.000Z" shipPolicy [1%Q];
           lanceRecord "2026-02-11T00:00:00.000Z" deployNote [1%Q]]).

Definition mainOnly : SearchFilter := mkFilter (Some "main") None.

Definition answerOf (o : outcome (list SearchResult)) : list SearchResult :=
  match o with
  | Returns results => results
  | Throws _ => []
  end.

(** The filter [{ agent_id: "main" }] on the fallback path, over the
    records of two agents: one result, of agent [main]. *)
Lemma search_respects_filter_witness :
  usesFallback twoAgentLance = true /\
  length (answerOf (search unitEmbed firstRows noMatch sqlRecords epoch 0
                      twoAgentLance "deploy policy" 5 (Some mainOnly))) = 1%nat /\
  Forall (fun r => agentKept twoAgentLance mainOnly r /\
                   sourceKept twoAgentLance mainOnly r)
    (answerOf (search unitEmbed firstRows noMatch sqlRecords epoch 0
                 twoAgentLance "deploy policy" 5 (Some mainOnly))).
Proof.
  split; [reflexivity|]. split; [vm_compute; reflexivity|].
  apply (proj1 (search_respects_filter unitEmbed firstRows noMatch sqlRecords
                  epoch 0 twoAgentLance "deploy policy" 5 mainOnly _
                  ltac:(vm_compute; reflexivity))).
  intros _. exact sqlRecords_honoursWhere.
Defined.

(** A value with a single quote closes the string literal of its clause:
    the clause of the filter [{ agent_id: "main' OR agent_id = 'cc-mini" }]
    is the text of a disjunction, and under the SQL reading of the
    stand-in the fallback returns the records of both agents, none of
    which carries the value of the filter. *)
Lemma search_fallback_splices_quote :
  agentClause "main' OR agent_id = 'cc-mini"
  = "agent_id = 'main' OR agent_id = 'cc-mini'" /\
  exists results,
    search unitEmbed firstRows noMatch sqlRecords epoch 0 twoAgentLance
      "deploy policy" 5
      (Some (mkFilter (Some "main' OR agent_id = 'cc-mini") None))
    = Returns results /\
    map r_agent_id results = ["main"; "cc-mini"].
Proof.
  split; [reflexivity|]. eexists. split; vm_compute; reflexivity.
Qed.

(** The filter [{ agent_id: "" }] on the one-chunk store: the hybrid path
    is taken, the empty string is falsy, no condition is added, and the
    chunk of agent [main] comes back. *)
Lemma search_ignores_empty_agent_filter :
  usesFallback oneChunkState = false /\
  exists results,
    search unitEmbed firstRows noMatch firstRecords epoch 0 oneChunkState
      "ship policy" 5 (Some (mkFilter (Some "") None)) = Returns results /\
    ~ Forall (fun r => r_agent_id r = "") results.
Proof.
  split; [reflexivity|]. eexists. split; [vm_compute; reflexivity|].
  intros H. apply Forall_inv in H. discriminate.
Qed.

End Crystal.

(* ===================================================================== *)
(** ** Buffer encodings used by the sealed envelope                       *)
(* ===================================================================== *)

Module Encoding.

Import Stdlib.Init.Byte.

(** A Node [Buffer]. *)
Definition bytes := list byte.

#[global] Instance byte_eq_decision : EqDecision byte := Byte.byte_eq_dec.

Definition byteOfN (n : N) : byte :=
  match Byte.of_N n with Some b => b | None => x00 end.

Definition alphabet : string :=
  "ABCDEFGHIJKLMNOPQRSTUVWXYZabcdefghijklmnopqrstuvwxyz0123456789+/".

(** The character of a six-bit value. *)
Definition sextetChar (v : N) : ascii :=
  match String.get (N.to_nat v) alphabet with Some c => c | None => "A"%char end.

(** The six-bit value of a character; the decoder also reads the URL-safe
    [-] and [_]. *)
Definition sextetOf (c : ascii) : option N :=
  let n := N_of_ascii c in
  if ((65 <=? n) && (n <=? 90))%N then Some (n - 65)%N
  else if ((97 <=? n) && (n <=? 122))%N then Some (n - 71)%N
  else if ((48 <=? n) && (n <=? 57))%N then Some (n + 4)%N
  else if ((n =? 43) || (n =? 45))%N then Some 62%N
  else if ((n =? 47) || (n =? 95))%N then Some 63%N
  else None.

(** [buf.toString('base64')] *)
Fixpoint toBase64 (bs : bytes) : string :=
  match bs with
  | [] => EmptyString
  | [b1] =>
      let n1 := Byte.to_N b1 in
      String (sextetChar (n1 / 4)) (String (sextetChar (n1 mod 4 * 16)) "==")
  | [b1; b2] =>
      let n1 := Byte.to_N b1 in
      let n2 := Byte.to_N b2 in
      String (sextetChar (n1 / 4))
        (String (sextetChar (n1 mod 4 * 16 + n2 / 16))
           (String (sextetChar (n2 mod 16 * 4)) "="))
  | b1 :: b2 :: b3 :: rest =>
      let n1 := Byte.to_N b1 in
      let n2 := Byte.to_N b2 in
      let n3 := Byte.to_N b3 in
      String (sextetChar (n1 / 4))
        (String (sextetChar (n1 mod 4 * 16 + n2 / 16))
           (String (sextetChar (n2 mod 16 * 4 + n3 / 64))
              (String (sextetChar (n3 mod 64)) (toBase64 rest))))
  end%N.

(** The six-bit values read by [Buffer.from(s, 'base64')]: decoding stops
    at the first [=], characters outside the alphabet are skipped. *)
Fixpoint sextets (s : string) : list N :=
  match s with
  | EmptyString => []
  | String c r =>
      if Ascii.eqb c "="%char then []
      else match sextetOf c with
           | Some v => v :: sextets r
           | None => sextets r
           end
  end.

(** Four values give three bytes; of a shorter tail, the bits that do not
    fill a byte are dropped. *)
Fixpoint packSextets (vs : list N) : bytes :=
  match vs with
  | v1 :: v2 :: v3 :: v4 :: rest =>
      byteOfN (v1 * 4 + v2 / 16)
        :: byteOfN (v2 mod 16 * 16 + v3 / 4)
        :: byteOfN (v3 mod 4 * 64 + v4)
        :: packSextets rest
  | [v1; v2; v3] =>
      [byteOfN (v1 * 4 + v2 / 16); byteOfN (v2 mod 16 * 16 + v3 / 4)]
  | [v1; v2] => [byteOfN (v1 * 4 + v2 / 16)]
  | _ => []
  end%N.

(** [Buffer.from(s, 'base64')] *)
Definition fromBase64 (s : string) : bytes := packSextets (sextets s).

Definition hexDigit (n : N) : ascii :=
  match String.get (N.to_nat n) "0123456789abcdef" with
  | Some c => c
  | None => "0"%char
  end.

(** [buf.toString('hex')], the form of [digest('hex')] *)
Fixpoint toHex (bs : bytes) : string :=
  match bs with
  | [] => EmptyString
  | b :: rest =>
      let n := Byte.to_N b in
      String (hexDigit (n / 16)) (String (hexDigit (n mod 16)) (toHex rest))
  end%N.

(** [Buffer.from(s, 'utf-8')] for a text of 7-bit characters. *)
Definition utf8 (s : string) : bytes := list_byte_of_string s.

(** *** Decoding what was encoded *)

Lemma sextetOf_sextetChar (v : N) :
  (v < 64)%N ->
  sextetOf (sextetChar v) = Some v /\ Ascii.eqb (sextetChar v) "="%char = false.
Proof.
  intros Hv. rewrite <- (N2Nat.id v). assert (Hn : (N.to_nat v < 64)%nat) by lia.
  generalize dependent (N.to_nat v). clear v Hv. intros n Hn.
  do 64 (destruct n as [|n]; [split; reflexivity|]). lia.
Qed.

Lemma byteOfN_to_N b : byteOfN (Byte.to_N b) = b.
Proof. unfold byteOfN. now rewrite Byte.of_to_N. Qed.

Lemma sextets_cons v s :
  (v < 64)%N -> sextets (String (sextetChar v) s) = v :: sextets s.
Proof.
  intros Hv. destruct (sextetOf_sextetChar v Hv) as [Hs He].
  cbn [sextets]. now rewrite He, Hs.
Qed.

(** Induction over a list, three elements at a time. *)
Lemma triples_ind {A} (P : list A -> Prop) :
  P [] -> (forall a, P [a]) -> (forall a b, P [a; b]) ->
  (forall a b c l, P l -> P (a :: b :: c :: l)) ->
  forall l, P l.
Proof.
  intros H0 H1 H2 H3. fix IH 1.
  intros [|a [|b [|c l]]]; [exact H0|apply H1|apply H2|apply H3, IH].
Qed.

(** Replace a byte by [byteOfN n] for a number [n <= 255]. *)
Ltac byte_as_number b :=
  let n := fresh "n" in
  let E := fresh "E" in
  let B := fresh "B" in
  pose proof (byteOfN_to_N b) as E;
  pose proof (Byte.to_N_bounded b) as B;
  set (n := Byte.to_N b) in *; clearbody n;
  rewrite <- E; clear E.

Ltac sextet_arith := zify; Z.to_euclidean_division_equations; lia.

Ltac same_bytes :=
  repeat match goal with
         | |- _ :: _ = _ :: _ => f_equal
         | |- byteOfN _ = byteOfN _ => apply (f_equal byteOfN); sextet_arith
         end.

Lemma fromBase64_toBase64 (bs : bytes) : fromBase64 (toBase64 bs) = bs.
Proof.
  unfold fromBase64. induction bs as [|b1|b1 b2|b1 b2 b3 rest IH] using triples_ind.
  - reflexivity.
  - cbn [toBase64]. byte_as_number b1.
    rewrite !sextets_cons by sextet_arith.
    cbn [sextets Ascii.eqb Bool.eqb packSextets]. same_bytes.
  - cbn [toBase64]. byte_as_number b1. byte_as_number b2.
    rewrite !sextets_cons by sextet_arith.
    cbn [sextets Ascii.eqb Bool.eqb packSextets]. same_bytes.
  - cbn [toBase64]. byte_as_number b1. byte_as_number b2. byte_as_number b3.
    rewrite !sextets_cons by sextet_arith.
    cbn [packSextets]. rewrite IH. same_bytes.
Qed.

End Encoding.

(* ===================================================================== *)
(** ** The dead drop ([worker.ts])                                        *)
(* ===================================================================== *)

Module Worker.

Import Encoding.

(** [customMetadata] as [handleDrop] writes it. *)
Record Metadata := mkMetadata {
  md_agent_id : string;
  md_dropped_at : string;
  md_size : string
}.

(** An object of the R2 bucket. *)
Record R2Object := mkObject {
  body : bytes;
  customMetadata : option Metadata;
  uploaded : string
}.

(** The bucket [env.RELAY], by object key. *)
Abbreviation Bucket := (gmap string R2Object).

Record BlobInfo := mkBlobInfo {
  b_id : string;
  b_size : Z;
  b_dropped_at : string;
  b_agent_id : string
}.

(** What a response carries. *)
Inductive Body :=
| ErrorJson (error : string)
| DropJson (id channel : string) (size : Z) (dropped_at : string)
| ListJson (channel : string) (count : Z) (blobs : list BlobInfo)
| Stream (content : bytes) (xAgentId xDroppedAt : string)
| ConfirmJson (deleted : string).

Record Response := mkResponse {
  status : Z;
  payload : Body
}.

(** [json(data, status = 200)] *)
Definition json (data : Body) (status : Z) : Response := mkResponse status data.

Definition VALID_CHANNELS : list string := ["conversations"; "mirror"].

(** [VALID_CHANNELS.includes(channel)] *)
Definition isValidChannel (channel : string) : bool :=
  existsb (String.eqb channel) VALID_CHANNELS.

(** [`${channel}/${id}`] *)
Definition keyOf (channel id : string) : string := (channel ++ "/" ++ id)%string.

(** [s.split('/')[1]], and [undefined] rendered as the empty string. *)
Fixpoint untilSlash (s : string) : string :=
  match s with
  | EmptyString => EmptyString
  | String c r => if Ascii.eqb c "/"%char then EmptyString else String c (untilSlash r)
  end.

Fixpoint afterSlash (s : string) : option string :=
  match s with
  | EmptyString => None
  | String c r => if Ascii.eqb c "/"%char then Some r else afterSlash r
  end.

Definition secondPart (key : string) : string :=
  match afterSlash key with
  | Some r => untilSlash r
  | None => EmptyString
  end.

(** [a || b] on strings. *)
Definition orElse (a b : string) : string := if JS.truthy a then a else b.

Section Handlers.

(** Outside functions: [String(n)] for a byte length and
    [new Date(s).getTime()]. *)
Variable showNumber : Z -> string.
Variable getTime : string -> Z.

(** The platform: whether a [list] call that names no [include] option
    returns the [customMetadata] of the objects. It does under
    compatibility dates before 2022-08-04; later ones honour [include],
    and a call without it returns the objects without their metadata. *)
Variable listWithMetadata : bool.

(** [handleDrop]; the UUID and the clock are inputs. *)
Definition handleDrop (bucket : Bucket) (agentId channel : string)
    (content : bytes) (uuid now : string) : Response * Bucket :=
  if negb (isValidChannel channel) then
    (json (ErrorJson ("Invalid channel: " ++ channel
                      ++ ". Valid: conversations, mirror")%string) 400, bucket)
  else
    let byteLength := Z.of_nat (length content) in
    if byteLength =? 0 then (json (ErrorJson "Empty payload") 400, bucket)
    else if 100 * 1024 * 1024 <? byteLength then
      (json (ErrorJson "Payload too large (max 100MB)") 413, bucket)
    else
      let key := keyOf channel uuid in
      let obj := mkObject content
                   (Some (mkMetadata agentId now (showNumber byteLength))) now in
      (json (DropJson uuid channel byteLength now) 200, <[key := obj]> bucket).

Definition blobInfo (entry : string * R2Object) : BlobInfo :=
  let '(key, obj) := entry in
  mkBlobInfo (secondPart key) (Z.of_nat (length (body obj)))
    (orElse (match customMetadata obj with
             | Some m => md_dropped_at m
             | None => EmptyString
             end) (uploaded obj))
    (orElse (match customMetadata obj with
             | Some m => md_agent_id m
             | None => EmptyString
             end) "unknown").

(** An object as a [list] call without [include] describes it. *)
Definition listed (obj : R2Object) : R2Object :=
  if listWithMetadata then obj else mkObject (body obj) None (uploaded obj).

(** Keys in ascending order, code unit by code unit. *)
Fixpoint insertKey (e : string * R2Object) (l : list (string * R2Object))
    : list (string * R2Object) :=
  match l with
  | [] => [e]
  | y :: l' => if String.leb (fst e) (fst y) then e :: l else y :: insertKey e l'
  end.

Definition sortKeys (l : list (string * R2Object)) : list (string * R2Object) :=
  fold_right insertKey [] l.

(** [env.RELAY.list({ prefix })]: the objects under the prefix in the
    order of their keys, the first thousand of them (a page can be
    shorter when it carries metadata; nothing below rests on a full page
    in that case). *)
Definition listPrefix (bucket : Bucket) (pre : string) : list (string * R2Object) :=
  map (fun e => (fst e, listed (snd e)))
    (take 1000
       (sortKeys (List.filter (fun e => String.prefix pre (fst e))
                    (map_to_list bucket)))).

(** [handlePickupList] *)
Definition handlePickupList (bucket : Bucket) (channel : string) : Response * Bucket :=
  if negb (isValidChannel channel) then
    (json (ErrorJson ("Invalid channel: " ++ channel)%string) 400, bucket)
  else
    let blobs := map blobInfo (listPrefix bucket (channel ++ "/")%string) in
    (json (ListJson channel (Z.of_nat (length blobs)) blobs) 200, bucket).

(** [handlePickup] *)
Definition handlePickup (bucket : Bucket) (channel id : string) : Response * Bucket :=
  if negb (isValidChannel channel) then
    (json (ErrorJson ("Invalid channel: " ++ channel)%string) 400, bucket)
  else
    match bucket !! keyOf channel id with
    | None =>
        (json (ErrorJson "Blob not found (already picked up or expired)") 404, bucket)
    | Some obj =>
        (mkResponse 200
           (Stream (body obj)
              (orElse (match customMetadata obj with
                       | Some m => md_agent_id m
                       | None => EmptyString
                       end) "unknown")
              (match customMetadata obj with
               | Some m => md_dropped_at m
               | None => EmptyString
               end)),
         bucket)
    end.

(** [handleConfirm] *)
Definition handleConfirm (bucket : Bucket) (channel id : string) : Response * Bucket :=
  if negb (isValidChannel channel) then
    (json (ErrorJson ("Invalid channel: " ++ channel)%string) 400, bucket)
  else
    let key := keyOf channel id in
    match bucket !! key with
    | None =>
        (json (ErrorJson "Blob not found (already confirmed or expired)") 404, bucket)
    | Some _ => (json (ConfirmJson key) 200, delete key bucket)
    end.

(** The body of [scheduled] for one listed object. *)
Definition sweepObject (cutoff : Z) (bucket : Bucket) (entry : string * R2Object)
    : Bucket :=
  match customMetadata (snd entry) with
  | Some m =>
      if JS.truthy (md_dropped_at m) && (getTime (md_dropped_at m) <? cutoff)
      then delete (fst entry) bucket else bucket
  | None => bucket
  end.

(** [scheduled]: the sweep of blobs older than 24 hours. *)
Definition scheduled (bucket : Bucket) (now : Z) : Bucket :=
  let cutoff := now - 24 * 60 * 60 * 1000 in
  fold_left
    (fun b channel =>
       fold_left (sweepObject cutoff) (listPrefix b (channel ++ "/")%string) b)
    VALID_CHANNELS bucket.

(** The requests that reach a handler, after routing and authentication. *)
Inductive Request :=
| Drop (agentId channel : string) (content : bytes) (uuid now : string)
| PickupList (channel : string)
| Pickup (channel id : string)
| Confirm (channel id : string).

Definition handle (bucket : Bucket) (req : Request) : Response * Bucket :=
  match req with
  | Drop agentId channel content uuid now =>
      handleDrop bucket agentId channel content uuid now
  | PickupList channel => handlePickupList bucket channel
  | Pickup channel id => handlePickup bucket channel id
  | Confirm channel id => handleConfirm bucket channel id
  end.

(** The bucket after a sequence of requests. *)
Definition serve (bucket : Bucket) (reqs : list Request) : Bucket :=
  fold_left (fun b req => snd (handle b req)) reqs bucket.

(** What happens at the dead drop: a request, or a run of the sweep. *)
Inductive Event :=
| Served (req : Request)
| Sweep (now : Z).

Definition step (bucket : Bucket) (ev : Event) : Bucket :=
  match ev with
  | Served req => snd (handle bucket req)
  | Sweep now => scheduled bucket now
  end.

Definition run (bucket : Bucket) (evs : list Event) : Bucket :=
  fold_left step evs bucket.

(** A request that neither confirms the blob [channel/id] nor drops a
    blob under the same identifier. *)
Definition leaves (channel id : string) (req : Request) : Prop :=
  match req with
  | Confirm c i => ~ (c = channel /\ i = id)
  | Drop _ c _ uuid _ => ~ (c = channel /\ uuid = id)
  | _ => True
  end.

(** An event that does not drop a blob under the identifier [channel/id]. *)
Definition noRedrop (channel id : string) (ev : Event) : Prop :=
  match ev with
  | Served (Drop _ c _ uuid _) => ~ (c = channel /\ uuid = id)
  | _ => True
  end.

(* --------------------------------------------------------------------- *)
(** *** Facts about the handlers                                          *)
(* --------------------------------------------------------------------- *)

Lemma validChannel_cases channel :
  isValidChannel channel = true -> channel = "conversations" \/ channel = "mirror".
Proof.
  unfold isValidChannel. cbn [existsb VALID_CHANNELS].
  destruct (String.eqb_spec channel "conversations") as [->|_]; [now left|].
  destruct (String.eqb_spec channel "mirror") as [->|_]; [now right|discriminate].
Qed.

(** For valid channels, the object key determines channel and id. *)
Lemma keyOf_inj c i c' i' :
  isValidChannel c = true -> isValidChannel c' = true ->
  keyOf c i = keyOf c' i' -> c = c' /\ i = i'.
Proof.
  intros [->| ->]%validChannel_cases [->| ->]%validChannel_cases; cbn;
    intros [= ]; subst; auto.
Qed.

Lemma handle_keeps_blob channel id obj bucket req :
  isValidChannel channel = true ->
  leaves channel id req ->
  bucket !! keyOf channel id = Some obj ->
  snd (handle bucket req) !! keyOf channel id = Some obj.
Proof.
  intros Hv Hreq Hobj. destruct req as [a c content uuid now|c|c i|c i]; cbn in *.
  - unfold handleDrop. destruct (isValidChannel c) eqn:Hc; cbn; [|exact Hobj].
    destruct (_ =? 0); [exact Hobj|]. destruct (_ <? _); [exact Hobj|]. cbn.
    rewrite lookup_insert_ne; [exact Hobj|].
    intros E. apply keyOf_inj in E as [-> ->]; auto.
  - unfold handlePickupList. now destruct (isValidChannel c).
  - unfold handlePickup. destruct (isValidChannel c); [|exact Hobj].
    now destruct (bucket !! keyOf c i).
  - unfold handleConfirm. destruct (isValidChannel c) eqn:Hc; cbn; [|exact Hobj].
    destruct (bucket !! keyOf c i); [|exact Hobj]. cbn.
    rewrite lookup_delete_ne; [exact Hobj|].
    intros E. apply keyOf_inj in E as [-> ->]; auto.
Qed.

Lemma serve_keeps_blob channel id obj reqs : forall bucket,
  isValidChannel channel = true ->
  Forall (leaves channel id) reqs ->
  bucket !! keyOf channel id = Some obj ->
  serve bucket reqs !! keyOf channel id = Some obj.
Proof.
  induction reqs as [|req reqs IH]; intros bucket Hv Hreqs Hobj; [exact Hobj|].
  apply Forall_cons in Hreqs as [Hreq Hreqs]. cbn. apply IH; auto.
  now apply handle_keeps_blob.
Qed.

Lemma sweepObject_absent cutoff key entry (bucket : Bucket) :
  bucket !! key = None -> sweepObject cutoff bucket entry !! key = None.
Proof.
  intros Hk. unfold sweepObject. destruct (customMetadata _); [|exact Hk].
  destruct (_ && _); [|exact Hk]. rewrite lookup_delete. now case_decide.
Qed.

Lemma sweepAll_absent cutoff key entries : forall bucket : Bucket,
  bucket !! key = None ->
  fold_left (sweepObject cutoff) entries bucket !! key = None.
Proof.
  induction entries as [|e entries IH]; intros bucket Hk; [exact Hk|].
  cbn. apply IH. now apply sweepObject_absent.
Qed.

Lemma scheduled_absent key now (bucket : Bucket) :
  bucket !! key = None -> scheduled bucket now !! key = None.
Proof.
  intros Hk. unfold scheduled. cbn [fold_left VALID_CHANNELS].
  now do 2 apply sweepAll_absent.
Qed.

Lemma step_absent channel id ev (bucket : Bucket) :
  isValidChannel channel = true ->
  noRedrop channel id ev ->
  bucket !! keyOf channel id = None ->
  step bucket ev !! keyOf channel id = None.
Proof.
  intros Hv Hev Hk. destruct ev as [[a c content uuid now|c|c i|c i]|now]; cbn in *.
  - unfold handleDrop. destruct (isValidChannel c) eqn:Hc; cbn; [|exact Hk].
    destruct (_ =? 0); [exact Hk|]. destruct (_ <? _); [exact Hk|]. cbn.
    rewrite lookup_insert_ne; [exact Hk|].
    intros E. apply keyOf_inj in E as [-> ->]; auto.
  - unfold handlePickupList. now destruct (isValidChannel c).
  - unfold handlePickup. destruct (isValidChannel c); [|exact Hk].
    now destruct (bucket !! keyOf c i).
  - unfold handleConfirm. destruct (isValidChannel c); cbn; [|exact Hk].
    destruct (bucket !! keyOf c i); [|exact Hk]. cbn.
    rewrite lookup_delete. now case_decide.
  - now apply scheduled_absent.
Qed.

Lemma run_absent channel id evs : forall bucket : Bucket,
  isValidChannel channel = true ->
  Forall (noRedrop channel id) evs ->
  bucket !! keyOf channel id = None ->
  run bucket evs !! keyOf channel id = None.
Proof.
  induction evs as [|ev evs IH]; intros bucket Hv Hevs Hk; [exact Hk|].
  apply Forall_cons in Hevs as [Hev Hevs]. cbn. apply IH; auto.
  now apply step_absent.
Qed.

(** C7. For a blob stored under a valid channel: after any sequence of
    requests that neither confirms it nor drops a blob under its
    identifier (other fetches of it included), a fetch answers 200 with
    exactly the stored bytes and leaves the bucket as it is; a confirm
    answers 200, and from then on, whatever requests and sweeps follow,
    as long as no drop is given the same identifier again, every fetch of
    it answers 404. *)
Theorem dead_drop_lifecycle (bucket : Bucket) (channel id : string) (obj : R2Object) :
  isValidChannel channel = true ->
  bucket !! keyOf channel id = Some obj ->
  (forall reqs, Forall (leaves channel id) reqs ->
     exists agent dropped,
       handlePickup (serve bucket reqs) channel id
       = (mkResponse 200 (Stream (body obj) agent dropped), serve bucket reqs)) /\
  status (fst (handleConfirm bucket channel id)) = 200 /\
  (forall evs, Forall (noRedrop channel id) evs ->
     status (fst (handlePickup (run (snd (handleConfirm bucket channel id)) evs)
                    channel id)) = 404).
Proof.
  intros Hv Hobj. split; [|split].
  - intros reqs Hreqs.
    pose proof (serve_keeps_blob channel id obj reqs bucket Hv Hreqs Hobj) as Hk.
    unfold handlePickup. rewrite Hv, Hk. cbn. eauto.
  - unfold handleConfirm. now rewrite Hv, Hobj.
  - intros evs Hevs.
    assert (Hgone : snd (handleConfirm bucket channel id) !! keyOf channel id = None).
    { unfold handleConfirm. rewrite Hv, Hobj. cbn. apply lookup_delete_eq. }
    pose proof (run_absent channel id evs _ Hv Hevs Hgone) as Hk.
    unfold handlePickup. now rewrite Hv, Hk.
Qed.

End Handlers.

(** Scenario S5: ten bytes dropped on [conversations] under the id [X]. *)
Definition tenBytes : bytes := repeat Byte.x2a 10.

Definition droppedBucket : Bucket :=
  snd (handleDrop (fun _ => "10") ∅ "cc-air" "conversations" tenBytes "X"
         "2026-02-10T00:00:00.000Z").

Lemma dead_drop_lifecycle_witness :
  (forall reqs, Forall (leaves "conversations" "X") reqs ->
     exists agent dropped,
       handlePickup (serve (fun _ => "10") false droppedBucket reqs)
         "conversations" "X"
       = (mkResponse 200 (Stream tenBytes agent dropped),
          serve (fun _ => "10") false droppedBucket reqs)) /\
  status (fst (handleConfirm droppedBucket "conversations" "X")) = 200 /\
  (forall evs, Forall (noRedrop "conversations" "X") evs ->
     status (fst (handlePickup
                    (run (fun _ => "10") (fun _ => 0) false
                       (snd (handleConfirm droppedBucket "conversations" "X")) evs)
                    "conversations" "X")) = 404).
Proof.
  apply (dead_drop_lifecycle (fun _ => "10") (fun _ => 0) false droppedBucket
           "conversations" "X"
           (mkObject tenBytes
              (Some (mkMetadata "cc-air" "2026-02-10T00:00:00.000Z" "10"))
              "2026-02-10T00:00:00.000Z")).
  - reflexivity.
  - vm_compute. reflexivity.
Defined.

End Worker.

(* ===================================================================== *)
(** ** The sealed envelope ([crypto.ts])                                  *)
(* ===================================================================== *)

Module Crypto.

Import Encoding.

(** [interface EncryptedPayload]; [v] is whatever number the JSON holds. *)
Record EncryptedPayload := mkPayload {
  v : Z;
  nonce : string;
  ciphertext : string;
  tag : string;
  hmac : string
}.

Section Primitives.

(** [node:crypto]: AES-256-GCM ([None] when the cipher throws: a key or
    nonce of the wrong length, a tag that does not verify), HKDF-SHA-256
    and HMAC-SHA-256. *)
Variable aesGcmSeal : bytes -> bytes -> bytes -> option (bytes * bytes).
Variable aesGcmOpen : bytes -> bytes -> bytes -> bytes -> option bytes.
Variable hkdfSha256 : bytes -> bytes -> bytes -> nat -> bytes.
Variable hmacSha256 : bytes -> bytes -> bytes.

(** [deriveSigningKey] *)
Definition deriveSigningKey (masterKey : bytes) : bytes :=
  hkdfSha256 masterKey [] (utf8 "crystal-relay-sign") 32.

(** The hexadecimal HMAC over [nonce || ciphertext || tag]. *)
Definition signature (masterKey nonceB ciphertextB tagB : bytes) : string :=
  toHex (hmacSha256 (deriveSigningKey masterKey) (nonceB ++ ciphertextB ++ tagB)).

(** [encrypt]; the twelve random bytes are the argument [nonceB]. *)
Definition encrypt (nonceB plaintext masterKey : bytes) : outcome EncryptedPayload :=
  match aesGcmSeal masterKey nonceB plaintext with
  | None => Throws "cipher failed"
  | Some (ciphertextB, tagB) =>
      Returns (mkPayload 1 (toBase64 nonceB) (toBase64 ciphertextB) (toBase64 tagB)
                 (signature masterKey nonceB ciphertextB tagB))
  end.

(** [decrypt] *)
Definition decrypt (payload : EncryptedPayload) (masterKey : bytes) : outcome bytes :=
  if negb (v payload =? 1) then Throws "Unknown payload version"
  else
    let nonceB := fromBase64 (nonce payload) in
    let ciphertextB := fromBase64 (ciphertext payload) in
    let tagB := fromBase64 (tag payload) in
    let expectedHmac := signature masterKey nonceB ciphertextB tagB in
    if negb (String.eqb (hmac payload) expectedHmac) then
      Throws "HMAC verification failed"
    else
      match aesGcmOpen masterKey nonceB ciphertextB tagB with
      | Some plaintext => Returns plaintext
      | None => Throws "decipher failed"
      end.

(** [hashBuffer], over an outside SHA-256. *)
Variable sha256 : bytes -> bytes.

Definition hashBuffer (data : bytes) : string := toHex (sha256 data).

End Primitives.




Definition withTag (p : EncryptedPayload) (t : string) : EncryptedPayload :=
  mkPayload (v p) (nonce p) (ciphertext p) t (hmac p).

(** What is asked of AES-256-GCM: with a 32-byte key and a 12-byte nonce it
    seals, and it opens what it sealed. *)
Definition sealsAndOpens
    (aesGcmSeal : bytes -> bytes -> bytes -> option (bytes * bytes))
    (aesGcmOpen : bytes -> bytes -> bytes -> bytes -> option bytes) : Prop :=
  (forall k n m, length k = 32%nat -> length n = 12%nat ->
     exists c t, aesGcmSeal k n m = Some (c, t)) /\
  (forall k n m c t, aesGcmSeal k n m = Some (c, t) -> aesGcmOpen k n c t = Some m).





(* --------------------------------------------------------------------- *)
(** *** Facts about the envelope                                          *)
(* --------------------------------------------------------------------- *)



(** [decrypt] reads the three encoded fields through their decoding only. *)
Lemma decrypt_decoded_only aesGcmOpen hkdfSha256 hmacSha256 p p' k :
  v p' = v p -> hmac p' = hmac p ->
  fromBase64 (nonce p') = fromBase64 (nonce p) ->
  fromBase64 (ciphertext p') = fromBase64 (ciphertext p) ->
  fromBase64 (tag p') = fromBase64 (tag p) ->
  decrypt aesGcmOpen hkdfSha256 hmacSha256 p' k
  = decrypt aesGcmOpen hkdfSha256 hmacSha256 p k.
Proof.
  intros Hv Hh Hn Hc Ht. unfold decrypt. now rewrite Hv, Hh, Hn, Hc, Ht.
Qed.






(** *** A concrete run *)

(** Stand-ins for [node:crypto], to run the model: a cipher that copies the
    plaintext and tags it with sixteen zero bytes, a key derivation that
    returns the key, a MAC that lists key and data, and one that lists
    them behind the length of the key (so that key and data can be read
    back). They seal and open as asked in [sealsAndOpens], and the last
    one has no collisions; nothing is claimed of their secrecy. *)
Definition zeroTag : bytes := repeat Byte.x00 16.

Definition copySeal (k n m : bytes) : option (bytes * bytes) :=
  if ((length k =? 32) && (length n =? 12))%nat then Some (m, zeroTag) else None.

Definition copyOpen (k n c t : bytes) : option bytes :=
  if ((length k =? 32) && (length n =? 12))%nat
     && bool_decide (t = zeroTag)
  then Some c else None.

Definition keyAsSigningKey (k _ _ : bytes) (_ : nat) : bytes := k.

Definition listMac (k data : bytes) : bytes := k ++ data.


Lemma copy_sealsAndOpens : sealsAndOpens copySeal copyOpen.
Proof.
  split.
  - intros k n m Hk Hn. unfold copySeal. rewrite Hk, Hn. cbn. eauto.
  - intros k n m c t. unfold copySeal, copyOpen.
    destruct (_ && _); [|discriminate]. intros [= <- <-]. cbn.
    now rewrite bool_decide_eq_true_2.
Qed.




Definition demoKey : bytes := repeat Byte.x6b 32.
Definition demoNonce : bytes := repeat Byte.x01 12.




(** The second flip, for every cipher, key derivation, MAC and payload:
    turning the first padding [=] of the tag into [<] does not change what
    [decrypt] does. *)
Lemma sextets_padding_flip pre :
  sextets (pre ++ "<=")%string = sextets (pre ++ "==")%string.
Proof.
  induction pre as [|c pre IH]; [reflexivity|].
  change (sextets (String c (pre ++ "<=")) = sextets (String c (pre ++ "==")))%string.
  cbn [sextets]. destruct (Ascii.eqb c "="); [reflexivity|].
  destruct (sextetOf c); now rewrite IH.
Qed.

Lemma tag_padding_flip_ignored aesGcmOpen hkdfSha256 hmacSha256 p k pre :
  tag p = (pre ++ "==")%string ->
  decrypt aesGcmOpen hkdfSha256 hmacSha256 (withTag p (pre ++ "<=")%string) k
  = decrypt aesGcmOpen hkdfSha256 hmacSha256 p k.
Proof.
  intros Ht. apply decrypt_decoded_only; try reflexivity.
  cbn [withTag tag]. rewrite Ht. unfold fromBase64. f_equal.
  apply sextets_padding_flip.
Qed.

(** Every 16-byte tag is encoded with this padding. *)
Lemma toBase64_tag_padding (t : bytes) :
  length t = 16%nat ->
  exists pre, toBase64 t = (pre ++ "==")%string /\ String.length pre = 22%nat.
Proof.
  intros Hlen.
  do 16 (destruct t as [|? t]; [discriminate Hlen|]).
  destruct t; [|discriminate Hlen].
  cbn [toBase64].
  match goal with
  | |- exists pre, String ?c1 (String ?c2 (String ?c3 (String ?c4 (String ?c5
         (String ?c6 (String ?c7 (String ?c8 (String ?c9 (String ?c10
         (String ?c11 (String ?c12 (String ?c13 (String ?c14 (String ?c15
         (String ?c16 (String ?c17 (String ?c18 (String ?c19 (String ?c20
         (String ?c21 (String ?c22 _))))))))))))))))))))) = _ /\ _ =>
      exists (String c1 (String c2 (String c3 (String c4 (String c5
         (String c6 (String c7 (String c8 (String c9 (String c10
         (String c11 (String c12 (String c13 (String c14 (String c15
         (String c16 (String c17 (String c18 (String c19 (String c20
         (String c21 (String c22 EmptyString))))))))))))))))))))))
  end.
  split; reflexivity.
Qed.

End Crypto.

(* ===================================================================== *)
(** ** The device-side mirror pull ([mirror-sync.ts])                     *)
(* ===================================================================== *)

Module Mirror.

Import Encoding Crypto.

(** [interface MirrorState] *)
Record MirrorState := mkMirrorState {
  lastSync : option string;
  lastHash : option string;
  lastSize : option Z
}.

(** The decrypted metadata of a snapshot. *)
Record Meta := mkMeta {
  hash : string;
  size : Z;
  pushed_at : string
}.

(** The local files, by path. *)
Abbreviation Disk := (gmap string bytes).

Definition noState : MirrorState := mkMirrorState None None None.

(** [resp.ok] *)
Definition ok (resp : Worker.Response) : bool :=
  (200 <=? Worker.status resp) && (Worker.status resp <=? 299).

Section Pull.

(** The environment of the process, the paths, the cryptography, JSON and
    the relay at the other end of [fetch] ([Throws] when the request
    itself fails). *)
Variable RELAY_URL RELAY_TOKEN : string.
Variable KEY_PATH MIRROR_DB_PATH MIRROR_STATE_PATH : string.
Variable aesGcmOpen : bytes -> bytes -> bytes -> bytes -> option bytes.
Variable hkdfSha256 : bytes -> bytes -> bytes -> nat -> bytes.
Variable hmacSha256 : bytes -> bytes -> bytes.
Variable sha256 : bytes -> bytes.
Variable parseState : bytes -> option MirrorState.
Variable stringifyState : MirrorState -> bytes.
Variable parseMirrorPayload : bytes -> option (EncryptedPayload * EncryptedPayload).
Variable parseMeta : bytes -> option Meta.
Variable Relay : Type.
Variable getList : Relay -> string -> outcome Worker.Response.
Variable getBlob : Relay -> string -> string -> outcome Worker.Response.
Variable deleteBlob : Relay -> string -> string -> Relay.

(** The relay and the local files. *)
Record World := mkWorld {
  relay : Relay;
  disk : Disk
}.

(** [loadRelayKey] *)
Definition loadRelayKey (d : Disk) : outcome bytes :=
  match d !! KEY_PATH with
  | None => Throws "Relay key not found"
  | Some raw =>
      let key := fromBase64 (JS.trim (string_of_list_byte raw)) in
      if (length key =? 32)%nat then Returns key
      else Throws "Relay key must be 32 bytes (256 bits)"
  end.

(** [loadState]: a missing or unreadable file gives the initial state. *)
Definition loadState (d : Disk) : MirrorState :=
  match d !! MIRROR_STATE_PATH with
  | Some raw =>
      match parseState raw with
      | Some st => st
      | None => noState
      end
  | None => noState
  end.

(** [saveState] *)
Definition saveState (st : MirrorState) (d : Disk) : Disk :=
  <[MIRROR_STATE_PATH := stringifyState st]> d.

(** [decryptJSON] for the metadata. *)
Definition decryptMeta (payload : EncryptedPayload) (key : bytes) : outcome Meta :=
  match decrypt aesGcmOpen hkdfSha256 hmacSha256 payload key with
  | Throws msg => Throws msg
  | Returns plaintext =>
      match parseMeta plaintext with
      | Some meta => Returns meta
      | None => Throws "JSON.parse failed"
      end
  end.

(** What the pull holds once the metadata is decrypted. *)
Record Fetched := mkFetched {
  relayKey : bytes;
  blobs : list Worker.BlobInfo;
  meta : Meta;
  dbPayload : EncryptedPayload
}.

(** Lines 153-191 of [pullMirror]: key, list, fetch of the latest blob,
    metadata. [Returns None] is the early [return false] of an empty
    channel. Nothing is written. *)
Definition fetchLatest (w : World) : outcome (option Fetched) :=
  if negb (JS.truthy RELAY_URL) || negb (JS.truthy RELAY_TOKEN) then
    Throws "CRYSTAL_RELAY_URL and CRYSTAL_RELAY_TOKEN must be set"
  else
    match loadRelayKey (disk w) with
    | Throws msg => Throws msg
    | Returns key =>
        match getList (relay w) RELAY_TOKEN with
        | Throws msg => Throws msg
        | Returns listResp =>
            if negb (ok listResp) then Throws "Relay list failed"
            else
              match Worker.payload listResp with
              | Worker.ListJson _ count listed =>
                  if count =? 0 then Returns None
                  else
                    match last listed with
                    | None => Throws "TypeError"
                    | Some latestBlob =>
                        match getBlob (relay w) RELAY_TOKEN (Worker.b_id latestBlob) with
                        | Throws msg => Throws msg
                        | Returns blobResp =>
                            if negb (ok blobResp) then Throws "Mirror fetch failed"
                            else
                              match Worker.payload blobResp with
                              | Worker.Stream content _ _ =>
                                  match parseMirrorPayload content with
                                  | None => Throws "JSON.parse failed"
                                  | Some (metaPayload, dbP) =>
                                      match decryptMeta metaPayload key with
                                      | Throws msg => Throws msg
                                      | Returns m =>
                                          Returns (Some (mkFetched key listed m dbP))
                                      end
                                  end
                              | _ => Throws "JSON.parse failed"
                              end
                        end
                    end
              | _ => Throws "TypeError"
              end
        end
    end.

(** Lines 214-225: write the temporary file, move an existing mirror to
    the backup, move the temporary file in place. *)
Definition replaceMirror (dbData : bytes) (d : Disk) : Disk :=
  let tmpPath := (MIRROR_DB_PATH ++ ".tmp")%string in
  let backupPath := (MIRROR_DB_PATH ++ ".bak")%string in
  let d1 := <[tmpPath := dbData]> d in
  let d2 :=
    match d1 !! MIRROR_DB_PATH with
    | Some old => <[backupPath := old]> (delete MIRROR_DB_PATH d1)
    | None => d1
    end in
  match d2 !! tmpPath with
  | Some content => <[MIRROR_DB_PATH := content]> (delete tmpPath d2)
  | None => d2
  end.

(** Lines 239-246: the best-effort confirms. *)
Definition confirmAll (listed : list Worker.BlobInfo) (r : Relay) : Relay :=
  fold_left (fun r' blob => deleteBlob r' RELAY_TOKEN (Worker.b_id blob)) listed r.

(** [pullMirror]; [now] is the clock. *)
Definition pullMirror (force : bool) (now : string) (w : World)
    : outcome bool * World :=
  match fetchLatest w with
  | Throws msg => (Throws msg, w)
  | Returns None => (Returns false, w)
  | Returns (Some f) =>
      let state := loadState (disk w) in
      if negb force && bool_decide (lastHash state = Some (hash (meta f)))
      then (Returns false, w)
      else
        match decrypt aesGcmOpen hkdfSha256 hmacSha256 (dbPayload f) (relayKey f) with
        | Throws msg => (Throws msg, w)
        | Returns dbData =>
            let actualHash := hashBuffer sha256 dbData in
            if negb (String.eqb actualHash (hash (meta f))) then
              (Throws "Mirror integrity check failed", w)
            else
              let d1 := replaceMirror dbData (disk w) in
              let state' :=
                mkMirrorState (Some now) (Some (hash (meta f)))
                  (Some (Z.of_nat (length dbData))) in
              let d2 := saveState state' d1 in
              (Returns true, mkWorld (confirmAll (blobs f) (relay w)) d2)
        end
  end.

(* --------------------------------------------------------------------- *)
(** *** Facts about the pull                                              *)
(* --------------------------------------------------------------------- *)

Lemma length_append (a b : string) :
  String.length (a ++ b)%string = (String.length a + String.length b)%nat.
Proof.
  induction a as [|c a IH]; [reflexivity|].
  change (S (String.length (a ++ b)%string) = S (String.length a + String.length b)).
  now rewrite IH.
Qed.

(** A pull that throws, or that returns false, has written nothing and has
    confirmed nothing. *)
Lemma pullMirror_no_write force now w res w' :
  pullMirror force now w = (res, w') -> res <> Returns true -> w' = w.
Proof.
  unfold pullMirror. destruct (fetchLatest w) as [[f|]|msg]; try now intros [= <- <-].
  destruct (_ && _); [now intros [= <- <-]|].
  destruct (decrypt _ _ _ _ _) as [dbData|msg]; [|now intros [= <- <-]].
  destruct (negb _); [now intros [= <- <-]|].
  intros [= <- <-] H. now destruct H.
Qed.

(** C3. When a pull has fetched and decrypted the metadata and the
    snapshot decrypts to bytes whose SHA-256 differs from [meta.hash], the
    world after the pull is the world before it: the mirror file, the
    state file (hence the cached last hash, size and sync time) and every
    other local file are unchanged, and no blob has been confirmed; the
    pull does not report an update; and whenever it gets to decrypt the
    snapshot (it is forced, or the cached last hash differs from
    [meta.hash]) it throws the integrity error. *)
Theorem pullMirror_integrity_gate force now (w : World) (f : Fetched) (dbData : bytes) :
  fetchLatest w = Returns (Some f) ->
  decrypt aesGcmOpen hkdfSha256 hmacSha256 (dbPayload f) (relayKey f) = Returns dbData ->
  hashBuffer sha256 dbData <> hash (meta f) ->
  let res := fst (pullMirror force now w) in
  let w' := snd (pullMirror force now w) in
  w' = w /\
  disk w' !! MIRROR_DB_PATH = disk w !! MIRROR_DB_PATH /\
  disk w' !! MIRROR_STATE_PATH = disk w !! MIRROR_STATE_PATH /\
  loadState (disk w') = loadState (disk w) /\
  res <> Returns true /\
  (force = true \/ lastHash (loadState (disk w)) <> Some (hash (meta f)) ->
   res = Throws "Mirror integrity check failed").
Proof.
  intros Hfetch Hdb Hhash. cbn zeta.
  assert (Hpull : pullMirror force now w = (Returns false, w) \/
                  pullMirror force now w = (Throws "Mirror integrity check failed", w)).
  { unfold pullMirror. rewrite Hfetch. destruct (_ && _); [now left|].
    rewrite Hdb.
    destruct (String.eqb_spec (hashBuffer sha256 dbData) (hash (meta f)));
      [contradiction|now right]. }
  assert (Hgate : force = true \/ lastHash (loadState (disk w)) <> Some (hash (meta f)) ->
                  pullMirror force now w = (Throws "Mirror integrity check failed", w)).
  { intros Hgo. unfold pullMirror. rewrite Hfetch.
    assert (Hskip : negb force
                    && bool_decide (lastHash (loadState (disk w)) = Some (hash (meta f)))
                    = false).
    { destruct Hgo as [->|Hne]; [reflexivity|].
      rewrite bool_decide_eq_false_2 by exact Hne. now destruct force. }
    rewrite Hskip, Hdb.
    now destruct (String.eqb_spec (hashBuffer sha256 dbData) (hash (meta f))). }
  assert (Hw : snd (pullMirror force now w) = w) by (destruct Hpull as [-> | ->]; reflexivity).
  rewrite Hw. repeat split.
  - destruct Hpull as [-> | ->]; discriminate.
  - intros Hgo. now rewrite (Hgate Hgo).
Qed.

(** When the hashes agree the mirror file is replaced by the snapshot and
    the state file records its hash and size. *)
Lemma pullMirror_replaces force now (w : World) (f : Fetched) (dbData : bytes) :
  fetchLatest w = Returns (Some f) ->
  force = true \/ lastHash (loadState (disk w)) <> Some (hash (meta f)) ->
  decrypt aesGcmOpen hkdfSha256 hmacSha256 (dbPayload f) (relayKey f) = Returns dbData ->
  hashBuffer sha256 dbData = hash (meta f) ->
  MIRROR_STATE_PATH <> MIRROR_DB_PATH ->
  exists w',
    pullMirror force now w = (Returns true, w') /\
    disk w' !! MIRROR_DB_PATH = Some dbData /\
    disk w' !! MIRROR_STATE_PATH
    = Some (stringifyState
              (mkMirrorState (Some now) (Some (hash (meta f)))
                 (Some (Z.of_nat (length dbData))))).
Proof.
  intros Hfetch Hgo Hdb Hhash Hpaths. unfold pullMirror. rewrite Hfetch.
  assert (Hskip : negb force
                  && bool_decide (lastHash (loadState (disk w)) = Some (hash (meta f)))
                  = false).
  { destruct Hgo as [->|Hne]; [reflexivity|].
    rewrite bool_decide_eq_false_2 by exact Hne. now destruct force. }
  rewrite Hskip, Hdb, Hhash, String.eqb_refl. cbn [negb].
  eexists. split; [reflexivity|]. cbn [disk]. unfold saveState.
  split; [|apply lookup_insert_eq].
  rewrite lookup_insert_ne by exact Hpaths.
  unfold replaceMirror. cbn zeta.
  set (tmp := (MIRROR_DB_PATH ++ ".tmp")%string).
  set (bak := (MIRROR_DB_PATH ++ ".bak")%string).
  assert (Htmp : tmp <> MIRROR_DB_PATH).
  { subst tmp. intros E. apply (f_equal String.length) in E.
    rewrite length_append in E. cbn in E. lia. }
  assert (Hbak : bak <> tmp).
  { subst bak tmp. intros E. apply (inj (String.append _)) in E. discriminate. }
  destruct (<[tmp := dbData]> (disk w) !! MIRROR_DB_PATH) as [old|] eqn:Hold.
  - rewrite lookup_insert_ne by exact Hbak.
    rewrite lookup_delete_ne by (intros E; now apply Htmp).
    rewrite lookup_insert_eq. apply lookup_insert_eq.
  - rewrite lookup_insert_eq. apply lookup_insert_eq.
Qed.

End Pull.

(** *** A concrete run: the dead drop of [worker.ts] as the relay *)

Definition viaWorker_list (listWithMetadata : bool) (b : Worker.Bucket) (_ : string)
    : outcome Worker.Response :=
  Returns (fst (Worker.handlePickupList listWithMetadata b "mirror")).

Definition viaWorker_get (b : Worker.Bucket) (_ id : string) : outcome Worker.Response :=
  Returns (fst (Worker.handlePickup b "mirror" id)).

Definition viaWorker_delete (b : Worker.Bucket) (_ id : string) : Worker.Bucket :=
  snd (Worker.handleConfirm b "mirror" id).

Definition sealedWith (plaintext : bytes) : EncryptedPayload :=
  match encrypt copySeal keyAsSigningKey listMac demoNonce plaintext demoKey with
  | Returns p => p
  | Throws _ => mkPayload 0 "" "" "" ""
  end.

(** Stand-ins for JSON: a snapshot whose metadata announce the hash [H1]
    and whose database bytes are others. *)
Definition announced : Meta := mkMeta "H1" 9 "2026-02-10T00:00:00.000Z".

Definition demoParsePayload (_ : bytes) : option (EncryptedPayload * EncryptedPayload) :=
  Some (sealedWith (utf8 "meta"), sealedWith (utf8 "other db")).

Definition demoParseMeta (_ : bytes) : option Meta := Some announced.

Definition demoParseState (_ : bytes) : option MirrorState :=
  Some (mkMirrorState (Some "2026-02-01T00:00:00.000Z") (Some "H0") (Some 10)).

Definition demoStringify (_ : MirrorState) : bytes := utf8 "state".

(** A device with a key, a mirror and its state file, and a relay that
    holds one snapshot. *)
Definition demoWorld : World Worker.Bucket :=
  mkWorld Worker.Bucket
    (snd (Worker.handleDrop (fun _ => "8") ∅ "cc-mini" "mirror" (utf8 "snapshot")
            "X" "2026-02-10T00:00:00.000Z"))
    (<["/key" := utf8 (toBase64 demoKey)]>
       (<["/crystal.db" := utf8 "old mirror"]>
          (<["/state.json" := utf8 "old state"]> ∅))).

Definition demoFetched : Fetched :=
  mkFetched demoKey
    [Worker.mkBlobInfo "X" 8 "2026-02-10T00:00:00.000Z" "unknown"]
    announced (sealedWith (utf8 "other db")).

Lemma pullMirror_integrity_gate_witness :
  pullMirror "https://relay.example" "token" "/key" "/crystal.db" "/state.json"
    copyOpen keyAsSigningKey listMac (fun d => d) demoParseState demoStringify
    demoParsePayload demoParseMeta Worker.Bucket (viaWorker_list false) viaWorker_get
    viaWorker_delete false "2026-02-16T00:00:00.000Z" demoWorld
  = (Throws "Mirror integrity check failed", demoWorld).
Proof.
  pose proof (pullMirror_integrity_gate "https://relay.example" "token" "/key"
           "/crystal.db" "/state.json" copyOpen keyAsSigningKey listMac
           (fun d => d) demoParseState demoStringify demoParsePayload
           demoParseMeta Worker.Bucket (viaWorker_list false) viaWorker_get
           viaWorker_delete false "2026-02-16T00:00:00.000Z" demoWorld
           demoFetched (utf8 "other db")) as H.
  cbn zeta in H.
  destruct H as (Hw & _ & _ & _ & _ & Hthrow).
  - vm_compute. reflexivity.
  - vm_compute. reflexivity.
  - vm_compute. discriminate.
  - rewrite (surjective_pairing (pullMirror _ _ _ _ _ _ _ _ _ _ _ _ _ _ _ _ _ _ _ _)).
    rewrite Hw, Hthrow; [reflexivity|].
    right. vm_compute. discriminate.
Defined.

End Mirror.

(* ===================================================================== *)
(** ** More about the chunkers ([core.ts])                                *)
(* ===================================================================== *)

Module ChunkerFacts.

Import Chunker.

(** *** String facts *)

Lemma substring_length_le s : forall n m,
  (String.length (substring n m s) <= m)%nat.
Proof.
  induction s as [|c s IH]; intros [|n] [|m]; cbn; try lia.
  - specialize (IH 0%nat m). lia.
  - apply (IH n 0%nat).
  - apply (IH n (S m)).
Qed.

Lemma substring_whole s : substring 0 (String.length s) s = s.
Proof. induction s as [|c s IH]; cbn; [reflexivity|now rewrite IH]. Qed.

Lemma slice_len_le s a b : JS.len (JS.slice s a b)
  <= Z.max (JS.relIndex (JS.len s) b - JS.relIndex (JS.len s) a) 0.
Proof.
  unfold JS.slice, JS.len at 1.
  pose proof (substring_length_le s
    (Z.to_nat (JS.relIndex (JS.len s) a))
    (Z.to_nat (Z.max (JS.relIndex (JS.len s) b - JS.relIndex (JS.len s) a) 0))).
  lia.
Qed.

Lemma slice_whole s : JS.slice s 0 (JS.len s) = s.
Proof.
  unfold JS.slice, JS.relIndex, JS.len.
  destruct (Z.ltb_spec (Z.of_nat (String.length s)) 0); [lia|].
  change (0 <? 0) with false. cbv zeta.
  rewrite Z.min_id, Z.min_l by lia.
  replace (Z.to_nat (Z.max (Z.of_nat (String.length s) - 0) 0))
    with (String.length s) by lia.
  apply substring_whole.
Qed.

Lemma trimStart_length_le s : (String.length (JS.trimStart s) <= String.length s)%nat.
Proof.
  induction s as [|c s IH]; cbn; [lia|]. destruct (JS.isWhite c); cbn; lia.
Qed.

Lemma trimEnd_length_le s : (String.length (JS.trimEnd s) <= String.length s)%nat.
Proof.
  induction s as [|c s IH]; cbn; [lia|].
  destruct (JS.trimEnd s); [destruct (JS.isWhite c)|]; cbn in *; lia.
Qed.

Lemma trim_len_le s : JS.len (JS.trim s) <= JS.len s.
Proof.
  unfold JS.trim, JS.len.
  pose proof (trimEnd_length_le (JS.trimStart s)).
  pose proof (trimStart_length_le s). lia.
Qed.

(** A string that is empty or begins with a character that is not white. *)
Definition blackHead (s : string) : Prop :=
  match s with
  | EmptyString => True
  | String c _ => JS.isWhite c = false
  end.

Lemma trimStart_blackHead s : blackHead (JS.trimStart s).
Proof.
  induction s as [|c s IH]; cbn; [exact I|].
  destruct (JS.isWhite c) eqn:Hc; [exact IH|exact Hc].
Qed.

Lemma trimStart_fixed s : blackHead s -> JS.trimStart s = s.
Proof. destruct s as [|c s]; cbn; [reflexivity|]. now intros ->. Qed.

Lemma trimEnd_blackHead s : blackHead s -> blackHead (JS.trimEnd s).
Proof.
  destruct s as [|c s]; cbn; [easy|]. intros Hc.
  destruct (JS.trimEnd s); [now rewrite Hc|exact Hc].
Qed.

Lemma trimEnd_idem s : JS.trimEnd (JS.trimEnd s) = JS.trimEnd s.
Proof.
  induction s as [|c s IH]; cbn; [reflexivity|].
  destruct (JS.trimEnd s) as [|d t] eqn:Ht.
  - destruct (JS.isWhite c) eqn:Hc; cbn; [reflexivity|now rewrite Hc].
  - change (match JS.trimEnd (String d t) with
            | EmptyString => if JS.isWhite c then EmptyString else String c EmptyString
            | String a b => String c (String a b)
            end = String c (String d t)).
    now rewrite IH.
Qed.

(** [trim] removes all there is to remove. *)
Lemma trim_idem s : JS.trim (JS.trim s) = JS.trim s.
Proof.
  unfold JS.trim.
  rewrite (trimStart_fixed (JS.trimEnd (JS.trimStart s))).
  - apply trimEnd_idem.
  - apply trimEnd_blackHead, trimStart_blackHead.
Qed.

Lemma lastIndexFrom_range s pat i :
  -1 <= JS.lastIndexFrom s pat i <= Z.of_nat i.
Proof.
  induction i as [|i IH]; cbn [JS.lastIndexFrom];
    destruct (JS.occursAt s pat _); lia.
Qed.

(** [lastIndexOf] answers -1 or an index that is at most the position
    (and at most 0 when the position is negative). *)
Lemma lastIndexOf_range s pat pos :
  -1 <= JS.lastIndexOf s pat pos <= Z.max pos 0.
Proof.
  unfold JS.lastIndexOf.
  destruct (Z.ltb_spec (Z.min (Z.max pos 0) (JS.len s - JS.len pat)) 0); [lia|].
  pose proof (lastIndexFrom_range s pat
                (Z.to_nat (Z.min (Z.max pos 0) (JS.len s - JS.len pat)))).
  lia.
Qed.

(** *** The shape of the chunks of [Crystal.chunkText] *)

(** With a positive target and a start not below [-targetChars], the
    window ends at -1 or later, and at most one character after
    [min(start + targetChars, text.length)] (a sentence break found right
    at the position moves the end one past it). *)
Lemma windowEnd_range text T s :
  0 < T -> - T <= s ->
  -1 <= windowEnd text T s <= Z.min (s + T) (JS.len text) + 1 /\
  (0 <= s -> 0 <= windowEnd text T s).
Proof.
  intros HT Hs. unfold windowEnd.
  assert (0 <= JS.len text) by (unfold JS.len; lia).
  assert (0 <= T / 2) by (apply Z.div_pos; lia).
  set (end0 := Z.min (s + T) (JS.len text)).
  pose proof (lastIndexOf_range text JS.paragraphBreak end0).
  pose proof (lastIndexOf_range text JS.sentenceBreak end0).
  destruct (end0 <? JS.len text); [|lia].
  destruct (Z.ltb_spec (s + T / 2) (JS.lastIndexOf text JS.paragraphBreak end0)); [lia|].
  destruct (Z.ltb_spec (s + T / 2) (JS.lastIndexOf text JS.sentenceBreak end0)); lia.
Qed.

(** What holds of every chunk: it is not empty, it has at most
    [targetChars + 1] characters, and it is trimmed. *)
Definition wellShaped (T : Z) (c : string) : Prop :=
  0 < JS.len c <= T + 1 /\ JS.trim c = c.

Lemma window_chunk_len text T s :
  0 < T -> - T <= s -> s < JS.len text ->
  JS.len (JS.trim (JS.slice text s (windowEnd text T s))) <= T + 1.
Proof.
  intros HT Hs Hlt.
  destruct (windowEnd_range text T s HT Hs) as [[He1 He2] He3].
  pose proof (trim_len_le (JS.slice text s (windowEnd text T s))).
  pose proof (slice_len_le text s (windowEnd text T s)) as Hsl.
  assert (0 <= JS.len text) by (unfold JS.len; lia).
  revert Hsl. unfold JS.relIndex.
  destruct (Z.ltb_spec (windowEnd text T s) 0), (Z.ltb_spec s 0); lia.
Qed.

Lemma nextStart_floor T O cs e : 0 < T -> -1 <= e -> - T <= nextStart T O cs e.
Proof.
  intros HT He. unfold nextStart.
  destruct (Z.leb_spec (e - O) (if 0 <? Z.of_nat (length cs) then e - T else 0));
    [lia|].
  destruct (0 <? Z.of_nat (length cs)); lia.
Qed.

Lemma body_shape text T O st :
  0 < T -> - T <= start st -> start st < JS.len text ->
  Forall (wellShaped T) (chunks st) ->
  match body text T O st with
  | Break out => Forall (wellShaped T) out
  | Again st' => - T <= start st' /\ Forall (wellShaped T) (chunks st')
  end.
Proof.
  intros HT Hs Hlt Hcs. unfold body.
  set (e := windowEnd text T (start st)).
  set (chunk := JS.trim (JS.slice text (start st) e)).
  assert (Hout : Forall (wellShaped T)
            (if 0 <? JS.len chunk then chunks st ++ [chunk] else chunks st)).
  { destruct (Z.ltb_spec 0 (JS.len chunk)); [|exact Hcs].
    apply Forall_app. split; [exact Hcs|]. constructor; [|constructor].
    split; [|apply trim_idem].
    pose proof (window_chunk_len text T (start st) HT Hs Hlt). fold e chunk in H0. lia. }
  destruct (JS.len text <=? e); [exact Hout|].
  cbn [start chunks]. split; [|exact Hout].
  apply nextStart_floor; [exact HT|].
  destruct (windowEnd_range text T (start st) HT Hs) as [[He _] _]. exact He.
Qed.

Lemma loop_shape text T O : 0 < T ->
  forall fuel st out,
    - T <= start st -> Forall (wellShaped T) (chunks st) ->
    loop fuel text T O st = Some out -> Forall (wellShaped T) out.
Proof.
  intros HT. induction fuel as [|fuel IH]; intros st out Hs Hcs; [discriminate|].
  cbn [loop]. destruct (Z.ltb_spec (start st) (JS.len text)) as [Hlt|Hge].
  - pose proof (body_shape text T O st HT Hs Hlt Hcs) as Hb.
    destruct (body text T O st) as [o|st']; [now intros [= <-]|].
    destruct Hb. now apply IH.
  - now intros [= <-].
Qed.

(** X1. Whenever [chunkText] returns, with a positive target and any overlap,
    every chunk is non-empty, carries no white space at either end, and
    has at most [4 * targetTokens + 1] characters. *)
Theorem chunkText_chunks_wellShaped fuel text targetTokens overlapTokens out :
  0 < targetTokens ->
  chunkText fuel text targetTokens overlapTokens = Some out ->
  Forall (fun c => 0 < JS.len c <= 4 * targetTokens + 1 /\ JS.trim c = c) out.
Proof.
  intros Ht Hrun. unfold chunkText in Hrun.
  apply loop_shape in Hrun; cbn [start chunks]; try lia; [|constructor].
  revert Hrun. apply List.Forall_impl. intros c [Hlen Htrim]. split; [lia|exact Htrim].
Qed.

(** X2. A text of at most [4 * targetTokens] characters comes back as one
    chunk, trimmed, or as no chunk when it is blank; one pass is enough. *)
Theorem chunkText_short_text fuel text targetTokens overlapTokens :
  JS.len text <= 4 * targetTokens ->
  chunkText (S fuel) text targetTokens overlapTokens
  = Some (if 0 <? JS.len (JS.trim text) then [JS.trim text] else []).
Proof.
  intros Hshort. unfold chunkText. cbn [loop start].
  destruct (Z.ltb_spec 0 (JS.len text)) as [Hpos|Hzero].
  - unfold body. cbn [start chunks].
    assert (He : windowEnd text (targetTokens * 4) 0 = JS.len text).
    { unfold windowEnd.
      destruct (Z.ltb_spec (Z.min (0 + targetTokens * 4) (JS.len text)) (JS.len text));
        lia. }
    rewrite He, Z.leb_refl, slice_whole.
    now destruct (0 <? JS.len (JS.trim text)).
  - assert (text = EmptyString) as ->.
    { destruct text; [reflexivity|]. unfold JS.len in Hzero. cbn in Hzero. lia. }
    reflexivity.
Qed.

(** X3. The chunker returns whenever the overlap is at most half the target,
    within [text.length + 1] passes, with chunks of the shape above. *)
Theorem chunkText_returns_small_overlap text targetTokens overlapTokens :
  0 < targetTokens -> 0 <= overlapTokens -> 2 * overlapTokens <= targetTokens ->
  exists out,
    chunkText (S (String.length text)) text targetTokens overlapTokens = Some out /\
    Forall (fun c => 0 < JS.len c <= 4 * targetTokens + 1) out.
Proof.
  intros Ht Ho Hto.
  assert (Hrun : exists out,
    loop (S (String.length text)) text (targetTokens * 4) (overlapTokens * 4)
      (LoopState 0 []) = Some out).
  { apply loop_terminates; cbn [start]; unfold JS.len; try lia.
    apply Z.div_le_lower_bound; lia. }
  destruct Hrun as [out Hout]. exists out. split; [exact Hout|].
  apply loop_shape in Hout; cbn [start chunks]; try lia; [|constructor].
  revert Hout. apply List.Forall_impl. intros c [Hlen _]. lia.
Qed.

(** A text cut with a target of 2 tokens: the first chunk has 9
    characters, one more than the 8 of the window. *)
Definition sentences : string := "One. Two. Three. Four. Five is longer.".

Lemma chunkText_chunks_wellShaped_witness :
  Forall (fun c => 0 < JS.len c <= 4 * 2 + 1 /\ JS.trim c = c)
    ["One. Two."; "Three."; "Four."; "Five is"; "longer."].
Proof.
  apply (chunkText_chunks_wellShaped 10 sentences 2 0); [lia|].
  vm_compute. reflexivity.
Defined.

Lemma chunkText_short_text_witness :
  chunkText 1 "   hi there  " 400 80 = Some ["hi there"].
Proof.
  apply (chunkText_short_text 0 "   hi there  " 400 80). vm_compute. discriminate.
Defined.

Lemma chunkText_returns_small_overlap_witness :
  exists out,
    chunkText (S (String.length sentences)) sentences 2 1 = Some out /\
    Forall (fun c => 0 < JS.len c <= 4 * 2 + 1) out.
Proof. apply (chunkText_returns_small_overlap sentences 2 1); lia. Defined.

End ChunkerFacts.

(* ===================================================================== *)
(** ** The chunker of remote mode ([core.ts], RemoteCrystal.chunkText)    *)
(* ===================================================================== *)

Module RemoteChunker.

Definition targetChars : Z := 400 * 4.
Definition overlapChars : Z := 80 * 4.

(** The two variables of the [while] loop. *)
Record loopState := LoopState { start : Z; chunks : list string }.

Inductive pass :=
| Break (out : list string)
| Again (st : loopState).

(** Lines 1451-1458: the end of a window that stops before the end of
    the text; [targetChars * 0.5] is 800. *)
Definition snappedEnd (text : string) (start : Z) : Z :=
  let end0 := start + targetChars in
  let paraBreak := JS.lastIndexOf text JS.paragraphBreak end0 in
  if start + targetChars / 2 <? paraBreak then paraBreak
  else
    let sentBreak := JS.lastIndexOf text JS.sentenceBreak end0 in
    if start + targetChars / 2 <? sentBreak then sentBreak + 1 else end0.

(** Lines 1446-1460: the loop body; [text.slice(start)] runs to the end
    of the text. *)
Definition body (text : string) (st : loopState) : pass :=
  if JS.len text <=? start st + targetChars
  then Break (chunks st ++ [JS.slice text (start st) (JS.len text)])
  else
    let end_ := snappedEnd text (start st) in
    Again (LoopState (end_ - overlapChars)
                     (chunks st ++ [JS.slice text (start st) end_])).

Fixpoint loop (fuel : nat) (text : string) (st : loopState)
    : option (list string) :=
  match fuel with
  | O => None
  | S fuel' =>
      if start st <? JS.len text then
        match body text st with
        | Break out => Some out
        | Again st' => loop fuel' text st'
        end
      else Some (chunks st)
  end.

(** Lines 1436-1463. *)
Definition chunkText (fuel : nat) (text : string) : option (list string) :=
  if JS.len text <=? targetChars then Some [text]
  else loop fuel text (LoopState 0 []).

(** [c.slice(overlapChars)]: a chunk without the characters it shares
    with the chunk before it. *)
Definition fresh (c : string) : string := JS.slice c overlapChars (JS.len c).

Fixpoint joinFresh (cs : list string) : string :=
  match cs with
  | [] => EmptyString
  | c :: r => (fresh c ++ joinFresh r)%string
  end.

(** The first chunk followed by what each later chunk adds. *)
Definition reassemble (cs : list string) : string :=
  match cs with
  | [] => EmptyString
  | c :: r => (c ++ joinFresh r)%string
  end.

(** *** Substrings *)

Lemma append_nil_r s : (s ++ EmptyString)%string = s.
Proof.
  induction s as [|c s IH]; [reflexivity|].
  change (String c (s ++ EmptyString)%string = String c s). now rewrite IH.
Qed.

Lemma append_assoc s t u : ((s ++ t) ++ u)%string = (s ++ (t ++ u))%string.
Proof.
  induction s as [|c s IH]; [reflexivity|].
  change (String c ((s ++ t) ++ u)%string = String c (s ++ (t ++ u))%string).
  now rewrite IH.
Qed.

Lemma substring_length s : forall n m,
  String.length (substring n m s) = Nat.min m (String.length s - n).
Proof.
  induction s as [|c s IH]; intros [|n] [|m]; cbn [substring String.length];
    try reflexivity.
  all: try (rewrite IH; lia).
  all: lia.
Qed.

Lemma substring_append s : forall n m k,
  (substring n m s ++ substring (n + m) k s)%string = substring n (m + k)%nat s.
Proof.
  induction s as [|c s IH]; intros [|n] [|m] k; cbn [substring Nat.add];
    try reflexivity.
  - change (String c (substring 0 m s ++ substring m k s)%string
            = String c (substring 0 (m + k) s)).
    f_equal. apply (IH 0%nat).
  - apply (IH n 0%nat k).
  - apply (IH n (S m) k).
Qed.

Lemma substring_substring s : forall n m a b, (a + b <= m)%nat ->
  substring a b (substring n m s) = substring (n + a) b s.
Proof.
  induction s as [|c s IH]; intros [|n] [|m] [|a] [|b] H;
    cbn [substring Nat.add]; try reflexivity; try lia.
  all: try (f_equal; apply (IH 0%nat); lia).
  all: rewrite IH by lia; reflexivity.
Qed.

(** [slice] between two positions in order inside the string. *)
Lemma slice_inside s a b : 0 <= a <= b -> b <= JS.len s ->
  JS.slice s a b = substring (Z.to_nat a) (Z.to_nat (b - a)) s.
Proof.
  intros Hab Hb. unfold JS.slice, JS.relIndex.
  destruct (Z.ltb_spec a 0), (Z.ltb_spec b 0); try lia.
  now rewrite !Z.min_l, Z.max_l by lia.
Qed.

Lemma slice_inside_len s a b : 0 <= a <= b -> b <= JS.len s ->
  JS.len (JS.slice s a b) = b - a.
Proof.
  intros Hab Hb. rewrite slice_inside by assumption.
  unfold JS.len in *. rewrite substring_length. lia.
Qed.

Lemma slice_join s a b c : 0 <= a <= b -> b <= c -> c <= JS.len s ->
  (JS.slice s a b ++ JS.slice s b c)%string = JS.slice s a c.
Proof.
  intros Hab Hbc Hc. rewrite !slice_inside by lia.
  replace (Z.to_nat b) with (Z.to_nat a + Z.to_nat (b - a))%nat by lia.
  rewrite substring_append. f_equal. lia.
Qed.

(** What a slice of the text adds to the chunk before it. *)
Lemma fresh_slice s a b :
  0 <= a -> a + overlapChars <= b -> b <= JS.len s ->
  fresh (JS.slice s a b) = JS.slice s (a + overlapChars) b.
Proof.
  intros Ha Hab Hb. assert (0 <= overlapChars) by (unfold overlapChars; lia).
  unfold fresh. rewrite (slice_inside_len s a b) by lia.
  rewrite (slice_inside (JS.slice s a b))
    by (rewrite ?slice_inside_len; lia).
  rewrite (slice_inside s a b), (slice_inside s (a + overlapChars) b) by lia.
  rewrite substring_substring by lia. f_equal; lia.
Qed.

Lemma joinFresh_snoc r c :
  joinFresh (r ++ [c]) = (joinFresh r ++ fresh c)%string.
Proof.
  induction r as [|d r IH]; cbn [joinFresh app].
  - apply append_nil_r.
  - now rewrite IH, append_assoc.
Qed.

Lemma reassemble_snoc cs c : cs <> [] ->
  reassemble (cs ++ [c]) = (reassemble cs ++ fresh c)%string.
Proof.
  destruct cs as [|d r]; [congruence|]. intros _. cbn [reassemble app].
  now rewrite joinFresh_snoc, append_assoc.
Qed.

(** *** The loop *)

Lemma targetChars_value : targetChars = 1600.
Proof. reflexivity. Qed.

Lemma halfTarget_value : targetChars / 2 = 800.
Proof. reflexivity. Qed.

Lemma overlapChars_value : overlapChars = 320.
Proof. reflexivity. Qed.

(** A window that stops before the end of the text ends more than 800
    characters after its start, at most 1601 after it, and inside the
    text. *)
Lemma snappedEnd_range text s :
  0 <= s -> s + targetChars < JS.len text ->
  s + 800 < snappedEnd text s <= s + 1601 /\ snappedEnd text s <= JS.len text.
Proof.
  intros Hs Hlen. unfold snappedEnd. rewrite halfTarget_value.
  pose proof (ChunkerFacts.lastIndexOf_range text JS.paragraphBreak (s + targetChars)).
  pose proof (ChunkerFacts.lastIndexOf_range text JS.sentenceBreak (s + targetChars)).
  rewrite targetChars_value in *.
  destruct (Z.ltb_spec (s + 800) (JS.lastIndexOf text JS.paragraphBreak (s + 1600)));
    [lia|].
  destruct (Z.ltb_spec (s + 800) (JS.lastIndexOf text JS.sentenceBreak (s + 1600)));
    lia.
Qed.

(** The loop invariant: the chunks collected so far reassemble to the
    text up to the end of the last window, and the next window starts
    [overlapChars] before that end. *)
Definition covered (text : string) (st : loopState) : Prop :=
  (chunks st = [] /\ start st = 0) \/
  (chunks st <> [] /\ 0 <= start st /\
   start st + overlapChars <= JS.len text /\
   reassemble (chunks st) = JS.slice text 0 (start st + overlapChars)).

Definition bounded (c : string) : Prop := 0 < JS.len c <= targetChars + 1.

Lemma covered_start text st : covered text st -> 0 <= start st.
Proof. intros [[_ ->]|(_ & H & _)]; lia. Qed.

Lemma body_covered text st :
  start st < JS.len text -> covered text st -> Forall bounded (chunks st) ->
  match body text st with
  | Break out => reassemble out = text /\ Forall bounded out
  | Again st' =>
      start st < start st' /\ covered text st' /\ Forall bounded (chunks st')
  end.
Proof.
  intros Hlt Hcov Hbd. pose proof (covered_start _ _ Hcov) as Hs.
  unfold body, bounded in *. rewrite ?targetChars_value in *.
  destruct (Z.leb_spec (JS.len text) (start st + 1600)) as [Hend|Hgo].
  - split.
    + destruct Hcov as [[-> E]|(Hne & _ & Hov & Hre)].
      * rewrite E. cbn [app reassemble joinFresh].
        now rewrite append_nil_r, ChunkerFacts.slice_whole.
      * rewrite reassemble_snoc, Hre by exact Hne.
        rewrite fresh_slice by lia.
        rewrite slice_join by (rewrite ?overlapChars_value in *; lia).
        apply ChunkerFacts.slice_whole.
    + apply Forall_app. split; [exact Hbd|]. constructor; [|constructor].
      rewrite slice_inside_len by lia. lia.
  - destruct (snappedEnd_range text (start st) Hs) as [[He1 He2] He3];
      [rewrite targetChars_value; lia|].
    cbn [start chunks]. rewrite overlapChars_value in *.
    split; [lia|]. split.
    + right. cbn [start chunks]. rewrite !overlapChars_value.
      split; [now destruct (chunks st)|]. split; [lia|]. split; [lia|].
      replace (snappedEnd text (start st) - 320 + 320)
        with (snappedEnd text (start st)) by lia.
      destruct Hcov as [[-> E]|(Hne & _ & Hov & Hre)].
      * rewrite E. cbn [app reassemble joinFresh]. apply append_nil_r.
      * rewrite reassemble_snoc, Hre by exact Hne.
        rewrite fresh_slice by (rewrite ?overlapChars_value; lia).
        rewrite overlapChars_value. apply slice_join; lia.
    + apply Forall_app. split; [exact Hbd|]. constructor; [|constructor].
      rewrite slice_inside_len by lia. lia.
Qed.

Lemma loop_covers text : forall fuel st out,
  covered text st -> Forall bounded (chunks st) ->
  loop fuel text st = Some out ->
  reassemble out = text /\ Forall bounded out.
Proof.
  induction fuel as [|fuel IH]; intros st out Hcov Hbd; [discriminate|].
  cbn [loop]. destruct (Z.ltb_spec (start st) (JS.len text)) as [Hlt|Hge].
  - pose proof (body_covered text st Hlt Hcov Hbd) as Hb.
    destruct (body text st) as [o|st']; [now intros [= <-]|].
    destruct Hb as (_ & Hc & Hf). now apply IH.
  - intros [= <-]. split; [|exact Hbd].
    destruct Hcov as [[-> E]|(_ & H0 & Hov & _)].
    + rewrite E in Hge. destruct text; [reflexivity|].
      unfold JS.len in Hge. cbn [String.length] in Hge. lia.
    + rewrite overlapChars_value in Hov. lia.
Qed.

Lemma loop_returns text : forall fuel st,
  covered text st -> Forall bounded (chunks st) ->
  Z.max 0 (JS.len text - start st) < Z.of_nat fuel ->
  exists out, loop fuel text st = Some out.
Proof.
  induction fuel as [|fuel IH]; intros st Hcov Hbd Hfuel; [lia|].
  cbn [loop]. destruct (Z.ltb_spec (start st) (JS.len text)) as [Hlt|Hge]; [|eauto].
  pose proof (body_covered text st Hlt Hcov Hbd) as Hb.
  destruct (body text st) as [o|st']; [eauto|].
  destruct Hb as (Hadv & Hc & Hf). apply IH; [exact Hc|exact Hf|lia].
Qed.

Lemma covered_initial text : covered text (LoopState 0 []).
Proof. left. split; reflexivity. Qed.

(** X4. The remote-mode chunker returns for every text, within
    [text.length + 1] passes; it returns at least one chunk, no chunk has
    more than 1601 characters, and no chunk of a non-empty text is
    empty. *)
Theorem remote_chunkText_returns text :
  exists out,
    chunkText (S (String.length text)) text = Some out /\
    out <> [] /\
    Forall (fun c => JS.len c <= 1601) out /\
    (text <> EmptyString -> Forall (fun c => 0 < JS.len c) out).
Proof.
  unfold chunkText. rewrite targetChars_value.
  destruct (Z.leb_spec (JS.len text) 1600) as [Hshort|Hlong].
  - exists [text]. split; [reflexivity|]. split; [discriminate|]. split.
    + constructor; [lia|constructor].
    + intros Hne. constructor; [|constructor].
      destruct text; [congruence|]. unfold JS.len. cbn [String.length]. lia.
  - destruct (loop_returns text (S (String.length text)) (LoopState 0 []))
      as [out Hout]; [apply covered_initial|constructor|cbn [start]; unfold JS.len; lia|].
    exists out. split; [exact Hout|].
    pose proof (loop_covers text _ _ _ (covered_initial text) (List.Forall_nil _) Hout)
      as [Hre Hbd].
    split; [|split].
    + intros ->. cbn [reassemble] in Hre. subst text. unfold JS.len in Hlong.
      cbn [String.length] in Hlong. lia.
    + revert Hbd. apply List.Forall_impl. unfold bounded.
      rewrite targetChars_value. lia.
    + intros _. revert Hbd. apply List.Forall_impl. unfold bounded. lia.
Qed.

(** X5. Nothing of the text is lost and nothing is added: the first chunk
    followed by every later chunk without its first 320 characters (the
    overlap with the chunk before it) is the text. *)
Theorem remote_chunkText_reassembles fuel text out :
  chunkText fuel text = Some out -> reassemble out = text.
Proof.
  unfold chunkText. destruct (JS.len text <=? targetChars).
  - intros [= <-]. cbn [reassemble joinFresh]. apply append_nil_r.
  - intros Hout.
    now destruct (loop_covers text _ _ _ (covered_initial text) (List.Forall_nil _) Hout).
Qed.

(** A text of 2750 characters, with sentence breaks. *)
Fixpoint repeatText (n : nat) (s : string) : string :=
  match n with
  | O => EmptyString
  | S k => (s ++ repeatText k s)%string
  end.

Definition longText : string := repeatText 250 "Ten chars. ".

Definition longChunks : list string :=
  match chunkText 4 longText with Some out => out | None => [] end.

Lemma remote_chunkText_reassembles_witness :
  (2 <=? length longChunks)%nat = true /\ reassemble longChunks = longText.
Proof.
  split; [vm_compute; reflexivity|].
  apply (remote_chunkText_reassembles 4). vm_compute. reflexivity.
Defined.

End RemoteChunker.

(* ===================================================================== *)
(** ** More about the store ([core.ts]: ingest, remember)                 *)
(* ===================================================================== *)

Module CrystalFacts.
Import Crystal.

(** The rows of [chunks_vec]; none while the table does not exist. *)
Definition vecRows (db : Db) : list (Z * float32Array) :=
  match chunks_vec db with Some t => vec_rows t | None => [] end.

Definition chunkIds (db : Db) : list Z := map row_id (chunks db).

(** The three chunk tables go together: every row of [chunks] has its
    full-text row and its vector under the same id, in the same order; no
    id occurs twice and none is above the AUTOINCREMENT counter; every
    vector has the dimension of the table. *)
Definition aligned (db : Db) : Prop :=
  map fst (chunks_fts db) = chunkIds db /\
  map fst (vecRows db) = chunkIds db /\
  NoDup (chunkIds db) /\
  Forall (fun id => id <= chunks_seq db) (chunkIds db) /\
  match chunks_vec db with
  | Some t => Forall (fun p => f32length (snd p) = vec_dim t) (vec_rows t)
  | None => True
  end.

(** What a rolled-back or refused ingest leaves as it was. *)
Definition sameRows (st st' : State) : Prop :=
  chunks (sqliteDb st') = chunks (sqliteDb st) /\
  chunks_fts (sqliteDb st') = chunks_fts (sqliteDb st) /\
  vecRows (sqliteDb st') = vecRows (sqliteDb st) /\
  chunks_seq (sqliteDb st') = chunks_seq (sqliteDb st) /\
  memories (sqliteDb st') = memories (sqliteDb st) /\
  memories_seq (sqliteDb st') = memories_seq (sqliteDb st) /\
  chunksTable st' = chunksTable st.

Lemma sameRows_refl st : sameRows st st.
Proof. repeat split. Qed.

Lemma ensureVecTable_sameRows d st st1 :
  ensureVecTable d st = Some st1 -> sameRows st st1.
Proof.
  unfold sameRows, ensureVecTable, vecRows.
  destruct (chunks_vec (sqliteDb st)) eqn:E.
  - intros [= <-]. cbn. rewrite E. repeat split.
  - destruct (d =? 0)%nat; [discriminate|]. intros [= <-]. cbn. repeat split.
Qed.

Lemma ensureVecTable_aligned d st st1 :
  ensureVecTable d st = Some st1 -> aligned (sqliteDb st) -> aligned (sqliteDb st1).
Proof.
  unfold ensureVecTable, aligned, vecRows, chunkIds.
  destruct (chunks_vec (sqliteDb st)) eqn:E.
  - intros [= <-]. cbn. now rewrite E.
  - destruct (d =? 0)%nat; [discriminate|]. intros [= <-]. cbn.
    intros (H1 & H2 & H3 & H4 & _). repeat split; try assumption. constructor.
Qed.

Section Ingest.

Variable sha256hex : string -> string.

Lemma prepared_sameRows es st st1 : prepared es st = Some st1 -> sameRows st st1.
Proof.
  unfold prepared. destruct es; [intros [= <-]; apply sameRows_refl|].
  destruct (dimsUnset _); [apply ensureVecTable_sameRows|].
  intros [= <-]. apply sameRows_refl.
Qed.

Lemma prepared_aligned es st st1 :
  prepared es st = Some st1 -> aligned (sqliteDb st) -> aligned (sqliteDb st1).
Proof.
  unfold prepared. destruct es; [now intros [= <-]|].
  destruct (dimsUnset _); [apply ensureVecTable_aligned|now intros [= <-]].
Qed.

(** One pass of the transaction on an aligned store. *)
Lemma insert_aligned now c v db db2 :
  aligned db ->
  insertVec (fst (insertChunk sha256hex now c db)) v
    (snd (insertChunk sha256hex now c db)) = Some db2 ->
  aligned db2.
Proof.
  intros (Hf & Hv & Hnd & Hle & Hdim). unfold insertVec, insertChunk. cbn.
  unfold vecRows, chunkIds in *.
  destruct (chunks_vec db) as [t|] eqn:Et; [|discriminate].
  cbn [f32length].
  destruct (Nat.eqb_spec (length v) (vec_dim t)) as [Hlen|]; [|discriminate].
  destruct (negb _); [|discriminate]. cbn. intros [= <-].
  unfold aligned, vecRows, chunkIds. cbn.
  rewrite !map_app, Hf, Hv. cbn. repeat split.
  - apply NoDup_app. repeat split; [exact Hnd| |apply NoDup_singleton].
    intros x Hx Hx'. apply list_elem_of_singleton in Hx'. subst x.
    rewrite List.Forall_forall in Hle. apply list_elem_of_In, Hle in Hx. lia.
  - apply Forall_app. split.
    + revert Hle. apply List.Forall_impl. intros; lia.
    + constructor; [lia|constructor].
  - apply Forall_app. split; [exact Hdim|]. constructor; [exact Hlen|constructor].
Qed.

Lemma insertAll_aligned now cs : forall es db db',
  aligned db -> insertAll sha256hex now cs es db = Some db' -> aligned db'.
Proof.
  induction cs as [|c cs IH]; intros es db db' Hal H; cbn [insertAll] in H.
  - now injection H as <-.
  - destruct (insertChunk sha256hex now c db) as [id db1] eqn:Ec.
    destruct (insertVec id (hd [] es) db1) as [db2|] eqn:Hv; [|discriminate].
    eapply IH; [|exact H].
    eapply (insert_aligned now c (hd [] es) db); [exact Hal|].
    rewrite Ec. exact Hv.
Qed.

Variable embed : list string -> option (list vector).

(** The shape of every outcome of [ingest]: nothing new; the provider
    fails; the vector table cannot be created; the transaction fails
    after the table was prepared; the transaction commits. *)
Lemma ingest_cases now lanceOk batch st :
  let new := newChunksOf sha256hex (sqliteDb st) batch in
  (new = [] /\ ingest sha256hex embed now lanceOk batch st = (Returns 0, st)) \/
  (exists msg, new <> [] /\
     (embed (map text new) = None \/
      exists es, embed (map text new) = Some es /\ prepared es st = None) /\
     ingest sha256hex embed now lanceOk batch st = (Throws msg, st)) \/
  (exists es st1, new <> [] /\ embed (map text new) = Some es /\
     prepared es st = Some st1 /\
     insertAll sha256hex now new es (sqliteDb st1) = None /\
     ingest sha256hex embed now lanceOk batch st
     = (Throws "transaction failed", st1)) \/
  (exists es st1 db', new <> [] /\ embed (map text new) = Some es /\
     prepared es st = Some st1 /\
     insertAll sha256hex now new es (sqliteDb st1) = Some db' /\
     ingest sha256hex embed now lanceOk batch st
     = (Returns (Z.of_nat (length new)),
        mkState db' (vecDimensions st1)
          (lanceWrite lanceOk (lanceRecords now new es) (chunksTable st1)))).
Proof.
  intros new. unfold ingest. destruct batch as [|c0 batch0]; [now left|].
  fold new. destruct new as [|n0 ns] eqn:Hnew; [now left|]. right.
  destruct (embed _) as [es|]; [|left; eexists; split; [easy|]; split; [now left|easy]].
  destruct (prepared es st) as [st1|] eqn:Hprep;
    [|left; eexists; split; [easy|]; split; [right; eauto|easy]].
  right. destruct (insertAll _ _ _ _ _) as [db'|] eqn:Hall.
  - right. exists es, st1, db'. easy.
  - left. exists es, st1. easy.
Qed.

(** X6. [ingest] keeps the three chunk tables together, whether it
    returns or throws: after it every chunk row still has exactly one
    full-text row and one vector under its id, ids are unique, and every
    stored vector has the dimension of the vector table. *)
Theorem ingest_keeps_tables_aligned now lanceOk batch st :
  aligned (sqliteDb st) ->
  aligned (sqliteDb (snd (ingest sha256hex embed now lanceOk batch st))).
Proof.
  intros Hal.
  destruct (ingest_cases now lanceOk batch st)
    as [[_ ->]|[(msg & _ & _ & ->)|[(es & st1 & _ & _ & Hprep & _ & ->)
       |(es & st1 & db' & _ & _ & Hprep & Hall & ->)]]];
    cbn [snd sqliteDb]; try exact Hal.
  - now apply (prepared_aligned es st).
  - eapply insertAll_aligned; [|exact Hall]. now apply (prepared_aligned es st).
Qed.

(** X7. An [ingest] that throws has written nothing: the chunk rows, the
    full-text rows, the vectors, the row counter, the memories and the
    LanceDB table are as before the call. *)
Theorem ingest_throw_writes_nothing now lanceOk batch st msg st' :
  ingest sha256hex embed now lanceOk batch st = (Throws msg, st') ->
  sameRows st st'.
Proof.
  destruct (ingest_cases now lanceOk batch st)
    as [[_ ->]|[(msg0 & _ & _ & ->)|[(es & st1 & _ & _ & Hprep & _ & ->)
       |(es & st1 & db' & _ & _ & Hprep & Hall & ->)]]];
    intros E; try discriminate; injection E as _ <-.
  - apply sameRows_refl.
  - now apply (prepared_sameRows es).
Qed.

(** *** Ingesting again, and when the transaction goes through *)

Lemma hashPresent_In db h :
  hashPresent db h = true <-> In h (map row_text_hash (chunks db)).
Proof.
  unfold hashPresent. rewrite existsb_exists, in_map_iff. split.
  - intros (r & Hr & E). apply String.eqb_eq in E. eauto.
  - intros (r & E & Hr). exists r. split; [exact Hr|]. now apply String.eqb_eq.
Qed.

Lemma newChunksOf_nil db batch :
  (forall c, In c batch -> hashPresent db (sha256hex (text c)) = true) ->
  newChunksOf sha256hex db batch = [].
Proof.
  unfold newChunksOf. induction batch as [|c batch IH]; intros H; [reflexivity|].
  cbn [List.filter]. rewrite (H c) by now left. cbn [negb].
  apply IH. intros c' Hc'. apply H. now right.
Qed.

(** After [ingest] has returned, the hash of every chunk of the batch is
    in the store. *)
Lemma ingest_returns_present now lanceOk batch st n st' :
  ingest sha256hex embed now lanceOk batch st = (Returns n, st') ->
  forall c, In c batch -> hashPresent (sqliteDb st') (sha256hex (text c)) = true.
Proof.
  intros Hrun c Hc.
  destruct (hashPresent (sqliteDb st) (sha256hex (text c))) eqn:Hp.
  - destruct (ingest_cases now lanceOk batch st)
      as [[_ E]|[(msg & _ & _ & E)|[(es & st1 & _ & _ & Hprep & _ & E)
         |(es & st1 & db' & _ & _ & Hprep & Hall & E)]]];
      rewrite E in Hrun; try discriminate; injection Hrun as <- <-; [exact Hp|].
    cbn [sqliteDb]. apply hashPresent_In.
    rewrite (insertAll_chunks sha256hex now _ _ _ _ Hall).
    destruct (prepared_sameRows es st st1 Hprep) as [-> _].
    apply in_or_app. left. now apply hashPresent_In.
  - assert (Hin : In c (newChunksOf sha256hex (sqliteDb st) batch)).
    { unfold newChunksOf. apply filter_In. split; [exact Hc|]. now rewrite Hp. }
    destruct (ingest_cases now lanceOk batch st)
      as [[Hnew E]|[(msg & _ & _ & E)|[(es & st1 & _ & _ & Hprep & _ & E)
         |(es & st1 & db' & _ & _ & Hprep & Hall & E)]]];
      rewrite E in Hrun; try discriminate; injection Hrun as <- <-.
    + rewrite Hnew in Hin. destruct Hin.
    + cbn [sqliteDb]. apply hashPresent_In.
      rewrite (insertAll_chunks sha256hex now _ _ _ _ Hall).
      apply in_or_app. right.
      now apply (in_map (fun c => sha256hex (text c))).
Qed.

(** X8. Once [ingest] has returned for a batch, ingesting the same batch
    again returns 0 and changes nothing, without a call of the embedding
    provider (whatever the provider would answer). *)
Theorem ingest_again_returns_zero now lanceOk batch st n st'
    (embed' : list string -> option (list vector)) now' lanceOk' :
  ingest sha256hex embed now lanceOk batch st = (Returns n, st') ->
  ingest sha256hex embed' now' lanceOk' batch st' = (Returns 0, st').
Proof.
  intros Hrun.
  pose proof (newChunksOf_nil _ _ (ingest_returns_present _ _ _ _ _ _ Hrun)) as Hnil.
  unfold ingest. destruct batch; [reflexivity|]. now rewrite Hnil.
Qed.

Lemma key_free db t :
  aligned db -> chunks_vec db = Some t ->
  existsb (fun p => fst p =? chunks_seq db + 1) (vec_rows t) = false.
Proof.
  intros (_ & Hv & _ & Hle & _) Et. unfold vecRows in Hv. rewrite Et in Hv.
  rewrite <- Hv in Hle. clear Hv. induction (vec_rows t) as [|p rows IH];
    [reflexivity|].
  cbn [map] in Hle. inversion Hle as [|? ? Hp Hrest]. subst. cbn [existsb].
  rewrite IH by exact Hrest. destruct (Z.eqb_spec (fst p) (chunks_seq db + 1)); [lia|].
  reflexivity.
Qed.

(** With a vector table of dimension [d] and one vector of length [d] per
    chunk, the transaction commits and appends the texts and the vectors
    in order. *)
Lemma insertAll_commits now d cs : forall es db t,
  aligned db -> chunks_vec db = Some t -> vec_dim t = d ->
  length es = length cs -> Forall (fun v => length v = d) es ->
  exists db',
    insertAll sha256hex now cs es db = Some db' /\
    map row_text (chunks db') = map row_text (chunks db) ++ map text cs /\
    map snd (vecRows db') = map snd (vecRows db) ++ map Float32Array es.
Proof.
  induction cs as [|c cs IH]; intros es db t Hal Et Hd Hlen Hes.
  - destruct es; [|discriminate]. exists db. cbn. now rewrite !app_nil_r.
  - destruct es as [|e es]; [discriminate|]. inversion Hes as [|? ? He Hes']. subst.
    pose proof (insert_aligned now c e db) as Hstep.
    cbn [insertAll hd tl]. unfold insertChunk in *. cbn [fst snd] in Hstep.
    unfold insertVec in *. cbn [chunks_vec chunks chunks_fts chunks_seq memories
      memories_seq f32length] in *. rewrite Et in *.
    rewrite He, Nat.eqb_refl, (key_free db t Hal Et) in *. cbn [andb negb] in *.
    specialize (Hstep _ Hal eq_refl).
    match type of Hstep with aligned ?d2 =>
      destruct (IH es d2 (mkVecTable (vec_dim t)
                            (vec_rows t ++ [(chunks_seq db + 1, Float32Array e)])))
        as (db' & Hrun & Htexts & Hvecs) end;
      [exact Hstep|reflexivity|reflexivity|cbn [length] in Hlen; lia|exact Hes'|].
    exists db'. split; [exact Hrun|]. rewrite Htexts, Hvecs.
    unfold vecRows. cbn [chunks chunks_vec vec_rows]. rewrite Et.
    rewrite !map_app. cbn [map snd text]. rewrite <- !app_assoc. now split.
Qed.

(** X9. On an aligned store that has its vector table, of dimension [d],
    a provider that answers with one vector of length [d] per new chunk
    makes [ingest] return the number of new chunks: their texts are
    appended to [chunks] in order, their embeddings to [chunks_vec], each
    as the [Float32Array] made of it, and the LanceDB table receives the
    same records when its write goes through. *)
Theorem ingest_commits now lanceOk batch st t es :
  aligned (sqliteDb st) ->
  chunks_vec (sqliteDb st) = Some t ->
  (0 < vec_dim t)%nat ->
  newChunksOf sha256hex (sqliteDb st) batch <> [] ->
  embed (map text (newChunksOf sha256hex (sqliteDb st) batch)) = Some es ->
  length es = length (newChunksOf sha256hex (sqliteDb st) batch) ->
  Forall (fun v => length v = vec_dim t) es ->
  exists st',
    ingest sha256hex embed now lanceOk batch st
    = (Returns (Z.of_nat (length (newChunksOf sha256hex (sqliteDb st) batch))), st') /\
    map row_text (chunks (sqliteDb st'))
    = map row_text (chunks (sqliteDb st))
      ++ map text (newChunksOf sha256hex (sqliteDb st) batch) /\
    map snd (vecRows (sqliteDb st'))
    = map snd (vecRows (sqliteDb st)) ++ map Float32Array es /\
    (lanceOk = true ->
     chunksTable st'
     = Some (match chunksTable st with Some old => old | None => [] end
             ++ lanceRecords now (newChunksOf sha256hex (sqliteDb st) batch) es)).
Proof.
  intros Hal Et _ Hne Hemb Hlen Hes.
  remember (newChunksOf sha256hex (sqliteDb st) batch) as new eqn:Enew.
  assert (Hprep : exists st1, prepared es st = Some st1 /\
                              chunks_vec (sqliteDb st1) = Some t).
  { unfold prepared, ensureVecTable. rewrite Et. destruct es as [|e0 es'].
    - eauto.
    - destruct (dimsUnset _); eexists; (split; [reflexivity|exact Et]). }
  destruct Hprep as (st1 & Hprep & Et1).
  destruct (insertAll_commits now (vec_dim t) new es (sqliteDb st1) t)
    as (db' & Hrun & Htexts & Hvecs);
    [now apply (prepared_aligned es st)|exact Et1|reflexivity|exact Hlen|exact Hes|].
  destruct (prepared_sameRows es st st1 Hprep) as (Hc & _ & Hv & _ & _ & _ & Ht).
  pose proof (ingest_cases now lanceOk batch st) as Hcases. cbv zeta in Hcases.
  rewrite <- Enew in Hcases.
  destruct Hcases
    as [[Hnew _]|[(msg & _ & [E|(es' & E & Hp)] & _)
       |[(es' & st1' & _ & E & Hp & Hall & _)
        |(es' & st1' & db'' & _ & E & Hp & Hall & ->)]]];
    try congruence.
  rewrite Hemb in E. injection E as E. subst es'.
  rewrite Hprep in Hp. injection Hp as Hp. subst st1'.
  rewrite Hrun in Hall. injection Hall as Hall. subst db''.
  eexists. split; [reflexivity|]. cbn [sqliteDb chunksTable].
  rewrite Htexts, Hvecs, Hc, Hv, Ht. repeat split.
  intros ->. cbn [lanceWrite]. now destruct (chunksTable st).
Qed.

(** X10. The dimension of the vector table is locked: once it is recorded
    on the instance, an answer of the provider whose first vector has
    another length makes [ingest] throw, and the instance and the store
    stay exactly as they were. *)
Theorem ingest_rejects_other_dimension now lanceOk batch st t es :
  chunks_vec (sqliteDb st) = Some t ->
  dimsUnset (vecDimensions st) = false ->
  newChunksOf sha256hex (sqliteDb st) batch <> [] ->
  embed (map text (newChunksOf sha256hex (sqliteDb st) batch)) = Some es ->
  length (hd [] es) <> vec_dim t ->
  ingest sha256hex embed now lanceOk batch st = (Throws "transaction failed", st).
Proof.
  intros Et Hset Hne Hemb Hlen.
  assert (Hprep : prepared es st = Some st).
  { unfold prepared. destruct es; [reflexivity|]. now rewrite Hset. }
  destruct (ingest_cases now lanceOk batch st)
    as [[Hnew _]|[(msg & _ & [E|(es' & E & Hp)] & _)
       |[(es' & st1 & _ & E & Hp & Hall & ->)
        |(es' & st1 & db' & _ & E & Hp & Hall & _)]]];
    try congruence.
  exfalso. rewrite Hemb in E. injection E as E. subst es'.
  rewrite Hprep in Hp. injection Hp as <-.
  destruct (newChunksOf sha256hex (sqliteDb st) batch) as [|c cs]; [congruence|].
  cbn [insertAll] in Hall. unfold insertChunk, insertVec in Hall.
  cbn [chunks_vec f32length] in Hall. rewrite Et in Hall.
  destruct (Nat.eqb_spec (length (hd [] es)) (vec_dim t)); [congruence|].
  discriminate Hall.
Qed.

(** [ingest] never touches the [memories] table. *)
Lemma insertAll_memories now cs : forall es db db',
  insertAll sha256hex now cs es db = Some db' ->
  memories db' = memories db /\ memories_seq db' = memories_seq db.
Proof.
  induction cs as [|c cs IH]; intros es db db' H; cbn [insertAll] in H.
  - now injection H as <-.
  - unfold insertChunk, insertVec in H. cbn [chunks_vec] in H.
    destruct (chunks_vec db) as [t|]; [|discriminate].
    destruct (_ && _); [|discriminate]. apply IH in H. exact H.
Qed.

Lemma ingest_memories now lanceOk batch st :
  memories (sqliteDb (snd (ingest sha256hex embed now lanceOk batch st)))
  = memories (sqliteDb st) /\
  memories_seq (sqliteDb (snd (ingest sha256hex embed now lanceOk batch st)))
  = memories_seq (sqliteDb st).
Proof.
  destruct (ingest_cases now lanceOk batch st)
    as [[_ ->]|[(msg & _ & _ & ->)|[(es & st1 & _ & _ & Hprep & _ & ->)
       |(es & st1 & db' & _ & _ & Hprep & Hall & ->)]]];
    cbn [snd sqliteDb]; try easy.
  - destruct (prepared_sameRows es st st1 Hprep) as (_ & _ & _ & _ & -> & -> & _).
    easy.
  - apply insertAll_memories in Hall. destruct Hall as [-> ->].
    destruct (prepared_sameRows es st st1 Hprep) as (_ & _ & _ & _ & -> & -> & _).
    easy.
Qed.

End Ingest.

Section Memories.

Variable sha256hex : string -> string.
Variable embed : list string -> option (list vector).

(** A number inside a template literal. *)
Variable showNumber : Z -> string.

(** [Math.ceil(text.length / 4)] *)
Definition tokenEstimate (text : string) : Z := (JS.len text + 3) / 4.

(** The chunk that mirrors a memory, lines 860-868. *)
Definition memoryChunk (now text : string) (id : Z) : Chunk :=
  mkChunk text "system" "manual" ("memory:" ++ showNumber id)%string "system"
    (tokenEstimate text) now.

Definition newMemory (now text category : string) : MemoryRow :=
  mkMemoryRow text category 1%Q "[]" active now now.

(** The INSERT of lines 853-857; the row gets the next AUTOINCREMENT id. *)
Definition insertMemory (now text category : string) (st : State) : Z * State :=
  let db := sqliteDb st in
  let id := memories_seq db + 1 in
  (id,
   mkState (mkDb (chunks db) (chunks_fts db) (chunks_vec db) (chunks_seq db)
              (<[id := newMemory now text category]> (memories db)) id)
     (vecDimensions st) (chunksTable st)).

(** [Crystal.remember]; [now] is the time read at line 851, [later] the
    clock as [ingest] would read it. A throw of [ingest] leaves the
    inserted memory row in place. *)
Definition remember (now later : string) (lanceOk : bool)
    (text category : string) (st : State) : outcome Z * State :=
  let '(id, st0) := insertMemory now text category st in
  match ingest sha256hex embed later lanceOk [memoryChunk now text id] st0 with
  | (Returns _, st') => (Returns id, st')
  | (Throws msg, st') => (Throws msg, st')
  end.

(** [SELECT COUNT( * ) FROM memories WHERE status = 'active'], as [status]
    reports it. *)
Definition activeMemories (db : Db) : nat :=
  size (filter (fun p => m_status (snd p) = active) (memories db)).

(** No memory row sits above the AUTOINCREMENT counter. *)
Definition memoriesCounted (db : Db) : Prop :=
  forall id m, memories db !! id = Some m -> id <= memories_seq db.

Lemma remember_memories now later lanceOk text category st :
  let id := memories_seq (sqliteDb st) + 1 in
  let st' := snd (remember now later lanceOk text category st) in
  memories (sqliteDb st') = <[id := newMemory now text category]> (memories (sqliteDb st)) /\
  memories_seq (sqliteDb st') = id /\
  (forall n, fst (remember now later lanceOk text category st) = Returns n -> n = id).
Proof.
  cbv zeta. unfold remember, insertMemory.
  match goal with |- context [ingest _ _ _ _ ?b ?s] =>
    pose proof (ingest_memories sha256hex embed later lanceOk b s) as [Hm Hs];
    destruct (ingest sha256hex embed later lanceOk b s) as [[n|msg] st'] end;
    cbn [fst snd sqliteDb memories memories_seq] in *; rewrite Hm, Hs;
    repeat split; congruence.
Qed.

(** X11. [remember] stores the memory as an active row under the next id,
    whether the ingest of its chunk returns or throws; it overwrites no
    other row, the id it returns is that id, and a [forget] of that id
    right after it returns true. *)
Theorem remember_stores_active_memory now later lanceOk text category st :
  let id := memories_seq (sqliteDb st) + 1 in
  let out := remember now later lanceOk text category st in
  memories (sqliteDb (snd out)) !! id = Some (newMemory now text category) /\
  (forall j, j <> id ->
     memories (sqliteDb (snd out)) !! j = memories (sqliteDb st) !! j) /\
  (forall n, fst out = Returns n -> n = id) /\
  (forall now', fst (forget now' id (snd out)) = true).
Proof.
  cbv zeta.
  destruct (remember_memories now later lanceOk text category st) as (Hm & _ & Hn).
  rewrite Hm. split; [apply lookup_insert_eq|]. split; [|split; [exact Hn|]].
  - intros j Hj. now apply lookup_insert_ne.
  - intros now'. unfold forget. rewrite Hm, lookup_insert_eq. reflexivity.
Qed.

Lemma activeMemories_insert_active db id m :
  m_status m = active ->
  match memories db !! id with Some m0 => m_status m0 <> active | None => True end ->
  size (filter (fun p => m_status (snd p) = active) (<[id := m]> (memories db)))
  = S (activeMemories db).
Proof.
  intros Hm Hold. unfold activeMemories.
  rewrite map_filter_insert_True by exact Hm.
  rewrite map_size_insert_None; [reflexivity|].
  apply map_lookup_filter_None. destruct (memories db !! id) as [m0|]; [right|now left].
  intros x [= <-]. exact Hold.
Qed.

Lemma activeMemories_insert_inactive db id m m0 :
  m_status m <> active -> memories db !! id = Some m0 -> m_status m0 = active ->
  S (size (filter (fun p => m_status (snd p) = active) (<[id := m]> (memories db))))
  = activeMemories db.
Proof.
  intros Hm Hold Hact. unfold activeMemories.
  rewrite map_filter_insert_False by exact Hm.
  rewrite map_filter_delete.
  rewrite map_size_delete_Some; [|exists m0; now apply map_lookup_filter_Some].
  assert (size (filter (fun p => m_status (snd p) = active) (memories db)) <> 0)%nat.
  { apply map_size_ne_0_lookup. exists id, m0. now apply map_lookup_filter_Some. }
  lia.
Qed.

(** X13. The number of active memories that [status] reports goes up by
    one with every [remember] (returning or throwing) and down by one
    with every [forget] that returns true; a [forget] that returns false
    leaves it. *)
Theorem active_memories_counted now later lanceOk text category st :
  memoriesCounted (sqliteDb st) ->
  activeMemories (sqliteDb (snd (remember now later lanceOk text category st)))
  = S (activeMemories (sqliteDb st)) /\
  memoriesCounted (sqliteDb (snd (remember now later lanceOk text category st))) /\
  forall now' id,
    memoriesCounted (sqliteDb (snd (forget now' id st))) /\
    if fst (forget now' id st)
    then S (activeMemories (sqliteDb (snd (forget now' id st))))
         = activeMemories (sqliteDb st)
    else activeMemories (sqliteDb (snd (forget now' id st)))
         = activeMemories (sqliteDb st).
Proof.
  intros Hc.
  destruct (remember_memories now later lanceOk text category st) as (Hm & Hs & _).
  split; [|split].
  - unfold activeMemories at 1. rewrite Hm.
    apply activeMemories_insert_active; [reflexivity|].
    destruct (memories (sqliteDb st) !! _) as [m0|] eqn:E; [|exact I].
    apply Hc in E. lia.
  - intros j m. rewrite Hm, Hs. intros E.
    destruct (Z.eq_dec j (memories_seq (sqliteDb st) + 1)) as [->|Hne]; [lia|].
    rewrite lookup_insert_ne in E by congruence. apply Hc in E. lia.
  - intros now' id. unfold forget.
    destruct (memories (sqliteDb st) !! id) as [m|] eqn:E; [|now split].
    destruct (m_status m) eqn:Em; try now split.
    cbn [fst snd sqliteDb]. split.
    + intros j m'. cbn [memories memories_seq]. intros E'.
      destruct (Z.eq_dec j id) as [->|Hne]; [now apply Hc in E|].
      rewrite lookup_insert_ne in E' by congruence. now apply Hc in E'.
    + unfold activeMemories at 1. cbn [memories].
      now apply (activeMemories_insert_inactive _ _ _ m).
Qed.

End Memories.

(** *** Order, size and scores of what search returns *)

(** Every element is at least as large, by its key, as all later ones. *)
Fixpoint descending {A} (key : A -> Q) (l : list A) : Prop :=
  match l with
  | [] => True
  | a :: r => Forall (fun b => (key b <= key a)%Q) r /\ descending key r
  end.

Lemma insertDesc_descending {A} (key : A -> Q) x l :
  descending key l -> descending key (insertDesc key x l).
Proof.
  induction l as [|y l IH]; cbn [insertDesc descending].
  - intros _. split; [constructor|exact I].
  - intros [Hy Hl]. destruct (Recency.Qltb (key x) (key y)) eqn:E.
    + apply Recency.Qltb_lt in E. cbn [descending]. split; [|now apply IH].
      apply insertDesc_Forall; [now apply Qlt_le_weak|exact Hy].
    + apply Recency.Qltb_ge in E. cbn [descending]. split; [|now split].
      constructor; [exact E|]. revert Hy. apply List.Forall_impl.
      intros b Hb. now apply (Qle_trans _ (key y)).
Qed.

Lemma sortDesc_descending {A} (key : A -> Q) l : descending key (sortDesc key l).
Proof.
  induction l as [|x l IH]; [exact I|]. cbn [sortDesc fold_right].
  now apply insertDesc_descending.
Qed.

Lemma take_descending {A} (key : A -> Q) n : forall l,
  descending key l -> descending key (take n l).
Proof.
  induction n as [|n IH]; intros [|a l]; cbn [take descending]; try easy.
  intros [Ha Hl]. split; [now apply Forall_take|now apply IH].
Qed.

Lemma sliceTo_descending {A} (key : A -> Q) (l : list A) n :
  descending key l -> descending key (sliceTo l n).
Proof. apply take_descending. Qed.

Lemma sliceTo_length {A} (l : list A) n :
  0 <= n -> Z.of_nat (length (sliceTo l n)) <= n.
Proof.
  intros Hn. unfold sliceTo, JS.relIndex. rewrite length_take.
  destruct (Z.ltb_spec n 0); lia.
Qed.

Lemma Qmin_le_r a b : (Recency.Qmin a b <= b)%Q.
Proof.
  unfold Recency.Qmin. destruct (Recency.Qltb b a) eqn:E; [apply Qle_refl|].
  now apply Recency.Qltb_ge in E.
Qed.

Lemma Qmin_pos a b : (0 < a)%Q -> (0 < b)%Q -> (0 < Recency.Qmin a b)%Q.
Proof. intros Ha Hb. unfold Recency.Qmin. now destruct (Recency.Qltb b a). Qed.

Lemma recencyWeight_floor age : (1 # 2 <= Recency.recencyWeight age)%Q.
Proof.
  unfold Recency.recencyWeight, Recency.Qmax.
  destruct (Recency.Qltb _ _) eqn:E; [|apply Qle_refl].
  apply Recency.Qltb_lt in E. now apply Qlt_le_weak.
Qed.

(** Every fused score is positive when the weights are and [k] is not
    negative. *)
Definition positive (m : list (string * Entry)) : Prop :=
  Forall (fun p => (0 < rrfScore (snd p))%Q) m.

Lemma contribution_pos w k rank :
  (0 < w)%Q -> 0 <= k -> 0 <= rank -> (0 < w / inject_Z (k + rank + 1))%Q.
Proof.
  intros Hw Hk Hr. apply Qlt_shift_div_l.
  - change 0%Q with (inject_Z 0). rewrite <- Zlt_Qlt. lia.
  - now rewrite Qmult_0_l.
Qed.

Lemma scoresAlter_positive c rank key m :
  (0 < c)%Q -> positive m ->
  positive (scoresAlter
              (fun e => mkEntry (result e) (rrfScore e + c) (Z.min (topRank e) rank))
              key m).
Proof.
  intros Hc. induction 1 as [|[k e] m He Hm IH]; cbn [scoresAlter]; [constructor|].
  destruct (String.eqb k key); constructor; auto. cbn in *. lra.
Qed.

Lemma fuseList_positive w k l : (0 < w)%Q -> 0 <= k -> forall rank m,
  0 <= rank -> positive m -> positive (fuseList w k rank l m).
Proof.
  intros Hw Hk. induction l as [|r l IH]; intros rank m Hr Hm; cbn [fuseList];
    [exact Hm|].
  apply IH; [lia|]. unfold fuseResult.
  pose proof (contribution_pos w k rank Hw Hk Hr) as Hc.
  destruct (scoresGet _ _).
  - now apply scoresAlter_positive.
  - apply Forall_app. split; [exact Hm|]. constructor; [exact Hc|constructor].
Qed.

Lemma fuseLists_positive weights k ls :
  Forall (fun w => (0 < w)%Q) weights -> 0 <= k -> forall idx m,
  positive m -> positive (fuseLists weights k idx ls m).
Proof.
  intros Hw Hk. induction ls as [|l ls IH]; intros idx m Hm; cbn [fuseLists];
    [exact Hm|].
  apply IH, fuseList_positive; try lia; [|exact Hm].
  destruct (nth_in_or_default idx weights 1%Q) as [Hin| ->]; [|reflexivity].
  rewrite List.Forall_forall in Hw. now apply Hw.
Qed.

Lemma bonus_positive e : (0 < rrfScore e)%Q -> (0 < rrfScore (bonus e))%Q.
Proof.
  intros He. unfold bonus.
  destruct (topRank e =? 0); [cbn; lra|]. destruct (topRank e <=? 2); [cbn; lra|exact He].
Qed.

Lemma rrf_positive ls weights k :
  Forall (fun w => (0 < w)%Q) weights -> 0 <= k ->
  Forall (fun r => (0 < r_score r)%Q) (reciprocalRankFusion ls weights k).
Proof.
  intros Hw Hk. unfold reciprocalRankFusion.
  apply Forall_map, sortDesc_Forall, Forall_map.
  pose proof (fuseLists_positive weights k ls Hw Hk 0%nat [] (List.Forall_nil _)) as H.
  revert H. apply List.Forall_impl. intros p Hp. cbn. now apply bonus_positive.
Qed.

(** *** Dates that do not read

    [new Date(s).getTime()] is a number of milliseconds for the strings
    that [Date] reads and NaN for the others. The clock of the model
    gives the number; a score computed from NaN, and what [sort] does with
    it, are outside the model. What is said below of the order and of the
    range of the scores is therefore said of stores in which every
    [created_at] is empty (then no date is computed) or reads. *)

(** The clock of the model over [Date.parse], [None] standing for NaN. *)
Definition getTimeOf (parseDate : string -> option Z) (s : string) : Z :=
  match parseDate s with Some t => t | None => 0 end.

Definition reads (parseDate : string -> option Z) (s : string) : Prop :=
  s = EmptyString \/ exists t, parseDate s = Some t.

Section Search.

Variable embed : list string -> option (list vector).
Variable vecMatch : VecTable -> float32Array -> Z -> option (list (Z * Q)).
Variable ftsMatch : list (Z * string) -> string -> list (Z * Q).
Variable lanceSearch :
  list LanceRecord -> vector -> Z -> list string ->
  option (list (LanceRecord * option Q)).
Variable parseDate : string -> option Z.

(** Every date that a search of the store can meet reads: the dates of
    the chunk rows, and those of the records that LanceDB returns. *)
Definition datesRead (st : State) : Prop :=
  Forall (fun r => reads parseDate (row_created_at r)) (chunks (sqliteDb st)) /\
  (forall table v k clauses rows,
     chunksTable st = Some table ->
     lanceSearch table v k clauses = Some rows ->
     Forall (fun p => reads parseDate (l_created_at (fst p))) rows).

Lemma rescore_unit getTime now r :
  (0 < r_score r)%Q ->
  (0 < r_score (rescore getTime now r) /\ r_score (rescore getTime now r) <= 1)%Q.
Proof.
  intros Hr. unfold rescore. cbn [r_score]. split; [|apply Qmin_le_r].
  apply Qmin_pos; [|reflexivity].
  destruct (JS.truthy (r_created_at r)).
  - pose proof (recencyWeight_floor (ageDaysOf getTime now (r_created_at r))) as Hw.
    assert (0 < r_score r * Recency.recencyWeight
                             (ageDaysOf getTime now (r_created_at r)))%Q.
    { apply Qmult_lt_0_compat; [exact Hr|]. lra. }
    lra.
  - lra.
Qed.

(** X14. Whatever [search] returns holds at most [limit] results, for a
    limit that is not negative; and on a store whose dates read it is
    ordered by score, highest first, on the hybrid path and on the
    LanceDB fallback alike. *)
Theorem search_ranked_and_limited now st query limit filter rs :
  search embed vecMatch ftsMatch lanceSearch (getTimeOf parseDate) now st query limit
    filter = Returns rs ->
  (0 <= limit -> Z.of_nat (length rs) <= limit) /\
  (datesRead st -> descending r_score rs).
Proof.
  unfold search, searchLanceFallback.
  destruct (usesFallback st).
  - destruct (chunksTable st) as [table|];
      [|intros [= <-]; split; [cbn; lia|intros _; exact I]].
    destruct (embed [query]) as [es|]; [|discriminate].
    destruct (lanceSearch _ _ _ _) as [results|]; [|discriminate].
    intros [= <-]. split; [apply sliceTo_length|]. intros _.
    apply sliceTo_descending, sortDesc_descending.
  - destruct (embed [query]) as [es|]; [|discriminate].
    destruct (searchVec _ _ _ _ _) as [vs|]; [|discriminate].
    intros [= <-]. split; [apply sliceTo_length|]. intros _.
    apply sliceTo_descending, sortDesc_descending.
Qed.

(** X15. On the hybrid path, over a store whose dates read, every
    returned score lies in (0, 1]. *)
Theorem search_hybrid_scores_unit now st query limit filter rs :
  datesRead st ->
  usesFallback st = false ->
  search embed vecMatch ftsMatch lanceSearch (getTimeOf parseDate) now st query limit
    filter = Returns rs ->
  Forall (fun r => (0 < r_score r /\ r_score r <= 1)%Q) rs.
Proof.
  unfold search. intros _ ->.
  destruct (embed [query]) as [es|]; [|discriminate].
  destruct (searchVec _ _ _ _ _) as [vs|]; [|discriminate].
  intros [= <-]. apply sliceTo_Forall, sortDesc_Forall, Forall_map.
  match goal with |- Forall _ (reciprocalRankFusion ?ls ?ws ?k) =>
    pose proof (rrf_positive ls ws k) as Hpos end.
  eapply List.Forall_impl; [|apply Hpos; [repeat constructor|lia]].
  intros r Hr. now apply rescore_unit.
Qed.

End Search.

(** X16. The recency weight of an age that is a number never drops below
    0.5, is at most 1 for an age that is not negative and at least 1 for
    an age that is not positive, never grows with age, and sits on its
    floor from 50 days on. *)
Theorem recencyWeight_decay (a b : Q) :
  (1 # 2 <= Recency.recencyWeight a)%Q /\
  ((0 <= a)%Q -> (Recency.recencyWeight a <= 1)%Q) /\
  ((a <= 0)%Q -> (1 <= Recency.recencyWeight a)%Q) /\
  ((a <= b)%Q -> (Recency.recencyWeight b <= Recency.recencyWeight a)%Q) /\
  ((50 <= a)%Q -> (Recency.recencyWeight a == 1 # 2)%Q).
Proof.
  unfold Recency.recencyWeight, Recency.Qmax.
  destruct (Recency.Qltb (1 # 2) (1 - a * (1 # 100))) eqn:Ea;
    [apply Recency.Qltb_lt in Ea|apply Recency.Qltb_ge in Ea];
  (destruct (Recency.Qltb (1 # 2) (1 - b * (1 # 100))) eqn:Eb;
    [apply Recency.Qltb_lt in Eb|apply Recency.Qltb_ge in Eb]);
  repeat split; intros; try lra.
Qed.

(** *** The full-text query *)

(** All characters of a string pass a test. *)
Fixpoint allChars (p : ascii -> bool) (s : string) : bool :=
  match s with
  | EmptyString => true
  | String c r => p c && allChars p r
  end.

(** A letter, a digit or an apostrophe, and in lower case: what a term of
    the query is made of; the double quote is not among them. *)
Definition termChar (c : ascii) : bool :=
  keptInTerm c && Ascii.eqb (lowerChar c) c && negb (Ascii.eqb c "034").

Lemma lowerChar_termChar c : keptInTerm c = true -> termChar (lowerChar c) = true.
Proof.
  destruct c as [[] [] [] [] [] [] [] []]; vm_compute; intros E;
    first [reflexivity | discriminate E].
Qed.

Lemma cleanTerm_termChars t : allChars termChar (cleanTerm t) = true.
Proof.
  induction t as [|c t IH]; [reflexivity|]. cbn [cleanTerm].
  destruct (keptInTerm c) eqn:E; [|exact IH].
  cbn [allChars]. now rewrite lowerChar_termChar, IH.
Qed.

Definition cleanTerms (query : string) : list string :=
  List.filter (fun t => 0 <? JS.len t)
    (map cleanTerm (splitWhite false EmptyString query)).

Lemma joinAnd_single t : joinAnd [t] = t.
Proof. reflexivity. Qed.

(** X17. The query handed to FTS5 is built from quoted prefix terms only:
    [buildFTS5Query] answers nothing exactly when no word of the input
    keeps a character, and otherwise the terms joined by AND, each
    between double quotes and followed by a star, each non-empty and made
    of lower-case letters, digits and apostrophes only, so that no term
    contains a double quote. *)
Theorem buildFTS5Query_quoted_terms query :
  Forall (fun t => 0 < JS.len t /\ allChars termChar t = true) (cleanTerms query) /\
  (buildFTS5Query query = None <-> cleanTerms query = []) /\
  (cleanTerms query <> [] ->
   buildFTS5Query query = Some (joinAnd (map quoteTerm (cleanTerms query)))).
Proof.
  split; [|split].
  - unfold cleanTerms. apply List.Forall_forall. intros t Ht.
    apply filter_In in Ht as [Ht Hlen]. apply in_map_iff in Ht as (w & <- & _).
    split; [now apply Z.ltb_lt|apply cleanTerm_termChars].
  - unfold buildFTS5Query. fold (cleanTerms query).
    destruct (cleanTerms query) as [|t [|u r]]; split; congruence.
  - unfold buildFTS5Query. fold (cleanTerms query).
    destruct (cleanTerms query) as [|t [|u r]]; [congruence|reflexivity|reflexivity].
Qed.

(** *** One fused result per dedup key *)

Lemma insertDesc_Permutation {A} (key : A -> Q) x l :
  Permutation (insertDesc key x l) (x :: l).
Proof.
  induction l as [|y l IH]; cbn [insertDesc]; [reflexivity|].
  destruct (Recency.Qltb _ _); [|reflexivity].
  rewrite IH. apply perm_swap.
Qed.

Lemma sortDesc_Permutation {A} (key : A -> Q) l : Permutation (sortDesc key l) l.
Proof.
  induction l as [|x l IH]; [reflexivity|]. cbn [sortDesc fold_right].
  rewrite insertDesc_Permutation. now apply perm_skip.
Qed.

(** The keys of the [scores] map are distinct, and each entry sits under
    the key of its result. *)
Definition keyed (m : list (string * Entry)) : Prop :=
  NoDup (map fst m) /\ Forall (fun p => fst p = dedupKey (result (snd p))) m.

Lemma scoresGet_None key m : scoresGet key m = None -> ~ In key (map fst m).
Proof.
  induction m as [|[k e] m IH]; cbn [scoresGet map fst]; [now intros _ []|].
  destruct (String.eqb_spec k key) as [|Hne]; [discriminate|].
  intros H [E|Hin]; [congruence|now apply IH].
Qed.

Lemma scoresAlter_keys f key m : map fst (scoresAlter f key m) = map fst m.
Proof.
  induction m as [|[k e] m IH]; [reflexivity|]. cbn [scoresAlter].
  destruct (String.eqb k key); cbn [map fst]; [reflexivity|now rewrite IH].
Qed.

Lemma fuseResult_keyed w k rank r m : keyed m -> keyed (fuseResult w k rank r m).
Proof.
  intros [Hnd Hk]. unfold fuseResult.
  destruct (scoresGet (dedupKey r) m) eqn:E.
  - split; [now rewrite scoresAlter_keys|].
    clear Hnd E. induction Hk as [|[k0 e0] m He Hm IH]; cbn [scoresAlter];
      [constructor|].
    destruct (String.eqb k0 (dedupKey r)); constructor; auto.
  - apply scoresGet_None in E. split.
    + rewrite map_app. apply NoDup_app. split; [exact Hnd|]. split.
      * intros x Hx Hx'. apply list_elem_of_singleton in Hx'. subst x.
        now apply list_elem_of_In in Hx.
      * apply NoDup_singleton.
    + apply Forall_app. split; [exact Hk|]. now repeat constructor.
Qed.

Lemma fuseResult_keys w k rank r m key :
  In key (map fst m) \/ key = dedupKey r ->
  In key (map fst (fuseResult w k rank r m)).
Proof.
  unfold fuseResult. destruct (scoresGet (dedupKey r) m) eqn:E.
  - rewrite scoresAlter_keys. intros [H| ->]; [exact H|].
    destruct (in_dec string_dec (dedupKey r) (map fst m)) as [Hin|Hout]; [exact Hin|].
    exfalso. clear -E Hout. induction m as [|[k0 e0] m IH]; [discriminate|].
    cbn [scoresGet] in E. cbn [map fst] in Hout.
    destruct (String.eqb_spec k0 (dedupKey r)); [apply Hout; now left|].
    apply IH; [exact E|]. intros H. apply Hout. now right.
  - rewrite map_app. intros [H| ->]; apply in_or_app; [now left|right; now left].
Qed.

Lemma fuseList_keyed w k l : forall rank m,
  keyed m -> keyed (fuseList w k rank l m).
Proof.
  induction l as [|r l IH]; intros rank m Hm; cbn [fuseList]; [exact Hm|].
  now apply IH, fuseResult_keyed.
Qed.

Lemma fuseList_keys w k key l : forall rank m,
  In key (map fst m) \/ In key (map dedupKey l) ->
  In key (map fst (fuseList w k rank l m)).
Proof.
  induction l as [|r l IH]; intros rank m H; cbn [fuseList].
  - now destruct H.
  - apply IH. cbn [map] in H. destruct H as [H|[H|H]]; [left|left|now right];
      apply fuseResult_keys; auto.
Qed.

Lemma fuseLists_keyed weights k ls : forall idx m,
  keyed m -> keyed (fuseLists weights k idx ls m).
Proof.
  induction ls as [|l ls IH]; intros idx m Hm; cbn [fuseLists]; [exact Hm|].
  now apply IH, fuseList_keyed.
Qed.

Lemma fuseLists_keys weights k key ls : forall idx m,
  In key (map fst m) \/ (exists l, In l ls /\ In key (map dedupKey l)) ->
  In key (map fst (fuseLists weights k idx ls m)).
Proof.
  induction ls as [|l ls IH]; intros idx m H; cbn [fuseLists].
  - destruct H as [H|(l & [] & _)]. exact H.
  - apply IH. destruct H as [H|(l' & [<-|Hl'] & Hk)].
    + left. apply fuseList_keys. now left.
    + left. apply fuseList_keys. now right.
    + right. eauto.
Qed.

Lemma rrf_keys ls weights k :
  Permutation (map dedupKey (reciprocalRankFusion ls weights k))
              (map fst (fuseLists weights k 0 ls [])).
Proof.
  unfold reciprocalRankFusion.
  destruct (fuseLists_keyed weights k ls 0%nat []) as [_ Hk];
    [split; constructor|].
  rewrite !map_map. rewrite (Permutation_map _ (sortDesc_Permutation _ _)).
  rewrite map_map. apply Permutation_refl'.
  induction Hk as [|p m Hp Hm IH]; [reflexivity|]. cbn [map]. rewrite IH.
  f_equal. rewrite Hp. unfold dedupKey, withScore, bonus. cbn [r_text].
  destruct (topRank (snd p) =? 0); [reflexivity|].
  now destruct (topRank (snd p) <=? 2).
Qed.

(** X18. Reciprocal Rank Fusion returns exactly one result per dedup key
    (the first 200 characters of the text): no two fused results share a
    key, the key of every result of every input list is the key of a
    fused result, and every fused result is a result of an input list
    with a new score. *)
Theorem rrf_one_result_per_key ls weights k :
  NoDup (map dedupKey (reciprocalRankFusion ls weights k)) /\
  (forall l r, In l ls -> In r l ->
     In (dedupKey r) (map dedupKey (reciprocalRankFusion ls weights k))) /\
  (forall f, In f (reciprocalRankFusion ls weights k) ->
     exists l r, In l ls /\ In r l /\
       f = mkResult (r_text r) (r_role r) (r_score f) (r_source_type r)
             (r_source_id r) (r_agent_id r) (r_created_at r) (r_freshness r)).
Proof.
  split; [|split].
  - rewrite rrf_keys. apply fuseLists_keyed. split; constructor.
  - intros l r Hl Hr. eapply Permutation_in; [symmetry; apply rrf_keys|].
    apply fuseLists_keys. right. exists l. split; [exact Hl|]. now apply in_map.
  - assert (H : Forall (fun p => exists l r, In l ls /\ In r l /\ result (snd p) = r)
                  (fuseLists weights k 0 ls [])).
    { apply (fuseLists_results (fun r0 => exists l r, In l ls /\ In r l /\ r0 = r));
        [|constructor].
      apply List.Forall_forall. intros l Hl. apply List.Forall_forall. intros r Hr.
      eauto. }
    intros f Hf. unfold reciprocalRankFusion in Hf.
    apply in_map_iff in Hf as (e & <- & He).
    apply (Permutation_in _ (sortDesc_Permutation _ _)) in He.
    apply in_map_iff in He as (p & <- & Hp).
    rewrite List.Forall_forall in H. destruct (H p Hp) as (l & r & Hl & Hr & E).
    exists l, r. split; [exact Hl|]. split; [exact Hr|].
    unfold withScore, bonus. rewrite <- E.
    destruct (topRank (snd p) =? 0); [reflexivity|].
    now destruct (topRank (snd p) <=? 2).
Qed.

(** X12. Remembering the same text a second time stores a second active
    memory under the next id and no second chunk: the chunk tables and
    the LanceDB table stay as the first call left them, and the embedding
    provider is not asked (whatever it would answer). *)
Theorem remember_twice_one_chunk (sha256hex : string -> string)
    (embed embed2 : list string -> option (list vector)) (showNumber : Z -> string)
    now later lanceOk text category st id st1 now2 later2 lanceOk2 category2 :
  remember sha256hex embed showNumber now later lanceOk text category st
  = (Returns id, st1) ->
  exists st2,
    remember sha256hex embed2 showNumber now2 later2 lanceOk2 text category2 st1
    = (Returns (id + 1), st2) /\
    chunks (sqliteDb st2) = chunks (sqliteDb st1) /\
    chunks_fts (sqliteDb st2) = chunks_fts (sqliteDb st1) /\
    chunks_vec (sqliteDb st2) = chunks_vec (sqliteDb st1) /\
    chunksTable st2 = chunksTable st1 /\
    memories (sqliteDb st2) !! id = Some (newMemory now text category) /\
    memories (sqliteDb st2) !! (id + 1) = Some (newMemory now2 text category2).
Proof.
  intros Hrun.
  pose proof (remember_memories sha256hex embed showNumber now later lanceOk text
                category st) as (Hm & Hs & Hn).
  rewrite Hrun in Hm, Hs, Hn. cbn [fst snd] in *. specialize (Hn id eq_refl).
  assert (Hp : hashPresent (sqliteDb st1) (sha256hex text) = true).
  { unfold remember, insertMemory in Hrun.
    match type of Hrun with context [ingest _ _ _ _ ?b ?s] =>
      destruct (ingest sha256hex embed later lanceOk b s) as [[n|msg] st'] eqn:E end;
      [|discriminate].
    injection Hrun as _ <-.
    pose proof (ingest_returns_present _ _ _ _ _ _ _ _ E) as Hall.
    apply (Hall (memoryChunk showNumber now text (memories_seq (sqliteDb st) + 1))).
    now left. }
  unfold remember, insertMemory.
  match goal with |- context [ingest _ _ _ _ [?c] ?s] =>
    assert (Hret : ingest sha256hex embed2 later2 lanceOk2 [c] s = (Returns 0, s)) end.
  { unfold ingest, newChunksOf. cbn [List.filter sqliteDb Crystal.text memoryChunk].
    unfold hashPresent in *. cbn [chunks]. now rewrite Hp. }
  rewrite Hret, Hs, <- Hn. eexists. split; [reflexivity|].
  cbn [sqliteDb chunks chunks_fts chunks_vec chunks_seq memories memories_seq
       vecDimensions chunksTable].
  do 4 (split; [reflexivity|]). rewrite Hm, <- Hn. split.
  - rewrite lookup_insert_ne by lia. apply lookup_insert_eq.
  - apply lookup_insert_eq.
Qed.

(** *** Concrete runs *)

(** A second chunk, a provider that is down, one that answers with
    vectors of length 2, and the decimal form of a one-digit number. *)
Definition mergeRule : Chunk :=
  mkChunk "Merges need two approvals" "user" "conversation" "session-2" "main" 6
    "2026-02-11T00:00:00.000Z".

Definition downEmbed (_ : list string) : option (list vector) := None.

Definition pairEmbed (texts : list string) : option (list vector) :=
  Some (map (fun _ => [1%Q; 1%Q]) texts).

Definition oneDigit (n : Z) : string :=
  String (ascii_of_nat (48 + Z.to_nat n)) EmptyString.

Lemma aligned_emptyDb : aligned emptyDb.
Proof. repeat split; constructor. Defined.

Lemma aligned_oneChunkState : aligned (sqliteDb oneChunkState).
Proof.
  split; [reflexivity|]. split; [reflexivity|]. split; [apply NoDup_singleton|].
  split; [constructor; [vm_compute; discriminate|constructor]|].
  constructor; [reflexivity|constructor].
Defined.

Lemma ingest_keeps_tables_aligned_witness :
  aligned (sqliteDb (snd (ingest plainHash unitEmbed "2026-02-12T00:00:00.000Z" true
                            [shipPolicy; mergeRule] freshState))).
Proof.
  apply (ingest_keeps_tables_aligned plainHash unitEmbed "2026-02-12T00:00:00.000Z"
           true [shipPolicy; mergeRule] freshState).
  exact aligned_emptyDb.
Defined.

Lemma ingest_throw_writes_nothing_witness : sameRows oneChunkState oneChunkState.
Proof.
  apply (ingest_throw_writes_nothing plainHash downEmbed "2026-02-12T00:00:00.000Z"
           true [mergeRule] oneChunkState "embedding failed" oneChunkState).
  vm_compute. reflexivity.
Defined.

Lemma ingest_again_returns_zero_witness :
  ingest plainHash downEmbed "2026-02-13T00:00:00.000Z" false [shipPolicy; mergeRule]
    (snd (ingest plainHash unitEmbed "2026-02-12T00:00:00.000Z" true
            [shipPolicy; mergeRule] freshState))
  = (Returns 0,
     snd (ingest plainHash unitEmbed "2026-02-12T00:00:00.000Z" true
            [shipPolicy; mergeRule] freshState)).
Proof.
  apply (ingest_again_returns_zero plainHash unitEmbed "2026-02-12T00:00:00.000Z" true
           [shipPolicy; mergeRule] freshState 2).
  vm_compute. reflexivity.
Defined.

Lemma ingest_commits_witness :
  exists st',
    ingest plainHash unitEmbed "2026-02-12T00:00:00.000Z" true
      [shipPolicy; mergeRule] oneChunkState
    = (Returns (Z.of_nat (length (newChunksOf plainHash (sqliteDb oneChunkState)
                                    [shipPolicy; mergeRule]))), st') /\
    map row_text (chunks (sqliteDb st'))
    = map row_text (chunks (sqliteDb oneChunkState))
      ++ map text (newChunksOf plainHash (sqliteDb oneChunkState)
                     [shipPolicy; mergeRule]) /\
    map snd (vecRows (sqliteDb st'))
    = map snd (vecRows (sqliteDb oneChunkState)) ++ map Float32Array [[1%Q]] /\
    (true = true ->
     chunksTable st'
     = Some (match chunksTable oneChunkState with Some old => old | None => [] end
             ++ lanceRecords "2026-02-12T00:00:00.000Z"
                  (newChunksOf plainHash (sqliteDb oneChunkState)
                     [shipPolicy; mergeRule]) [[1%Q]])).
Proof.
  apply (ingest_commits plainHash unitEmbed "2026-02-12T00:00:00.000Z" true
           [shipPolicy; mergeRule] oneChunkState
           (mkVecTable 1 [(1, Float32Array [1%Q])]) [[1%Q]]).
  - exact aligned_oneChunkState.
  - reflexivity.
  - cbn. lia.
  - vm_compute. discriminate.
  - reflexivity.
  - reflexivity.
  - repeat constructor.
Defined.

Lemma ingest_rejects_other_dimension_witness :
  ingest plainHash pairEmbed "2026-02-12T00:00:00.000Z" true [mergeRule] oneChunkState
  = (Throws "transaction failed", oneChunkState).
Proof.
  apply (ingest_rejects_other_dimension plainHash pairEmbed "2026-02-12T00:00:00.000Z"
           true [mergeRule] oneChunkState (mkVecTable 1 [(1, Float32Array [1%Q])])
           [[1%Q; 1%Q]]).
  - reflexivity.
  - reflexivity.
  - vm_compute. discriminate.
  - reflexivity.
  - vm_compute. lia.
Defined.

Lemma remember_twice_one_chunk_witness :
  exists st2,
    remember plainHash downEmbed oneDigit "2026-02-13T00:00:00.000Z"
      "2026-02-13T00:00:00.001Z" true "Ship on Fridays" "preference"
      (snd (remember plainHash unitEmbed oneDigit "2026-02-12T00:00:00.000Z"
              "2026-02-12T00:00:00.001Z" true "Ship on Fridays" "fact" freshState))
    = (Returns (1 + 1), st2) /\
    chunks (sqliteDb st2)
    = chunks (sqliteDb (snd (remember plainHash unitEmbed oneDigit
                               "2026-02-12T00:00:00.000Z" "2026-02-12T00:00:00.001Z"
                               true "Ship on Fridays" "fact" freshState))) /\
    chunks_fts (sqliteDb st2)
    = chunks_fts (sqliteDb (snd (remember plainHash unitEmbed oneDigit
                                   "2026-02-12T00:00:00.000Z" "2026-02-12T00:00:00.001Z"
                                   true "Ship on Fridays" "fact" freshState))) /\
    chunks_vec (sqliteDb st2)
    = chunks_vec (sqliteDb (snd (remember plainHash unitEmbed oneDigit
                                   "2026-02-12T00:00:00.000Z" "2026-02-12T00:00:00.001Z"
                                   true "Ship on Fridays" "fact" freshState))) /\
    chunksTable st2
    = chunksTable (snd (remember plainHash unitEmbed oneDigit
                          "2026-02-12T00:00:00.000Z" "2026-02-12T00:00:00.001Z"
                          true "Ship on Fridays" "fact" freshState)) /\
    memories (sqliteDb st2) !! 1
    = Some (newMemory "2026-02-12T00:00:00.000Z" "Ship on Fridays" "fact") /\
    memories (sqliteDb st2) !! (1 + 1)
    = Some (newMemory "2026-02-13T00:00:00.000Z" "Ship on Fridays" "preference").
Proof.
  apply (remember_twice_one_chunk plainHash unitEmbed downEmbed oneDigit
           "2026-02-12T00:00:00.000Z" "2026-02-12T00:00:00.001Z" true
           "Ship on Fridays" "fact" freshState 1 _
           "2026-02-13T00:00:00.000Z" "2026-02-13T00:00:00.001Z" true
           "preference").
  vm_compute. reflexivity.
Defined.

Lemma active_memories_counted_witness :
  activeMemories
    (sqliteDb (snd (remember plainHash downEmbed oneDigit "2026-02-12T00:00:00.000Z"
                      "2026-02-12T00:00:00.001Z" true "Ship on Fridays" "fact"
                      freshState)))
  = S (activeMemories (sqliteDb freshState)).
Proof.
  apply (active_memories_counted plainHash downEmbed oneDigit
           "2026-02-12T00:00:00.000Z" "2026-02-12T00:00:00.001Z" true
           "Ship on Fridays" "fact" freshState).
  intros id m E. vm_compute in E. discriminate E.
Defined.

(** The store after both chunks were ingested, a [Date] that reads every
    string as the epoch, and what a search with a limit of 1 returns. *)
Definition twoChunkState : State :=
  snd (ingest plainHash unitEmbed "2026-02-12T00:00:00.000Z" true
         [shipPolicy; mergeRule] freshState).

Definition allEpoch (_ : string) : option Z := Some 0.

Lemma allEpoch_datesRead st : datesRead firstRecords allEpoch st.
Proof.
  split.
  - apply List.Forall_forall. intros r _. right. now exists 0.
  - intros table v k clauses rows _ _. apply List.Forall_forall. intros p _.
    right. now exists 0.
Defined.

Definition topResult : list SearchResult :=
  match search unitEmbed firstRows noMatch firstRecords (getTimeOf allEpoch) 0
          twoChunkState "merge policy" 1 None with
  | Returns rs => rs
  | Throws _ => []
  end.

Lemma search_ranked_and_limited_witness :
  Z.of_nat (length topResult) <= 1 /\ descending r_score topResult.
Proof.
  destruct (search_ranked_and_limited unitEmbed firstRows noMatch firstRecords
              allEpoch 0 twoChunkState "merge policy" 1 None topResult)
    as [Hlimit Horder].
  - vm_compute. reflexivity.
  - split; [apply Hlimit; lia|apply Horder, allEpoch_datesRead].
Defined.

Lemma recencyWeight_decay_witness :
  (Recency.recencyWeight 70 <= Recency.recencyWeight 60)%Q /\
  (Recency.recencyWeight 60 == 1 # 2)%Q.
Proof.
  destruct (recencyWeight_decay 60 70) as (_ & _ & _ & Hmono & Hfloor).
  split; [apply Hmono|apply Hfloor]; vm_compute; discriminate.
Defined.

Lemma search_hybrid_scores_unit_witness :
  Forall (fun r => (0 < r_score r /\ r_score r <= 1)%Q) topResult.
Proof.
  apply (search_hybrid_scores_unit unitEmbed firstRows noMatch firstRecords allEpoch
           0 twoChunkState "merge policy" 1 None topResult).
  - apply allEpoch_datesRead.
  - reflexivity.
  - vm_compute. reflexivity.
Defined.

End CrystalFacts.

(* ===================================================================== *)
(** ** The embedding requests ([core.ts], Crystal.embed)                  *)
(* ===================================================================== *)

Module Embedding.

Definition vector := Crystal.vector.

(** The fields of [CrystalConfig] that [embed] reads. *)
Record Config := mkConfig {
  embeddingProvider : string;
  openaiApiKey : option string;
  openaiModel : option string;
  ollamaHost : option string;
  ollamaModel : option string;
  googleApiKey : option string;
  googleModel : option string
}.

(** [a || b] on an optional string. *)
Definition orDefault (o : option string) (d : string) : string :=
  match o with
  | Some s => if JS.truthy s then s else d
  | None => d
  end.

(** [!key] *)
Definition missing (o : option string) : bool :=
  match o with Some s => negb (JS.truthy s) | None => true end.

Definition maxCharsPerBatch : Z := 800000.

Definition totalChars (batch : list string) : Z :=
  fold_right (fun t n => JS.len t + n) 0 batch.

Section Providers.

(** The three HTTP clients: the answer to one request, [None] when the
    request is rejected; the arguments after the texts are the key (or
    host) and the model. *)
Variable embedOpenAI : list string -> string -> string -> option (list vector).
Variable embedOllama : list string -> string -> string -> option (list vector).
Variable embedGoogle : list string -> string -> string -> option (list vector).

(** The loop of lines 464-472 and the last request of lines 473-475, with
    the requests sent so far, oldest first. *)
Fixpoint subBatch (key model : string) (texts : list string)
    (results : list vector) (batch : list string) (batchChars : Z)
    (sent : list (list string)) : outcome (list vector) * list (list string) :=
  match texts with
  | [] =>
      if (0 <? Z.of_nat (length batch)) then
        match embedOpenAI batch key model with
        | Some vs => (Returns (results ++ vs), sent ++ [batch])
        | None => (Throws "OpenAI API error", sent ++ [batch])
        end
      else (Returns results, sent)
  | text :: rest =>
      if (maxCharsPerBatch <? batchChars + JS.len text)
         && (0 <? Z.of_nat (length batch))
      then
        match embedOpenAI batch key model with
        | Some vs =>
            subBatch key model rest (results ++ vs) [text] (0 + JS.len text)
              (sent ++ [batch])
        | None => (Throws "OpenAI API error", sent ++ [batch])
        end
      else
        subBatch key model rest results (batch ++ [text]) (batchChars + JS.len text)
          sent
  end.

(** [Crystal.embed]: the result and the requests sent to OpenAI. *)
Definition embed (cfg : Config) (texts : list string)
    : outcome (list vector) * list (list string) :=
  match texts with
  | [] => (Returns [], [])
  | _ =>
      if String.eqb (embeddingProvider cfg) "openai" then
        if missing (openaiApiKey cfg) then (Throws "OpenAI API key required", [])
        else
          subBatch (orDefault (openaiApiKey cfg) EmptyString)
            (orDefault (openaiModel cfg) "text-embedding-3-small")
            texts [] [] 0 []
      else if String.eqb (embeddingProvider cfg) "ollama" then
        match embedOllama texts (orDefault (ollamaHost cfg) "http://localhost:11434")
                (orDefault (ollamaModel cfg) "nomic-embed-text") with
        | Some vs => (Returns vs, [])
        | None => (Throws "Ollama error", [])
        end
      else if String.eqb (embeddingProvider cfg) "google" then
        if missing (googleApiKey cfg) then (Throws "Google API key required", [])
        else
          match embedGoogle texts (orDefault (googleApiKey cfg) EmptyString)
                  (orDefault (googleModel cfg) "text-embedding-004") with
          | Some vs => (Returns vs, [])
          | None => (Throws "Google API error", [])
          end
      else (Throws "Unknown embedding provider", [])
  end.

(** A request is well sized when it is not empty and either stays within
    the character budget or holds a single text. *)
Definition wellSized (batch : list string) : Prop :=
  batch <> [] /\ (totalChars batch <= maxCharsPerBatch \/ length batch = 1%nat).

(** The answers to a list of requests, in order, when all are accepted. *)
Fixpoint answers (key model : string) (requests : list (list string))
    : option (list vector) :=
  match requests with
  | [] => Some []
  | b :: rest =>
      match embedOpenAI b key model, answers key model rest with
      | Some vs, Some ws => Some (vs ++ ws)
      | _, _ => None
      end
  end.

Lemma totalChars_snoc batch t : totalChars (batch ++ [t]) = totalChars batch + JS.len t.
Proof.
  induction batch as [|b batch IH]; cbn [totalChars app fold_right]; [lia|].
  fold (totalChars (batch ++ [t])). fold (totalChars batch). lia.
Qed.

Lemma answers_snoc key model requests b :
  answers key model (requests ++ [b])
  = match answers key model requests, embedOpenAI b key model with
    | Some vs, Some ws => Some (vs ++ ws)
    | _, _ => None
    end.
Proof.
  induction requests as [|r requests IH]; cbn [answers app].
  - destruct (embedOpenAI b key model); [now rewrite app_nil_r|reflexivity].
  - rewrite IH. destruct (embedOpenAI r key model); [|reflexivity].
    destruct (answers key model requests); [|reflexivity].
    destruct (embedOpenAI b key model); [now rewrite app_assoc|reflexivity].
Qed.

(** The invariant of the loop: the requests sent and the batch in the
    making hold the texts read so far, in order; [batchChars] is the size
    of the batch, which fits a request; [results] are the answers. *)
Lemma subBatch_spec key model texts : forall results batch batchChars sent done,
  concat sent ++ batch = done ->
  batchChars = totalChars batch ->
  Forall wellSized sent ->
  (batch = [] \/ wellSized batch) ->
  answers key model sent = Some results ->
  let out := subBatch key model texts results batch batchChars sent in
  Forall wellSized (snd out) /\
  (forall vs, fst out = Returns vs ->
     concat (snd out) = done ++ texts /\ answers key model (snd out) = Some vs).
Proof.
  induction texts as [|text rest IH];
    intros results batch batchChars sent done Hdone Hchars Hsent Hbatch Hans;
    cbn [subBatch].
  - destruct batch as [|b0 batch0].
    + cbn. split; [exact Hsent|]. intros vs [= <-].
      rewrite app_nil_r in *. now split.
    + change (0 <? Z.of_nat (length (b0 :: batch0))) with true. cbn iota.
      destruct Hbatch as [|Hb]; [discriminate|].
      destruct (embedOpenAI (b0 :: batch0) key model) as [vs0|] eqn:E; cbn [fst snd].
      * split; [apply Forall_app; split; [exact Hsent|now constructor]|].
        intros vs [= <-]. rewrite concat_app. cbn [concat].
        rewrite !app_nil_r, answers_snoc, Hans, E. now split.
      * split; [apply Forall_app; split; [exact Hsent|now constructor]|].
        intros vs [=].
  - destruct ((maxCharsPerBatch <? batchChars + JS.len text)
              && (0 <? Z.of_nat (length batch))) eqn:C.
    + apply andb_true_iff in C as [_ Hne%Z.ltb_lt].
      destruct Hbatch as [->|Hb]; [cbn in Hne; lia|].
      destruct (embedOpenAI batch key model) as [vs0|] eqn:E.
      * specialize (IH (results ++ vs0) [text] (0 + JS.len text)
                      (sent ++ [batch]) (done ++ [text])).
        rewrite <- app_assoc in IH. apply IH.
        -- rewrite concat_app. cbn [concat]. now rewrite app_nil_r, Hdone.
        -- cbn. lia.
        -- apply Forall_app; split; [exact Hsent|now constructor].
        -- right. split; [discriminate|now right].
        -- now rewrite answers_snoc, Hans, E.
      * cbn [fst snd]. split;
          [apply Forall_app; split; [exact Hsent|now constructor]|].
        intros vs [=].
    + specialize (IH results (batch ++ [text]) (batchChars + JS.len text) sent
                    (done ++ [text])).
      rewrite <- app_assoc in IH. apply IH.
      * now rewrite app_assoc, Hdone.
      * rewrite totalChars_snoc. lia.
      * exact Hsent.
      * right. split; [now destruct batch|].
        apply andb_false_iff in C as [Hfit%Z.ltb_ge|Hempty%Z.ltb_ge].
        -- left. rewrite totalChars_snoc. lia.
        -- right. destruct batch; [reflexivity|cbn in Hempty; lia].
      * exact Hans.
Qed.

(** A throw of the loop comes from a request that was sent and rejected. *)
Lemma subBatch_throws key model texts : forall results batch batchChars sent msg,
  fst (subBatch key model texts results batch batchChars sent) = Throws msg ->
  exists b, In b (snd (subBatch key model texts results batch batchChars sent)) /\
            embedOpenAI b key model = None.
Proof.
  induction texts as [|text rest IH]; intros results batch batchChars sent msg;
    cbn [subBatch].
  - destruct (0 <? Z.of_nat (length batch)); [|discriminate].
    destruct (embedOpenAI batch key model) eqn:E; [discriminate|]. cbn [fst snd].
    intros _. exists batch. split; [|exact E]. apply in_or_app. right. now left.
  - destruct (_ && _); [|apply IH].
    destruct (embedOpenAI batch key model) eqn:E; [apply IH|]. cbn [fst snd].
    intros _. exists batch. split; [|exact E]. apply in_or_app. right. now left.
Qed.

Lemma answers_pointwise key model (f : string -> vector) requests :
  Forall (fun b => embedOpenAI b key model = Some (map f b)) requests ->
  answers key model requests = Some (map f (concat requests)).
Proof.
  induction 1 as [|b requests Hb Hrest IH]; [reflexivity|].
  cbn [answers concat]. now rewrite Hb, IH, map_app.
Qed.

(** X19. With the OpenAI provider, every request that [embed] sends,
    also before a throw, is not empty and stays within 800000 characters
    unless it holds a single text. When [embed] returns, the requests it
    sent hold the texts in order, each exactly once, and the result is
    the answers to these requests, concatenated in order. *)
Theorem embed_openai_requests cfg texts :
  embeddingProvider cfg = "openai" ->
  Forall wellSized (snd (embed cfg texts)) /\
  (forall vs, fst (embed cfg texts) = Returns vs ->
     concat (snd (embed cfg texts)) = texts /\
     answers (orDefault (openaiApiKey cfg) EmptyString)
       (orDefault (openaiModel cfg) "text-embedding-3-small")
       (snd (embed cfg texts)) = Some vs).
Proof.
  intros Hp. unfold embed. rewrite Hp. change ("openai" =? "openai")%string with true.
  destruct texts as [|t0 texts0]; [cbn; split; [constructor|now intros vs [= <-]]|].
  cbn iota. destruct (missing (openaiApiKey cfg));
    [cbn; split; [constructor|discriminate]|].
  apply (subBatch_spec _ _ (t0 :: texts0) [] [] 0 [] []);
    try reflexivity; [constructor|now left].
Qed.

(** X20. Sub-batching is transparent: if OpenAI answers every well-sized
    request with one vector per text, the same for a text in whatever
    request it travels, then [embed] returns exactly one vector per input
    text, in the order of the texts. *)
Theorem embed_openai_pointwise cfg (f : string -> vector) texts :
  embeddingProvider cfg = "openai" ->
  missing (openaiApiKey cfg) = false ->
  (forall b, wellSized b ->
     embedOpenAI b (orDefault (openaiApiKey cfg) EmptyString)
       (orDefault (openaiModel cfg) "text-embedding-3-small") = Some (map f b)) ->
  fst (embed cfg texts) = Returns (map f texts).
Proof.
  intros Hp Hkey Hf. unfold embed. rewrite Hp, Hkey.
  change ("openai" =? "openai")%string with true.
  destruct texts as [|t0 texts0]; [reflexivity|]. cbn iota.
  set (key := orDefault (openaiApiKey cfg) EmptyString) in *.
  set (model := orDefault (openaiModel cfg) "text-embedding-3-small") in *.
  destruct (subBatch_spec key model (t0 :: texts0) [] [] 0 [] [])
    as [Hsized Hret]; try reflexivity; [constructor|now left|].
  destruct (fst (subBatch key model (t0 :: texts0) [] [] 0 [])) as [vs|msg] eqn:E.
  - destruct (Hret vs eq_refl) as [Hcat Hans].
    rewrite (answers_pointwise _ _ f) in Hans.
    + rewrite Hcat in Hans. now injection Hans as <-.
    + revert Hsized. apply List.Forall_impl. exact Hf.
  - exfalso. apply subBatch_throws in E as (b & Hin & Hnone).
    rewrite List.Forall_forall in Hsized. rewrite (Hf b (Hsized b Hin)) in Hnone.
    discriminate.
Qed.

End Providers.

(** A configuration for OpenAI and a provider that answers every text
    with a vector of its length. *)
Definition openaiConfig : Config :=
  mkConfig "openai" (Some "sk-test") None None None None None.

Definition lengthVector (t : string) : vector := [inject_Z (JS.len t)].

Definition lengthProvider (batch : list string) (_ _ : string)
    : option (list vector) :=
  Some (map lengthVector batch).

Definition noProvider (_ : list string) (_ _ : string) : option (list vector) :=
  None.

Lemma embed_openai_requests_witness :
  Forall wellSized
    (snd (embed lengthProvider noProvider noProvider openaiConfig ["one"; "three"])).
Proof.
  apply (embed_openai_requests lengthProvider noProvider noProvider openaiConfig
           ["one"; "three"]).
  reflexivity.
Defined.

Lemma embed_openai_pointwise_witness :
  fst (embed lengthProvider noProvider noProvider openaiConfig ["one"; "three"])
  = Returns (map lengthVector ["one"; "three"]).
Proof.
  apply (embed_openai_pointwise lengthProvider noProvider noProvider openaiConfig
           lengthVector ["one"; "three"]).
  - reflexivity.
  - reflexivity.
  - intros b _. reflexivity.
Defined.

End Embedding.

(* ===================================================================== *)
(** ** More about the dead drop ([worker.ts])                             *)
(* ===================================================================== *)

Module WorkerFacts.
Import Encoding Worker.

Definition maxBlobBytes : Z := 100 * 1024 * 1024.

(** The test of the sweep, lines 201-202, on an object. *)
Definition expired (getTime : string -> Z) (cutoff : Z) (obj : R2Object) : bool :=
  match customMetadata obj with
  | Some m => JS.truthy (md_dropped_at m) && (getTime (md_dropped_at m) <? cutoff)
  | None => false
  end.

(** A list in ascending order of its keys. *)
Fixpoint ascendingKeys (l : list (string * R2Object)) : Prop :=
  match l with
  | [] => True
  | e :: r =>
      match r with
      | [] => True
      | y :: _ => String.leb (fst e) (fst y) = true
      end /\ ascendingKeys r
  end.

Lemma insertKey_Permutation e l : Permutation (insertKey e l) (e :: l).
Proof.
  induction l as [|y l IH]; cbn [insertKey]; [reflexivity|].
  destruct (String.leb _ _); [reflexivity|]. rewrite IH. apply perm_swap.
Qed.

Lemma sortKeys_Permutation l : Permutation (sortKeys l) l.
Proof.
  induction l as [|e l IH]; [reflexivity|]. cbn [sortKeys fold_right].
  rewrite insertKey_Permutation. now apply perm_skip.
Qed.

Lemma insertKey_ascending e l : ascendingKeys l -> ascendingKeys (insertKey e l).
Proof.
  induction l as [|y l IH]; cbn [insertKey]; [now split|].
  intros Hl. destruct (String.leb (fst e) (fst y)) eqn:E; [now split|].
  assert (Hye : String.leb (fst y) (fst e) = true).
  { destruct (String.leb_total (fst e) (fst y)); congruence. }
  cbn [ascendingKeys] in Hl. destruct Hl as [Hy Hl]. specialize (IH Hl).
  destruct l as [|z l]; cbn [insertKey] in *; [now repeat split|].
  destruct (String.leb (fst e) (fst z)); now split.
Qed.

Lemma sortKeys_ascending l : ascendingKeys (sortKeys l).
Proof.
  induction l as [|e l IH]; [exact I|]. now apply insertKey_ascending.
Qed.

Lemma take_ascending n : forall l, ascendingKeys l -> ascendingKeys (take n l).
Proof.
  induction n as [|n IH]; intros [|e l]; cbn [take]; try easy.
  intros [He Hl]. specialize (IH l Hl).
  destruct l as [|y l]; destruct n; cbn [take ascendingKeys] in *; now repeat split.
Qed.

Lemma map_ascending (f : R2Object -> R2Object) l :
  ascendingKeys l -> ascendingKeys (map (fun e => (fst e, f (snd e))) l).
Proof.
  induction l as [|e l IH]; [easy|]. intros [He Hl]. specialize (IH Hl).
  destruct l as [|y l]; now split.
Qed.

Section Handlers.

Variable showNumber : Z -> string.
Variable getTime : string -> Z.
Variable listWithMetadata : bool.

(** X21. [handleDrop] stores the blob exactly when the channel is valid
    and the payload has between 1 byte and 100 MiB; otherwise it answers
    400 (invalid channel, empty payload) or 413 (too large, on a valid
    channel only) and leaves the bucket as it was. *)
Theorem handleDrop_validates bucket agentId channel content uuid now :
  let out := handleDrop showNumber bucket agentId channel content uuid now in
  let size := Z.of_nat (length content) in
  (status (fst out) = 200 <->
   isValidChannel channel = true /\ 0 < size <= maxBlobBytes) /\
  (status (fst out) = 413 <->
   isValidChannel channel = true /\ maxBlobBytes < size) /\
  (status (fst out) <> 200 ->
   snd out = bucket /\ (status (fst out) = 400 \/ status (fst out) = 413)).
Proof.
  cbv zeta. unfold handleDrop, maxBlobBytes.
  destruct (isValidChannel channel); cbn [negb].
  - destruct (Z.eqb_spec (Z.of_nat (length content)) 0) as [E|E].
    + cbn. repeat split; try lia; try discriminate; try tauto; intros; lia.
    + destruct (Z.ltb_spec (100 * 1024 * 1024) (Z.of_nat (length content))).
      * cbn. repeat split; try lia; try discriminate; try tauto; intros; lia.
      * cbn. repeat split; try lia; try discriminate; try tauto; intros; lia.
  - cbn. repeat split; try discriminate; try tauto; intros; try lia;
      destruct_and?; discriminate.
Qed.

(** X22. What is dropped is what is picked up: after an accepted drop,
    the pickup of the returned id answers 200 with the same bytes, the
    agent id of the dropper and the time of the drop, and no other object
    of the bucket has changed. *)
Theorem drop_then_pickup bucket agentId channel content uuid now :
  isValidChannel channel = true ->
  0 < Z.of_nat (length content) <= maxBlobBytes ->
  let bucket' := snd (handleDrop showNumber bucket agentId channel content uuid now) in
  fst (handleDrop showNumber bucket agentId channel content uuid now)
  = json (DropJson uuid channel (Z.of_nat (length content)) now) 200 /\
  handlePickup bucket' channel uuid
  = (mkResponse 200 (Stream content (orElse agentId "unknown") now), bucket') /\
  (forall key, key <> keyOf channel uuid -> bucket' !! key = bucket !! key).
Proof.
  intros Hv Hsize. cbv zeta. unfold handleDrop, maxBlobBytes in *. rewrite Hv.
  cbn [negb].
  destruct (Z.eqb_spec (Z.of_nat (length content)) 0); [lia|].
  destruct (Z.ltb_spec (100 * 1024 * 1024) (Z.of_nat (length content))); [lia|].
  cbn [fst snd]. split; [reflexivity|]. split.
  - unfold handlePickup. rewrite Hv. cbn [negb]. now rewrite lookup_insert_eq.
  - intros key Hkey. now apply lookup_insert_ne.
Qed.

(** *** The listing and the sweep *)

Lemma sweepObject_expired cutoff (bucket : Bucket) entry :
  sweepObject getTime cutoff bucket entry
  = if expired getTime cutoff (snd entry) then delete (fst entry) bucket else bucket.
Proof. unfold sweepObject, expired. now destruct (customMetadata (snd entry)). Qed.

(** An object that is not expired is not listed as expired; and without
    metadata nothing is. *)
Lemma expired_listed cutoff obj :
  expired getTime cutoff (listed listWithMetadata obj) = true ->
  listWithMetadata = true /\ expired getTime cutoff obj = true.
Proof. unfold listed. now destruct listWithMetadata. Qed.

(** The keys under a prefix, before they are put in order. *)
Definition under (bucket : Bucket) (pre : string) : list (string * R2Object) :=
  List.filter (fun e => String.prefix pre (fst e)) (map_to_list bucket).

Lemma under_In (bucket : Bucket) pre key obj :
  In (key, obj) (under bucket pre)
  <-> bucket !! key = Some obj /\ String.prefix pre key = true.
Proof.
  unfold under. rewrite filter_In, <- list_elem_of_In, elem_of_map_to_list. easy.
Qed.

Lemma under_length (bucket : Bucket) pre : (length (under bucket pre) <= size bucket)%nat.
Proof.
  unfold under. rewrite <- length_map_to_list. apply filter_length_le.
Qed.

(** Listed entries describe objects of the bucket, under the prefix. *)
Lemma listPrefix_In (bucket : Bucket) pre key o :
  In (key, o) (listPrefix listWithMetadata bucket pre) ->
  String.prefix pre key = true /\
  exists obj, bucket !! key = Some obj /\ o = listed listWithMetadata obj.
Proof.
  unfold listPrefix. fold (under bucket pre).
  intros ([k obj] & [= <- <-] & H)%in_map_iff.
  apply list_elem_of_In, elem_of_take in H as (i & H & _).
  apply list_elem_of_lookup_2, list_elem_of_In in H.
  apply (Permutation_in _ (sortKeys_Permutation _)), under_In in H as [Hk Hp].
  cbn [fst snd]. eauto.
Qed.

Lemma listPrefix_complete (bucket : Bucket) pre key obj :
  (size bucket <= 1000)%nat ->
  bucket !! key = Some obj -> String.prefix pre key = true ->
  In (key, listed listWithMetadata obj) (listPrefix listWithMetadata bucket pre).
Proof.
  intros Hsize Hk Hp. unfold listPrefix. fold (under bucket pre).
  apply in_map_iff. exists (key, obj). split; [reflexivity|].
  rewrite take_ge.
  - apply (Permutation_in _ (Permutation_sym (sortKeys_Permutation _))).
    now apply under_In.
  - rewrite (Permutation_length (sortKeys_Permutation _)).
    pose proof (under_length bucket pre). lia.
Qed.

Lemma listPrefix_length (bucket : Bucket) pre :
  (length (listPrefix listWithMetadata bucket pre) <= 1000)%nat.
Proof. unfold listPrefix. rewrite length_map, length_take. lia. Qed.

Lemma listPrefix_ascending (bucket : Bucket) pre :
  ascendingKeys (listPrefix listWithMetadata bucket pre).
Proof.
  unfold listPrefix. apply map_ascending, take_ascending, sortKeys_ascending.
Qed.

(** A sweep over entries that do not hold an expired [key] keeps it. *)
Lemma sweepAll_keeps cutoff key obj entries : forall bucket : Bucket,
  Forall (fun e => fst e = key -> expired getTime cutoff (snd e) = false) entries ->
  bucket !! key = Some obj ->
  fold_left (sweepObject getTime cutoff) entries bucket !! key = Some obj.
Proof.
  induction entries as [|e entries IH]; intros bucket He Hk; [exact Hk|].
  apply Forall_cons in He as [He Hes]. cbn [fold_left]. apply IH; [exact Hes|].
  rewrite sweepObject_expired. destruct (expired getTime cutoff (snd e)) eqn:Ex;
    [|exact Hk].
  rewrite lookup_delete_ne; [exact Hk|]. intros E. apply He in E. congruence.
Qed.

Lemma sweepChannel_keeps cutoff key obj (bucket : Bucket) pre :
  bucket !! key = Some obj ->
  expired getTime cutoff obj = false \/ String.prefix pre key = false ->
  fold_left (sweepObject getTime cutoff) (listPrefix listWithMetadata bucket pre) bucket
    !! key
  = Some obj.
Proof.
  intros Hk Hsafe. apply sweepAll_keeps; [|exact Hk].
  apply List.Forall_forall. intros [k o] Hin Ek. cbn [fst snd] in *. subst k.
  apply listPrefix_In in Hin as (Hp & obj' & Ho & ->).
  destruct (expired getTime cutoff (listed listWithMetadata obj')) eqn:Ex;
    [|reflexivity].
  apply expired_listed in Ex as [_ Ex].
  destruct Hsafe as [Hfresh|Hout]; congruence.
Qed.

(** X23. The sweep keeps every object that was dropped less than 24
    hours ago, every object without a [dropped_at] in its metadata, and
    every object outside the two channels. *)
Theorem scheduled_keeps_unexpired (bucket : Bucket) now key obj :
  bucket !! key = Some obj ->
  expired getTime (now - 24 * 60 * 60 * 1000) obj = false \/
  (String.prefix "conversations/" key = false /\ String.prefix "mirror/" key = false) ->
  scheduled getTime listWithMetadata bucket now !! key = Some obj.
Proof.
  intros Hk Hsafe. unfold scheduled. cbn [fold_left VALID_CHANNELS].
  apply sweepChannel_keeps; [apply sweepChannel_keeps; [exact Hk|]|];
    destruct Hsafe as [H|[H1 H2]]; auto.
Qed.

Lemma sweepAll_subseteq cutoff entries : forall bucket : Bucket,
  fold_left (sweepObject getTime cutoff) entries bucket ⊆ bucket.
Proof.
  induction entries as [|e entries IH]; intros bucket; [reflexivity|].
  cbn [fold_left]. etransitivity; [apply IH|]. rewrite sweepObject_expired.
  destruct (expired _ _ _); [apply delete_subseteq|reflexivity].
Qed.

(** A sweep over entries none of which is listed as expired deletes
    nothing. *)
Lemma sweepAll_inert cutoff entries : forall bucket : Bucket,
  Forall (fun e => expired getTime cutoff (snd e) = false) entries ->
  fold_left (sweepObject getTime cutoff) entries bucket = bucket.
Proof.
  induction entries as [|e entries IH]; intros bucket He; [reflexivity|].
  apply Forall_cons in He as [He Hes]. cbn [fold_left].
  rewrite sweepObject_expired, He. now apply IH.
Qed.

Lemma sweepChannel_inert cutoff (bucket : Bucket) pre :
  listWithMetadata = false ->
  fold_left (sweepObject getTime cutoff) (listPrefix listWithMetadata bucket pre) bucket
  = bucket.
Proof.
  intros Hflag. apply sweepAll_inert, List.Forall_forall.
  intros [k o] Hin. cbn [snd].
  apply listPrefix_In in Hin as (_ & obj & _ & ->).
  destruct (expired getTime cutoff (listed listWithMetadata obj)) eqn:Ex;
    [|reflexivity].
  apply expired_listed in Ex as [Ex _]. congruence.
Qed.

(** X24. The sweep only deletes: what is in the bucket afterwards was
    there before, unchanged. And where the platform honours [include],
    the listing of line 199, which names no [include], carries no
    [customMetadata]: [droppedAt] is undefined for every listed object
    and the sweep deletes nothing, however long ago the blobs were
    dropped. *)
Theorem scheduled_deletes_nothing_without_metadata (bucket : Bucket) now :
  scheduled getTime listWithMetadata bucket now ⊆ bucket /\
  (listWithMetadata = false -> scheduled getTime listWithMetadata bucket now = bucket).
Proof.
  unfold scheduled. cbn [fold_left VALID_CHANNELS]. split.
  - etransitivity; apply sweepAll_subseteq.
  - intros Hflag. now rewrite !sweepChannel_inert.
Qed.

(** X25. The listing of a valid channel is read-only; it describes at
    most 1000 objects, in ascending order of their keys, each of them
    stored under the prefix of the channel, by the second part of its key
    and the length of its body. Where the platform honours [include], the
    listing of line 95 carries no [customMetadata]: every blob is
    described with the upload time of its object as [dropped_at] and the
    agent [unknown], whatever [handleDrop] recorded; and there, in a
    bucket of at most 1000 objects, every object under the prefix is
    listed. *)
Theorem handlePickupList_lists bucket channel :
  isValidChannel channel = true ->
  exists entries,
    handlePickupList listWithMetadata bucket channel
    = (json (ListJson channel (Z.of_nat (length entries)) (map blobInfo entries)) 200,
       bucket) /\
    (length entries <= 1000)%nat /\
    ascendingKeys entries /\
    (forall key o, In (key, o) entries ->
       String.prefix (channel ++ "/") key = true /\
       exists obj,
         bucket !! key = Some obj /\
         b_id (blobInfo (key, o)) = secondPart key /\
         b_size (blobInfo (key, o)) = Z.of_nat (length (body obj)) /\
         (listWithMetadata = false ->
          b_dropped_at (blobInfo (key, o)) = uploaded obj /\
          b_agent_id (blobInfo (key, o)) = "unknown")) /\
    (listWithMetadata = false -> (size bucket <= 1000)%nat ->
     forall key obj,
       bucket !! key = Some obj -> String.prefix (channel ++ "/") key = true ->
       In (mkBlobInfo (secondPart key) (Z.of_nat (length (body obj))) (uploaded obj)
             "unknown")
          (map blobInfo entries)).
Proof.
  intros Hv. unfold handlePickupList. rewrite Hv. cbn [negb].
  exists (listPrefix listWithMetadata bucket (channel ++ "/")).
  rewrite length_map. split; [reflexivity|].
  split; [apply listPrefix_length|]. split; [apply listPrefix_ascending|]. split.
  - intros key o Hin. apply listPrefix_In in Hin as (Hp & obj & Hk & ->).
    split; [exact Hp|]. exists obj. split; [exact Hk|].
    unfold listed. destruct listWithMetadata; cbn; repeat split; discriminate.
  - intros Hflag Hsize key obj Hk Hp.
    apply in_map_iff. exists (key, listed listWithMetadata obj).
    split; [|now apply listPrefix_complete].
    rewrite Hflag. reflexivity.
Qed.

End Handlers.

(** *** Concrete runs *)

Lemma drop_then_pickup_witness :
  fst (handleDrop (fun _ => "10") ∅ "cc-air" "conversations" tenBytes "X"
         "2026-02-10T00:00:00.000Z")
  = json (DropJson "X" "conversations" (Z.of_nat (length tenBytes))
            "2026-02-10T00:00:00.000Z") 200 /\
  handlePickup droppedBucket "conversations" "X"
  = (mkResponse 200 (Stream tenBytes (orElse "cc-air" "unknown")
                       "2026-02-10T00:00:00.000Z"), droppedBucket) /\
  (forall key, key <> keyOf "conversations" "X" ->
     droppedBucket !! key = (∅ : Bucket) !! key).
Proof.
  apply (drop_then_pickup (fun _ => "10") ∅ "cc-air" "conversations" tenBytes "X"
           "2026-02-10T00:00:00.000Z").
  - reflexivity.
  - vm_compute. split; [reflexivity|discriminate].
Defined.

Lemma scheduled_keeps_unexpired_witness :
  scheduled (fun _ => 0) true droppedBucket 1000 !! "conversations/X"
  = Some (mkObject tenBytes
            (Some (mkMetadata "cc-air" "2026-02-10T00:00:00.000Z" "10"))
            "2026-02-10T00:00:00.000Z").
Proof.
  apply (scheduled_keeps_unexpired (fun _ => 0) true droppedBucket 1000).
  - vm_compute. reflexivity.
  - left. vm_compute. reflexivity.
Defined.

Lemma scheduled_deletes_nothing_without_metadata_witness :
  scheduled (fun _ => 0) false droppedBucket 86400000000 = droppedBucket.
Proof.
  apply (scheduled_deletes_nothing_without_metadata (fun _ => 0) false droppedBucket
           86400000000).
  reflexivity.
Defined.

Lemma handlePickupList_lists_witness :
  exists entries,
    handlePickupList false droppedBucket "conversations"
    = (json (ListJson "conversations" (Z.of_nat (length entries))
               (map blobInfo entries)) 200,
       droppedBucket) /\
    map blobInfo entries
    = [mkBlobInfo "X" 10 "2026-02-10T00:00:00.000Z" "unknown"].
Proof.
  destruct (handlePickupList_lists false droppedBucket "conversations" eq_refl)
    as (entries & Hlist & _).
  exists entries. split; [exact Hlist|].
  assert (Hrun : handlePickupList false droppedBucket "conversations"
                 = (json (ListJson "conversations" 1
                            [mkBlobInfo "X" 10 "2026-02-10T00:00:00.000Z" "unknown"])
                      200, droppedBucket))
    by (vm_compute; reflexivity).
  rewrite Hrun in Hlist. now injection Hlist as _ <-.
Defined.

End WorkerFacts.

(* ===================================================================== *)
(** ** From the push of a snapshot to the pull ([poller.ts], [worker.ts], *)
(** ** [mirror-sync.ts])                                                  *)
(* ===================================================================== *)

Module MirrorFacts.
Import Encoding Crypto.

Section PushAndPull.

Variable RELAY_URL RELAY_TOKEN : string.
Variable KEY_PATH : string.

(** On the machine that pushes: the two places of the database file. *)
Variable LDM_DB_PATH LEGACY_DB_PATH : string.

(** On the device that pulls. *)
Variable MIRROR_DB_PATH MIRROR_STATE_PATH : string.

Variable aesGcmSeal : bytes -> bytes -> bytes -> option (bytes * bytes).
Variable aesGcmOpen : bytes -> bytes -> bytes -> bytes -> option bytes.
Variable hkdfSha256 : bytes -> bytes -> bytes -> nat -> bytes.
Variable hmacSha256 : bytes -> bytes -> bytes.
Variable sha256 : bytes -> bytes.

(** JSON, in both directions. *)
Variable stringifyMeta : Mirror.Meta -> bytes.
Variable parseMeta : bytes -> option Mirror.Meta.
Variable stringifyMirrorPayload : EncryptedPayload * EncryptedPayload -> bytes.
Variable parseMirrorPayload : bytes -> option (EncryptedPayload * EncryptedPayload).
Variable parseState : bytes -> option Mirror.MirrorState.
Variable stringifyState : Mirror.MirrorState -> bytes.

(** The relay at the other end of the POST: the response, and the relay
    afterwards. *)
Variable Relay : Type.
Variable postDrop : Relay -> string -> bytes -> outcome Worker.Response * Relay.

(** Lines 229-230 of [pushMirror]: the database file that exists. *)
Definition dbPathOf (d : Mirror.Disk) : string :=
  match d !! LDM_DB_PATH with
  | Some _ => LDM_DB_PATH
  | None => LEGACY_DB_PATH
  end.

(** [pushMirror] of [poller.ts]; the two nonces and the clock are inputs. *)
Definition pushMirror (metaNonce dbNonce : bytes) (now : string)
    (r : Relay) (d : Mirror.Disk) : outcome unit * Relay :=
  if negb (JS.truthy RELAY_URL) || negb (JS.truthy RELAY_TOKEN) then
    (Throws "CRYSTAL_RELAY_URL and CRYSTAL_RELAY_TOKEN must be set", r)
  else
    match Mirror.loadRelayKey KEY_PATH d with
    | Throws msg => (Throws msg, r)
    | Returns relayKey =>
        match d !! dbPathOf d with
        | None => (Throws "Crystal DB not found", r)
        | Some dbData =>
            let dbHash := hashBuffer sha256 dbData in
            let mirrorMeta :=
              stringifyMeta (Mirror.mkMeta dbHash (Z.of_nat (length dbData)) now) in
            match encrypt aesGcmSeal hkdfSha256 hmacSha256 metaNonce mirrorMeta
                    relayKey with
            | Throws msg => (Throws msg, r)
            | Returns metaEncrypted =>
                match encrypt aesGcmSeal hkdfSha256 hmacSha256 dbNonce dbData
                        relayKey with
                | Throws msg => (Throws msg, r)
                | Returns dbEncrypted =>
                    let payload :=
                      stringifyMirrorPayload (metaEncrypted, dbEncrypted) in
                    match postDrop r RELAY_TOKEN payload with
                    | (Throws msg, r') => (Throws msg, r')
                    | (Returns resp, r') =>
                        if negb (Mirror.ok resp)
                        then (Throws "Mirror push failed", r')
                        else (Returns tt, r')
                    end
                end
            end
        end
    end.

(** [pushMirror] reads the key and the database and writes nothing but
    the relay: when the relay is not reached, nothing has changed. *)
Lemma loadRelayKey_length d key :
  Mirror.loadRelayKey KEY_PATH d = Returns key -> length key = 32%nat.
Proof.
  unfold Mirror.loadRelayKey. destruct (d !! KEY_PATH); [|discriminate].
  destruct (Nat.eqb_spec (length (fromBase64 (JS.trim (string_of_list_byte l)))) 32);
    [|discriminate].
  now intros [= <-].
Qed.

Lemma seal_then_open k n m :
  sealsAndOpens aesGcmSeal aesGcmOpen -> length k = 32%nat -> length n = 12%nat ->
  exists p, encrypt aesGcmSeal hkdfSha256 hmacSha256 n m k = Returns p /\
            decrypt aesGcmOpen hkdfSha256 hmacSha256 p k = Returns m.
Proof.
  intros [Hseal Hopen] Hk Hn. destruct (Hseal k n m Hk Hn) as (c & t & Hs).
  unfold encrypt. rewrite Hs. eexists. split; [reflexivity|].
  unfold decrypt. cbn [v nonce ciphertext tag hmac].
  rewrite !fromBase64_toBase64, String.eqb_refl.
  change (1 =? 1) with true. cbn [negb]. now rewrite (Hopen _ _ _ _ _ Hs).
Qed.

End PushAndPull.

(** *** The dead drop as the relay *)

(** The POST of [pushMirror] as the Worker serves it for the agent that
    the token authenticates; the UUID and the clock of the Worker are
    inputs. *)
Definition viaWorker_post (showNumber : Z -> string) (agentId uuid now : string)
    (b : Worker.Bucket) (_ : string) (payload : bytes)
    : outcome Worker.Response * Worker.Bucket :=
  let out := Worker.handleDrop showNumber b agentId "mirror" payload uuid now in
  (Returns (fst out), snd out).

Lemma secondPart_mirror uuid :
  Worker.secondPart (Worker.keyOf "mirror" uuid) = Worker.untilSlash uuid.
Proof. reflexivity. Qed.

Lemma prefix_mirror uuid :
  String.prefix ("mirror" ++ "/") (Worker.keyOf "mirror" uuid) = true.
Proof. destruct uuid; reflexivity. Qed.

(** A list without repetition that holds [x] and nothing else. *)
Lemma singleton_list {A} (x : A) l :
  List.NoDup l -> (forall e, In e l <-> e = x) -> l = [x].
Proof.
  intros Hnd Hin. destruct l as [|a l]; [now destruct (proj2 (Hin x) eq_refl)|].
  assert (a = x) as -> by (apply Hin; now left).
  destruct l as [|b l]; [reflexivity|]. exfalso.
  assert (b = x) as -> by (apply Hin; right; now left).
  inversion Hnd as [|? ? Hnotin _]. apply Hnotin. now left.
Qed.

(** The listing of a channel that held nothing before the drop. *)
Lemma listPrefix_single listWithMetadata (bucket : Worker.Bucket) pre key obj :
  String.prefix pre key = true ->
  (forall k o, bucket !! k = Some o -> String.prefix pre k = false) ->
  Worker.listPrefix listWithMetadata (<[key := obj]> bucket) pre
  = [(key, Worker.listed listWithMetadata obj)].
Proof.
  intros Hp Hnone. unfold Worker.listPrefix.
  assert (Hl : List.filter (fun e => String.prefix pre (fst e))
                 (map_to_list (<[key := obj]> bucket)) = [(key, obj)]).
  { apply singleton_list.
    - apply List.NoDup_filter, NoDup_ListNoDup, NoDup_map_to_list.
    - intros [k o]. rewrite filter_In, <- list_elem_of_In, elem_of_map_to_list.
      cbn [fst]. split.
      + intros [Hk Hpk]. destruct (decide (k = key)) as [->|Hne].
        * rewrite lookup_insert_eq in Hk. congruence.
        * rewrite lookup_insert_ne in Hk by congruence.
          apply Hnone in Hk. congruence.
      + intros [= -> ->]. split; [apply lookup_insert_eq|exact Hp]. }
  now rewrite Hl.
Qed.

Section RoundTrip.

Variable RELAY_URL RELAY_TOKEN KEY_PATH : string.
Variable LDM_DB_PATH LEGACY_DB_PATH MIRROR_DB_PATH MIRROR_STATE_PATH : string.
Variable aesGcmSeal : bytes -> bytes -> bytes -> option (bytes * bytes).
Variable aesGcmOpen : bytes -> bytes -> bytes -> bytes -> option bytes.
Variable hkdfSha256 : bytes -> bytes -> bytes -> nat -> bytes.
Variable hmacSha256 : bytes -> bytes -> bytes.
Variable sha256 : bytes -> bytes.
Variable stringifyMeta : Mirror.Meta -> bytes.
Variable parseMeta : bytes -> option Mirror.Meta.
Variable stringifyMirrorPayload : EncryptedPayload * EncryptedPayload -> bytes.
Variable parseMirrorPayload : bytes -> option (EncryptedPayload * EncryptedPayload).
Variable parseState : bytes -> option Mirror.MirrorState.
Variable stringifyState : Mirror.MirrorState -> bytes.
Variable showNumber : Z -> string.
Variable listWithMetadata : bool.

(** The push, with the Worker at the other end. *)
Definition push (agentId uuid workerNow : string) (metaNonce dbNonce : bytes)
    (now : string) (bucket : Worker.Bucket) (d : Mirror.Disk)
    : outcome unit * Worker.Bucket :=
  pushMirror RELAY_URL RELAY_TOKEN KEY_PATH LDM_DB_PATH LEGACY_DB_PATH
    aesGcmSeal hkdfSha256 hmacSha256 sha256 stringifyMeta stringifyMirrorPayload
    Worker.Bucket (viaWorker_post showNumber agentId uuid workerNow)
    metaNonce dbNonce now bucket d.

(** The pull, with the Worker at the other end. *)
Definition pull (force : bool) (now : string) (w : Mirror.World Worker.Bucket)
    : outcome bool * Mirror.World Worker.Bucket :=
  Mirror.pullMirror RELAY_URL RELAY_TOKEN KEY_PATH MIRROR_DB_PATH MIRROR_STATE_PATH
    aesGcmOpen hkdfSha256 hmacSha256 sha256 parseState stringifyState
    parseMirrorPayload parseMeta Worker.Bucket
    (Mirror.viaWorker_list listWithMetadata)
    Mirror.viaWorker_get Mirror.viaWorker_delete force now w.

(** X26. From push to pull. A snapshot pushed by [pushMirror] through
    the Worker, on a relay whose [mirror] channel was empty, is what the
    next [pullMirror] of a device with the same key installs: the push
    is accepted; the pull (forced, or seeing another hash than the one it
    last synced) returns true, the mirror file holds exactly the bytes
    of the pushed database, the state file records their hash and size,
    and the relay is left as it was before the push (the blob is
    confirmed and deleted). AES-GCM is asked to open what it sealed, and
    JSON to parse what it printed for the metadata and the payload of
    this push. *)
Theorem push_then_pull agentId uuid workerNow metaNonce dbNonce pushNow force pullNow
    (bucket : Worker.Bucket) (miniDisk deviceDisk : Mirror.Disk) key dbData :
  sealsAndOpens aesGcmSeal aesGcmOpen ->
  JS.truthy RELAY_URL = true -> JS.truthy RELAY_TOKEN = true ->
  Mirror.loadRelayKey KEY_PATH miniDisk = Returns key ->
  Mirror.loadRelayKey KEY_PATH deviceDisk = Returns key ->
  miniDisk !! dbPathOf LDM_DB_PATH LEGACY_DB_PATH miniDisk = Some dbData ->
  length metaNonce = 12%nat -> length dbNonce = 12%nat ->
  parseMeta (stringifyMeta (Mirror.mkMeta (hashBuffer sha256 dbData)
                              (Z.of_nat (length dbData)) pushNow))
  = Some (Mirror.mkMeta (hashBuffer sha256 dbData) (Z.of_nat (length dbData)) pushNow) ->
  (forall metaE dbE,
     encrypt aesGcmSeal hkdfSha256 hmacSha256 metaNonce
       (stringifyMeta (Mirror.mkMeta (hashBuffer sha256 dbData)
                         (Z.of_nat (length dbData)) pushNow)) key = Returns metaE ->
     encrypt aesGcmSeal hkdfSha256 hmacSha256 dbNonce dbData key = Returns dbE ->
     parseMirrorPayload (stringifyMirrorPayload (metaE, dbE)) = Some (metaE, dbE) /\
     0 < Z.of_nat (length (stringifyMirrorPayload (metaE, dbE)))
       <= WorkerFacts.maxBlobBytes) ->
  (forall k o, bucket !! k = Some o -> String.prefix ("mirror" ++ "/") k = false) ->
  Worker.untilSlash uuid = uuid ->
  force = true \/
  Mirror.lastHash (Mirror.loadState MIRROR_STATE_PATH parseState deviceDisk)
  <> Some (hashBuffer sha256 dbData) ->
  MIRROR_STATE_PATH <> MIRROR_DB_PATH ->
  exists bucket1 w',
    push agentId uuid workerNow metaNonce dbNonce pushNow bucket miniDisk
    = (Returns tt, bucket1) /\
    (exists obj, bucket1 !! Worker.keyOf "mirror" uuid = Some obj) /\
    pull force pullNow (Mirror.mkWorld Worker.Bucket bucket1 deviceDisk)
    = (Returns true, w') /\
    Mirror.disk _ w' !! MIRROR_DB_PATH = Some dbData /\
    Mirror.disk _ w' !! MIRROR_STATE_PATH
    = Some (stringifyState
              (Mirror.mkMirrorState (Some pullNow) (Some (hashBuffer sha256 dbData))
                 (Some (Z.of_nat (length dbData))))) /\
    Mirror.relay _ w' = bucket.
Proof.
  intros Hcipher Hurl Htoken Hkey1 Hkey2 Hdb Hn1 Hn2 Hmeta Hjson Hempty Huuid Hgo Hpaths.
  set (m := Mirror.mkMeta (hashBuffer sha256 dbData) (Z.of_nat (length dbData)) pushNow)
    in *.
  pose proof (loadRelayKey_length _ _ _ Hkey1) as Hlen.
  destruct (seal_then_open aesGcmSeal aesGcmOpen hkdfSha256 hmacSha256
              key metaNonce (stringifyMeta m) Hcipher Hlen Hn1)
    as (metaE & HmetaE & HmetaD).
  destruct (seal_then_open aesGcmSeal aesGcmOpen hkdfSha256 hmacSha256
              key dbNonce dbData Hcipher Hlen Hn2)
    as (dbE & HdbE & HdbD).
  destruct (Hjson metaE dbE HmetaE HdbE) as [Hparse Hsize].
  set (payload := stringifyMirrorPayload (metaE, dbE)) in *.
  set (k := Worker.keyOf "mirror" uuid).
  set (obj := Worker.mkObject payload
                (Some (Worker.mkMetadata agentId workerNow
                         (showNumber (Z.of_nat (length payload))))) workerNow).
  assert (Hfree : bucket !! k = None).
  { destruct (bucket !! k) as [o|] eqn:E; [|reflexivity].
    apply Hempty in E. subst k. now rewrite prefix_mirror in E. }
  assert (Hdrop : Worker.handleDrop showNumber bucket agentId "mirror" payload uuid
                    workerNow
                  = (Worker.json (Worker.DropJson uuid "mirror"
                                    (Z.of_nat (length payload)) workerNow) 200,
                     <[k := obj]> bucket)).
  { unfold Worker.handleDrop. change (Worker.isValidChannel "mirror") with true.
    cbn [negb]. unfold WorkerFacts.maxBlobBytes in Hsize.
    destruct (Z.eqb_spec (Z.of_nat (length payload)) 0); [lia|].
    destruct (Z.ltb_spec (100 * 1024 * 1024) (Z.of_nat (length payload))); [lia|].
    reflexivity. }
  exists (<[k := obj]> bucket).
  assert (Hpush : push agentId uuid workerNow metaNonce dbNonce pushNow bucket miniDisk
                  = (Returns tt, <[k := obj]> bucket)).
  { unfold push, pushMirror. rewrite Hurl, Htoken, Hkey1, Hdb. cbn [negb orb].
    fold m. rewrite HmetaE, HdbE. fold payload. unfold viaWorker_post.
    rewrite Hdrop. reflexivity. }
  set (blob := Worker.blobInfo (k, Worker.listed listWithMetadata obj)).
  assert (Hfetch :
    Mirror.fetchLatest RELAY_URL RELAY_TOKEN KEY_PATH aesGcmOpen hkdfSha256
      hmacSha256 parseMirrorPayload parseMeta Worker.Bucket
      (Mirror.viaWorker_list listWithMetadata) Mirror.viaWorker_get
      (Mirror.mkWorld Worker.Bucket (<[k := obj]> bucket) deviceDisk)
    = Returns (Some (Mirror.mkFetched key [blob] m dbE))).
  { unfold Mirror.fetchLatest. rewrite Hurl, Htoken. cbn [negb orb Mirror.disk].
    rewrite Hkey2. cbn [Mirror.relay]. unfold Mirror.viaWorker_list.
    unfold Worker.handlePickupList. change (Worker.isValidChannel "mirror") with true.
    cbn [negb fst]. rewrite (listPrefix_single _ bucket _ k obj);
      [|subst k; apply prefix_mirror|exact Hempty].
    cbn [map length]. fold blob.
    change (Mirror.ok (Worker.json (Worker.ListJson "mirror" (Z.of_nat 1) [blob]) 200))
      with true.
    cbn [negb Worker.payload Worker.json]. change (Z.of_nat 1 =? 0) with false.
    cbn [last].
    assert (Hid : Worker.b_id blob = uuid).
    { subst blob k. cbn [Worker.blobInfo Worker.b_id].
      now rewrite secondPart_mirror. }
    rewrite Hid. unfold Mirror.viaWorker_get, Worker.handlePickup.
    change (Worker.isValidChannel "mirror") with true. cbn [negb].
    fold k. rewrite lookup_insert_eq. cbn [fst].
    match goal with |- context [Mirror.ok ?r] => change (Mirror.ok r) with true end.
    cbn [negb Worker.payload Worker.body obj]. subst obj. cbn [Worker.body].
    rewrite Hparse. unfold Mirror.decryptMeta. rewrite HmetaD, Hmeta. reflexivity. }
  destruct (Mirror.pullMirror_replaces RELAY_URL RELAY_TOKEN KEY_PATH MIRROR_DB_PATH
              MIRROR_STATE_PATH aesGcmOpen hkdfSha256 hmacSha256 sha256 parseState
              stringifyState parseMirrorPayload parseMeta Worker.Bucket
              (Mirror.viaWorker_list listWithMetadata) Mirror.viaWorker_get
              Mirror.viaWorker_delete force pullNow _ _ dbData Hfetch)
    as (w' & Hpull & Hmirror & Hstate);
    [exact Hgo|exact HdbD|reflexivity|exact Hpaths|].
  exists w'. split; [exact Hpush|]. split; [exists obj; apply lookup_insert_eq|].
  split; [exact Hpull|]. split; [exact Hmirror|]. split; [exact Hstate|].
  unfold Mirror.pullMirror in Hpull. rewrite Hfetch in Hpull.
  destruct (negb force && _); [discriminate Hpull|].
  cbn [Mirror.dbPayload Mirror.relayKey Mirror.meta Mirror.hash m] in Hpull.
  rewrite HdbD in Hpull. unfold m in Hpull. cbn [Mirror.hash] in Hpull.
  rewrite String.eqb_refl in Hpull. cbn [negb] in Hpull.
  injection Hpull as <-. cbn [Mirror.relay Mirror.blobs Mirror.confirmAll fold_left].
  unfold k at 2. rewrite secondPart_mirror, Huuid.
  unfold Mirror.viaWorker_delete, Worker.handleConfirm.
  change (Worker.isValidChannel "mirror") with true. cbn [negb]. fold k.
  rewrite lookup_insert_eq. cbn [snd]. now apply delete_insert_id.
Qed.

End RoundTrip.

(** *** A concrete run: one machine pushes, a device pulls *)

Definition pushedDb : bytes := utf8 "crystal db".

Definition pushedMeta : Mirror.Meta :=
  Mirror.mkMeta (hashBuffer (fun d => d) pushedDb) (Z.of_nat (length pushedDb))
    "2026-02-15T00:00:00.000Z".

(** Stand-ins for JSON that print and parse the metadata and the payload
    of this push. *)
Definition printMeta (_ : Mirror.Meta) : bytes := utf8 "meta".
Definition readMeta (_ : bytes) : option Mirror.Meta := Some pushedMeta.
Definition printPayload (_ : EncryptedPayload * EncryptedPayload) : bytes :=
  utf8 "payload".
Definition readPayload (_ : bytes) : option (EncryptedPayload * EncryptedPayload) :=
  Some (Mirror.sealedWith (utf8 "meta"), Mirror.sealedWith pushedDb).

Definition miniDisk : Mirror.Disk :=
  <["/key" := utf8 (toBase64 demoKey)]> (<["/ldm/crystal.db" := pushedDb]> ∅).

Definition deviceDisk : Mirror.Disk :=
  <["/key" := utf8 (toBase64 demoKey)]> (<["/crystal.db" := utf8 "old mirror"]> ∅).

Lemma push_then_pull_witness :
  exists bucket1 w',
    push "https://relay.example" "token" "/key" "/ldm/crystal.db" "/legacy/crystal.db"
      copySeal keyAsSigningKey listMac (fun d => d) printMeta printPayload
      (fun _ => "7") "cc-mini" "X" "2026-02-15T00:00:01.000Z" demoNonce demoNonce
      "2026-02-15T00:00:00.000Z" ∅ miniDisk
    = (Returns tt, bucket1) /\
    (exists obj, bucket1 !! Worker.keyOf "mirror" "X" = Some obj) /\
    pull "https://relay.example" "token" "/key" "/crystal.db" "/state.json"
      copyOpen keyAsSigningKey listMac (fun d => d) readMeta readPayload
      Mirror.demoParseState Mirror.demoStringify false true
      "2026-02-16T00:00:00.000Z"
      (Mirror.mkWorld Worker.Bucket bucket1 deviceDisk)
    = (Returns true, w') /\
    Mirror.disk _ w' !! "/crystal.db" = Some pushedDb /\
    Mirror.disk _ w' !! "/state.json"
    = Some (Mirror.demoStringify
              (Mirror.mkMirrorState (Some "2026-02-16T00:00:00.000Z")
                 (Some (hashBuffer (fun d => d) pushedDb))
                 (Some (Z.of_nat (length pushedDb))))) /\
    Mirror.relay _ w' = ∅.
Proof.
  apply (push_then_pull "https://relay.example" "token" "/key" "/ldm/crystal.db"
           "/legacy/crystal.db" "/crystal.db" "/state.json" copySeal copyOpen
           keyAsSigningKey listMac (fun d => d) printMeta readMeta printPayload
           readPayload Mirror.demoParseState Mirror.demoStringify (fun _ => "7")
           false "cc-mini" "X" "2026-02-15T00:00:01.000Z" demoNonce demoNonce
           "2026-02-15T00:00:00.000Z" true "2026-02-16T00:00:00.000Z"
           ∅ miniDisk deviceDisk demoKey pushedDb).
  - exact copy_sealsAndOpens.
  - reflexivity.
  - reflexivity.
  - vm_compute. reflexivity.
  - vm_compute. reflexivity.
  - vm_compute. reflexivity.
  - reflexivity.
  - reflexivity.
  - reflexivity.
  - intros metaE dbE H1 H2. vm_compute in H1, H2.
    injection H1 as <-. injection H2 as <-.
    split; [vm_compute; reflexivity|]. vm_compute. split; [reflexivity|discriminate].
  - intros k o H. rewrite lookup_empty in H. discriminate H.
  - reflexivity.
  - left. reflexivity.
  - discriminate.
Defined.

End MirrorFacts.

(* ===================================================================== *)
(** ** Capture: from messages to chunks ([cc-hook.ts], [poller.ts])       *)
(* ===================================================================== *)

Module Capture.
Import Crystal.

(** [interface ExtractedMessage] *)
Record Message := mkMessage {
  m_role : string;
  m_text : string;
  m_timestamp : string;
  m_sessionId : string
}.

Definition maxSingleChunkChars : Z := 2000 * 4.

(** The object pushed for a message and one of its texts. *)
Definition chunkOf (agentId : string) (msg : Message) (t : string) : Chunk :=
  mkChunk t (m_role msg) "conversation" ("cc:" ++ m_sessionId msg)%string agentId
    (CrystalFacts.tokenEstimate t) (m_timestamp msg).

(** The body of the loop over the messages: a message of at most 8000
    characters is one chunk, a longer one goes through [chunkText] of a
    local [Crystal] with its defaults ([None] when the chunker does not
    return within [text.length + 1] passes). *)
Definition chunksOfMessage (agentId : string) (msg : Message) : option (list Chunk) :=
  if JS.len (m_text msg) <=? maxSingleChunkChars
  then Some [chunkOf agentId msg (m_text msg)]
  else
    match Chunker.chunkText (S (String.length (m_text msg))) (m_text msg) 400 80 with
    | Some texts => Some (map (chunkOf agentId msg) texts)
    | None => None
    end.

(** Turn-boundary chunking, lines 279-304 of [cc-hook.ts] and 133-160 of
    [poller.ts]. *)
Fixpoint buildChunks (agentId : string) (messages : list Message)
    : option (list Chunk) :=
  match messages with
  | [] => Some []
  | msg :: rest =>
      match chunksOfMessage agentId msg, buildChunks agentId rest with
      | Some cs, Some ds => Some (cs ++ ds)
      | _, _ => None
      end
  end.

(** What holds of every chunk built. *)
Definition turnChunk (agentId : string) (c : Chunk) : Prop :=
  JS.len (text c) <= maxSingleChunkChars /\
  0 <= token_count c <= 2000 /\
  agent_id c = agentId /\
  source_type c = "conversation".

Lemma tokenEstimate_range t :
  JS.len t <= 8000 -> 0 <= CrystalFacts.tokenEstimate t <= 2000.
Proof.
  intros H. unfold CrystalFacts.tokenEstimate.
  assert (0 <= JS.len t) by (unfold JS.len; lia).
  split; [apply Z.div_pos; lia|].
  assert (JS.len t + 3 < 4 * 2001) by lia.
  pose proof (Z.div_lt_upper_bound (JS.len t + 3) 4 2001). lia.
Qed.

Lemma chunkOf_turnChunk agentId msg t :
  JS.len t <= 8000 -> turnChunk agentId (chunkOf agentId msg t).
Proof.
  intros H. unfold turnChunk, chunkOf, maxSingleChunkChars. cbn.
  split; [lia|]. split; [now apply tokenEstimate_range|]. now split.
Qed.

Lemma chunksOfMessage_returns agentId msg :
  exists cs,
    chunksOfMessage agentId msg = Some cs /\
    Forall (turnChunk agentId) cs /\
    (JS.len (m_text msg) <= maxSingleChunkChars -> map text cs = [m_text msg]).
Proof.
  unfold chunksOfMessage.
  destruct (Z.leb_spec (JS.len (m_text msg)) maxSingleChunkChars) as [Hshort|Hlong].
  - eexists. split; [reflexivity|]. split; [|reflexivity].
    constructor; [|constructor]. now apply chunkOf_turnChunk.
  - destruct (Chunker.chunkText_terminates_defaults (m_text msg)) as [texts Hrun].
    rewrite Hrun. eexists. split; [reflexivity|]. split; [|lia].
    apply Forall_map. unfold Chunker.chunkText in Hrun.
    apply ChunkerFacts.loop_shape in Hrun;
      [|lia|cbn; lia|constructor].
    revert Hrun. apply List.Forall_impl. intros t [Hlen _].
    apply chunkOf_turnChunk. lia.
Qed.

(** X27. Turn-boundary chunking always returns; every chunk it builds
    has at most 8000 characters and a token count of at most 2000, and
    carries the agent id and the source type [conversation]; and when no
    message is longer than 8000 characters the chunks are the messages,
    one chunk per message, text unchanged and in order. *)
Theorem buildChunks_turns agentId messages :
  exists chunks,
    buildChunks agentId messages = Some chunks /\
    Forall (turnChunk agentId) chunks /\
    (Forall (fun msg => JS.len (m_text msg) <= maxSingleChunkChars) messages ->
     map text chunks = map m_text messages).
Proof.
  induction messages as [|msg rest (ds & Hds & Hshape & Hsame)].
  - exists []. split; [reflexivity|]. split; [constructor|reflexivity].
  - destruct (chunksOfMessage_returns agentId msg) as (cs & Hcs & Hcshape & Hcsame).
    exists (cs ++ ds). cbn [buildChunks]. rewrite Hcs, Hds.
    split; [reflexivity|]. split; [now apply Forall_app|].
    intros Hall. apply Forall_cons in Hall as [Hmsg Hrest].
    rewrite map_app, Hcsame, Hsame by assumption. reflexivity.
Qed.

(** *** Local mode: batches and retries ([cc-hook.ts], ingestLocal) *)

Definition BATCH_SIZE : nat := 200.

(** [chunks.slice(i, i + BATCH_SIZE)] for [i = 0, 200, ...], on what is
    left of the array from [i] on; one pass per unit of [fuel]. *)
Fixpoint batchesFrom (fuel : nat) (chunks : list Chunk) : list (list Chunk) :=
  match fuel, chunks with
  | _, [] => []
  | O, _ => []
  | S f, _ => take BATCH_SIZE chunks :: batchesFrom f (drop BATCH_SIZE chunks)
  end.

Definition batchesOf (chunks : list Chunk) : list (list Chunk) :=
  batchesFrom (length chunks) chunks.

Lemma batchesFrom_concat fuel : forall chunks,
  (length chunks <= fuel)%nat ->
  concat (batchesFrom fuel chunks) = chunks /\
  Forall (fun b => b <> [] /\ (length b <= BATCH_SIZE)%nat) (batchesFrom fuel chunks).
Proof.
  induction fuel as [|fuel IH]; intros chunks Hlen.
  - destruct chunks; [split; [reflexivity|constructor]|cbn in Hlen; lia].
  - destruct chunks as [|c chunks]; [split; [reflexivity|constructor]|].
    cbn [batchesFrom concat].
    destruct (IH (drop BATCH_SIZE (c :: chunks))) as [Hcat Hall].
    { rewrite length_drop. cbn [length] in *. unfold BATCH_SIZE. lia. }
    split; [now rewrite Hcat, take_drop|].
    constructor; [|exact Hall]. split; [discriminate|].
    rewrite length_take. lia.
Qed.

Section LocalIngest.

Variable sha256hex : string -> string.

(** The embedding provider, the clock and the LanceDB write as they are
    at the n-th call of [ingest]. *)
Variable embedAt : nat -> list string -> option (list vector).
Variable nowAt : nat -> string.
Variable lanceOkAt : nat -> bool.

(** The [while (retries < 4)] loop around one batch: [more] is the number
    of attempts left after this one; the result comes with the number of
    calls made so far. *)
Fixpoint ingestWithRetry (more : nat) (attempt : nat) (batch : list Chunk)
    (st : State) : outcome Z * State * nat :=
  match ingest sha256hex (embedAt attempt) (nowAt attempt) (lanceOkAt attempt)
          batch st with
  | (Returns n, st') => (Returns n, st', S attempt)
  | (Throws msg, st') =>
      match more with
      | O => (Throws msg, st', S attempt)
      | S k => ingestWithRetry k (S attempt) batch st'
      end
  end.

(** The loop over the batches, with the running [total]. *)
Fixpoint ingestBatches (batches : list (list Chunk)) (total : Z) (attempt : nat)
    (st : State) : outcome Z * State * nat :=
  match batches with
  | [] => (Returns total, st, attempt)
  | b :: rest =>
      match ingestWithRetry 3 attempt b st with
      | (Returns n, st', attempt') => ingestBatches rest (total + n) attempt' st'
      | (Throws msg, st', attempt') => (Throws msg, st', attempt')
      end
  end.

(** [ingestLocal] on a local [Crystal]. *)
Definition ingestLocal (agentId : string) (messages : list Message) (st : State)
    : outcome Z * State :=
  match buildChunks agentId messages with
  | None => (Throws "chunkText did not return", st)
  | Some chunks =>
      let '(res, st', _) := ingestBatches (batchesOf chunks) 0 0 st in
      (res, st')
  end.

(** The hashes known to the store. *)
Definition knows (st : State) (c : Chunk) : Prop :=
  hashPresent (sqliteDb st) (sha256hex (text c)) = true.

Definition keepsHashes (st st' : State) : Prop :=
  forall h, hashPresent (sqliteDb st) h = true -> hashPresent (sqliteDb st') h = true.

Lemma ingest_keepsHashes embed now lanceOk batch st :
  keepsHashes st (snd (ingest sha256hex embed now lanceOk batch st)).
Proof.
  intros h Hh.
  destruct (CrystalFacts.ingest_cases sha256hex embed now lanceOk batch st)
    as [[_ ->]|[(msg & _ & _ & ->)|[(es & st1 & _ & _ & Hprep & _ & ->)
       |(es & st1 & db' & _ & _ & Hprep & Hall & ->)]]];
    cbn [snd sqliteDb]; try exact Hh.
  - unfold hashPresent in *.
    now destruct (CrystalFacts.prepared_sameRows es st st1 Hprep) as [-> _].
  - apply CrystalFacts.hashPresent_In.
    rewrite (insertAll_chunks sha256hex now _ _ _ _ Hall).
    destruct (CrystalFacts.prepared_sameRows es st st1 Hprep) as [-> _].
    apply in_or_app. left. now apply CrystalFacts.hashPresent_In.
Qed.

Lemma ingest_throw_count embed now lanceOk batch st msg st' :
  ingest sha256hex embed now lanceOk batch st = (Throws msg, st') ->
  countChunks (sqliteDb st') = countChunks (sqliteDb st).
Proof.
  intros H.
  destruct (CrystalFacts.ingest_cases sha256hex embed now lanceOk batch st)
    as [[_ E]|[(msg0 & _ & _ & E)|[(es & st1 & _ & _ & Hprep & _ & E)
       |(es & st1 & db' & _ & _ & Hprep & Hall & E)]]];
    rewrite E in H; try discriminate; injection H as _ <-; [reflexivity|].
  unfold countChunks.
  now destruct (CrystalFacts.prepared_sameRows es st st1 Hprep) as [-> _].
Qed.

(** One batch, with its retries: the store keeps what it knew; when the
    loop returns, the store has grown by the count returned and knows
    every chunk of the batch; when it throws the store has not grown. *)
Lemma ingestWithRetry_spec more : forall attempt batch st,
  let out := ingestWithRetry more attempt batch st in
  keepsHashes st (snd (fst out)) /\
  match fst (fst out) with
  | Returns n =>
      0 <= n /\
      countChunks (sqliteDb (snd (fst out))) = countChunks (sqliteDb st) + n /\
      Forall (knows (snd (fst out))) batch
  | Throws _ => countChunks (sqliteDb (snd (fst out))) = countChunks (sqliteDb st)
  end.
Proof.
  induction more as [|more IH]; intros attempt batch st; cbn [ingestWithRetry];
    pose proof (ingest_keepsHashes (embedAt attempt) (nowAt attempt)
                  (lanceOkAt attempt) batch st) as Hkeep;
    destruct (ingest sha256hex (embedAt attempt) (nowAt attempt) (lanceOkAt attempt)
                batch st) as [[n|msg] st'] eqn:E; cbn [fst snd] in *.
  - split; [exact Hkeep|].
    destruct (ingest_count _ _ _ _ _ _ _ _ E) as [Hn Hcount].
    split; [lia|]. split; [exact Hcount|].
    apply List.Forall_forall. intros c Hc.
    now apply (CrystalFacts.ingest_returns_present _ _ _ _ _ _ _ _ E).
  - split; [exact Hkeep|]. now apply (ingest_throw_count _ _ _ _ _ _ _ E).
  - split; [exact Hkeep|].
    destruct (ingest_count _ _ _ _ _ _ _ _ E) as [Hn Hcount].
    split; [lia|]. split; [exact Hcount|].
    apply List.Forall_forall. intros c Hc.
    now apply (CrystalFacts.ingest_returns_present _ _ _ _ _ _ _ _ E).
  - specialize (IH (S attempt) batch st'). cbv zeta in IH.
    destruct IH as [Hkeep' Hres]. split; [intros h Hh; auto|].
    rewrite <- (ingest_throw_count _ _ _ _ _ _ _ E). exact Hres.
Qed.

Lemma ingestBatches_spec batches : forall total attempt st,
  let out := ingestBatches batches total attempt st in
  keepsHashes st (snd (fst out)) /\
  match fst (fst out) with
  | Returns total' =>
      countChunks (sqliteDb (snd (fst out)))
      = countChunks (sqliteDb st) + (total' - total) /\
      Forall (knows (snd (fst out))) (concat batches)
  | Throws _ => countChunks (sqliteDb st) <= countChunks (sqliteDb (snd (fst out)))
  end.
Proof.
  induction batches as [|b rest IH]; intros total attempt st; cbn [ingestBatches].
  - cbn [fst snd concat]. split; [now intros h Hh|]. split; [lia|constructor].
  - pose proof (ingestWithRetry_spec 3 attempt b st) as Hb. cbv zeta in Hb.
    destruct (ingestWithRetry 3 attempt b st) as [[[n|msg] st1] attempt1];
      cbn [fst snd] in *.
    + destruct Hb as (Hkeep & Hpos & Hcount & Hknown).
      specialize (IH (total + n) attempt1 st1). cbv zeta in IH.
      destruct IH as [Hkeep' Hres]. split; [intros h Hh; auto|].
      destruct (fst (fst (ingestBatches rest (total + n) attempt1 st1)))
        as [total'|msg'].
      * destruct Hres as [Hcount' Hknown']. split; [lia|].
        cbn [concat]. apply Forall_app. split; [|exact Hknown'].
        revert Hknown. apply List.Forall_impl. intros c Hc. now apply Hkeep'.
      * lia.
    + destruct Hb as [Hkeep Hcount]. split; [exact Hkeep|lia].
Qed.

End LocalIngest.

(** A batch whose chunks the store all knows is ingested as nothing,
    whatever the provider. *)
Lemma ingest_known sha256hex embed now lanceOk batch st :
  Forall (knows sha256hex st) batch ->
  ingest sha256hex embed now lanceOk batch st = (Returns 0, st).
Proof.
  intros Hk. unfold ingest. destruct batch as [|c batch]; [reflexivity|].
  rewrite CrystalFacts.newChunksOf_nil; [reflexivity|].
  intros c' Hc'. rewrite List.Forall_forall in Hk. now apply Hk.
Qed.

Lemma ingestBatches_known sha256hex embedAt nowAt lanceOkAt batches :
  forall total attempt st,
    Forall (knows sha256hex st) (concat batches) ->
    exists attempt',
      ingestBatches sha256hex embedAt nowAt lanceOkAt batches total attempt st
      = (Returns total, st, attempt').
Proof.
  induction batches as [|b rest IH]; intros total attempt st Hk;
    cbn [ingestBatches]; [eauto|].
  cbn [concat] in Hk. apply Forall_app in Hk as [Hb Hrest].
  cbn [ingestWithRetry]. rewrite (ingest_known _ _ _ _ _ _ Hb).
  replace (total + 0) with total by lia. now apply IH.
Qed.

(** X28. When [ingestLocal] returns, the chunk table has grown by
    exactly the total it returns, and a later run over the same
    messages, whatever the provider then answers, returns 0 and changes
    nothing: what was captured is not ingested again. *)
Theorem ingestLocal_then_again sha256hex embedAt nowAt lanceOkAt
    embedAt2 nowAt2 lanceOkAt2 agentId messages st total st' :
  ingestLocal sha256hex embedAt nowAt lanceOkAt agentId messages st
  = (Returns total, st') ->
  countChunks (sqliteDb st') = countChunks (sqliteDb st) + total /\
  ingestLocal sha256hex embedAt2 nowAt2 lanceOkAt2 agentId messages st'
  = (Returns 0, st').
Proof.
  unfold ingestLocal. destruct (buildChunks agentId messages) as [chunks|];
    [|discriminate].
  pose proof (ingestBatches_spec sha256hex embedAt nowAt lanceOkAt
                (batchesOf chunks) 0 0%nat st) as Hspec. cbv zeta in Hspec.
  destruct (ingestBatches sha256hex embedAt nowAt lanceOkAt (batchesOf chunks) 0 0 st)
    as [[res st1] attempt1]. cbn [fst snd] in Hspec.
  intros [= -> ->]. destruct Hspec as (_ & Hcount & Hknown).
  split; [lia|].
  destruct (ingestBatches_known sha256hex embedAt2 nowAt2 lanceOkAt2
              (batchesOf chunks) 0 0%nat st' Hknown) as [attempt' ->].
  reflexivity.
Qed.

(** *** Concrete runs *)

Definition hello : Message :=
  mkMessage "user" "How do we ship on Fridays?" "2026-02-14T10:00:00.000Z" "s1".

Definition answer : Message :=
  mkMessage "assistant" "We do not ship on Fridays." "2026-02-14T10:00:05.000Z" "s1".

Definition workingProvider (_ : nat) : list string -> option (list vector) :=
  unitEmbed.

Definition downProvider (_ : nat) : list string -> option (list vector) :=
  CrystalFacts.downEmbed.

Definition fixedClock (_ : nat) : string := "2026-02-14T10:01:00.000Z".

Definition lanceUp (_ : nat) : bool := true.

Definition capturedState : State :=
  snd (ingestLocal plainHash workingProvider fixedClock lanceUp "cc-mini"
         [hello; answer] freshState).

Lemma ingestLocal_then_again_witness :
  countChunks (sqliteDb capturedState) = countChunks (sqliteDb freshState) + 2 /\
  ingestLocal plainHash downProvider fixedClock lanceUp "cc-mini" [hello; answer]
    capturedState
  = (Returns 0, capturedState).
Proof.
  apply (ingestLocal_then_again plainHash workingProvider fixedClock lanceUp
           downProvider fixedClock lanceUp "cc-mini" [hello; answer] freshState 2
           capturedState).
  vm_compute. reflexivity.
Defined.

End Capture.

(* ===================================================================== *)
(** ** The conversation channel: drop and poll ([cc-hook.ts], [poller.ts]) *)
(* ===================================================================== *)

Module Poller.
Import Encoding Crypto Crystal Capture.

(** [interface RelayDrop] *)
Record RelayDrop := mkDrop {
  d_agent_id : string;
  d_dropped_at : string;
  d_messages : list Message
}.

(** [JSON.parse(text) as RelayDrop]: the cast is not checked. The text is
    no JSON at all ([JSON.parse] throws), or it is JSON of another shape
    than a drop, the use of which throws a TypeError where the chunks are
    built (the value is [null], its [messages] cannot be iterated, a
    message has no [text]), or it is a drop. Other shapes are left out. *)
Inductive ParsedDrop :=
| NotJson
| NotADrop
| ADrop (drop : RelayDrop).

(** The two counters of [pollOnce]. *)
Record Tally := mkTally {
  ingested : Z;
  errors : Z
}.

Section Channel.

Variable RELAY_URL RELAY_TOKEN KEY_PATH : string.
Variable CC_AGENT_ID : string.

Variable aesGcmSeal : bytes -> bytes -> bytes -> option (bytes * bytes).
Variable aesGcmOpen : bytes -> bytes -> bytes -> bytes -> option bytes.
Variable hkdfSha256 : bytes -> bytes -> bytes -> nat -> bytes.
Variable hmacSha256 : bytes -> bytes -> bytes.

(** JSON, in both directions, for the drop and for the envelope. *)
Variable stringifyDrop : RelayDrop -> bytes.
Variable parseDrop : bytes -> ParsedDrop.
Variable stringifyPayload : EncryptedPayload -> bytes.
Variable parsePayload : bytes -> option EncryptedPayload.

(** The relay at the other end of [fetch]; the POST as it goes at the
    n-th attempt. *)
Variable Relay : Type.
Variable postAt : nat -> Relay -> string -> bytes -> outcome Worker.Response * Relay.
Variable getList : Relay -> string -> outcome Worker.Response.
Variable getBlob : Relay -> string -> string -> outcome Worker.Response.
Variable deleteBlob : Relay -> string -> string -> Relay.

(** The store of the machine that polls: hash, and provider, clock and
    LanceDB write at the n-th call of [ingest]. *)
Variable sha256hex : string -> string.
Variable embedAt : nat -> list string -> option (list vector).
Variable nowAt : nat -> string.
Variable lanceOkAt : nat -> bool.

(** *** The device: [dropAtRelay] *)

(** The [while (retries < 4)] loop around the POST; [more] attempts are
    left after this one. *)
Fixpoint postWithRetry (more attempt : nat) (body : bytes) (r : Relay)
    : outcome unit * Relay :=
  let '(res, r') := postAt attempt r RELAY_TOKEN body in
  let failed (msg : string) :=
    match more with
    | O => (Throws msg, r')
    | S k => postWithRetry k (S attempt) body r'
    end in
  match res with
  | Returns resp =>
      if Mirror.ok resp then (Returns tt, r') else failed "Relay drop failed"
  | Throws msg => failed msg
  end.

(** [dropAtRelay]; the nonce and the clock are inputs. *)
Definition dropAtRelay (nonceB : bytes) (now : string) (messages : list Message)
    (d : Mirror.Disk) (r : Relay) : outcome Z * Relay :=
  match Mirror.loadRelayKey KEY_PATH d with
  | Throws msg => (Throws msg, r)
  | Returns relayKey =>
      let payload := mkDrop CC_AGENT_ID now messages in
      match encrypt aesGcmSeal hkdfSha256 hmacSha256 nonceB (stringifyDrop payload)
              relayKey with
      | Throws msg => (Throws msg, r)
      | Returns encrypted =>
          match postWithRetry 3 0 (stringifyPayload encrypted) r with
          | (Returns _, r') => (Returns (Z.of_nat (length messages)), r')
          | (Throws msg, r') => (Throws msg, r')
          end
      end
  end.

(** *** The poller: [pollOnce] *)

(** [decryptJSON<RelayDrop>]: it throws when [decrypt] or [JSON.parse]
    throws, and returns whatever value the JSON holds otherwise, a drop
    or not ([None]). *)
Definition decryptDrop (payload : EncryptedPayload) (key : bytes)
    : outcome (option RelayDrop) :=
  match decrypt aesGcmOpen hkdfSha256 hmacSha256 payload key with
  | Throws msg => Throws msg
  | Returns plaintext =>
      match parseDrop plaintext with
      | NotJson => Throws "JSON.parse failed"
      | NotADrop => Returns None
      | ADrop drop => Returns (Some drop)
      end
  end.

(** What the loop of [pollOnce] carries: the relay, the store, the two
    counters and the number of calls of [ingest] made so far. *)
Record PollState := mkPoll {
  relay : Relay;
  store : State;
  tally : Tally;
  calls : nat
}.

Definition failed (s : PollState) : PollState :=
  mkPoll (relay s) (store s) (mkTally (ingested (tally s)) (errors (tally s) + 1))
    (calls s).

(** The body of the loop over the listed blobs, lines 101-214. A throw
    of [decryptJSON] is caught by the inner [try]: the blob is deleted.
    Every other throw, the TypeError over a value that is no drop
    included, reaches the outer [catch]: the blob stays. The DELETE of a
    confirm is taken to reach the relay ([deleteBlob] has no failing
    outcome), and the files written for the remote agent afterwards
    (non-fatal, inside their own [try]) are left out. *)
Definition processBlob (relayKey : bytes) (s : PollState) (blob : Worker.BlobInfo)
    : PollState :=
  match getBlob (relay s) RELAY_TOKEN (Worker.b_id blob) with
  | Throws _ => failed s
  | Returns blobResp =>
      if negb (Mirror.ok blobResp) then failed s
      else
        match Worker.payload blobResp with
        | Worker.Stream content _ _ =>
            match parsePayload content with
            | None => failed s
            | Some encrypted =>
                match decryptDrop encrypted relayKey with
                | Throws _ =>
                    failed (mkPoll (deleteBlob (relay s) RELAY_TOKEN (Worker.b_id blob))
                              (store s) (tally s) (calls s))
                | Returns None => failed s
                | Returns (Some drop) =>
                    match buildChunks (d_agent_id drop) (d_messages drop) with
                    | None => failed s
                    | Some chunks =>
                        match ingest sha256hex (embedAt (calls s)) (nowAt (calls s))
                                (lanceOkAt (calls s)) chunks (store s) with
                        | (Throws _, store') =>
                            failed (mkPoll (relay s) store' (tally s) (S (calls s)))
                        | (Returns count, store') =>
                            mkPoll (deleteBlob (relay s) RELAY_TOKEN (Worker.b_id blob))
                              store'
                              (mkTally (ingested (tally s) + count) (errors (tally s)))
                              (S (calls s))
                        end
                    end
                end
            end
        | _ => failed s
        end
  end.

(** [pollOnce] *)
Definition pollOnce (d : Mirror.Disk) (r : Relay) (st : State)
    : outcome Tally * Relay * State :=
  if negb (JS.truthy RELAY_URL) || negb (JS.truthy RELAY_TOKEN) then
    (Throws "CRYSTAL_RELAY_URL and CRYSTAL_RELAY_TOKEN must be set", r, st)
  else
    match Mirror.loadRelayKey KEY_PATH d with
    | Throws msg => (Throws msg, r, st)
    | Returns relayKey =>
        match getList r RELAY_TOKEN with
        | Throws msg => (Throws msg, r, st)
        | Returns listResp =>
            if negb (Mirror.ok listResp) then (Throws "Relay list failed", r, st)
            else
              match Worker.payload listResp with
              | Worker.ListJson _ count blobs =>
                  if count =? 0 then (Returns (mkTally 0 0), r, st)
                  else
                    let s := fold_left (processBlob relayKey) blobs
                               (mkPoll r st (mkTally 0 0) 0) in
                    (Returns (tally s), relay s, store s)
              | _ => (Throws "TypeError", r, st)
              end
        end
    end.


End Channel.

(** *** The dead drop as the relay of the conversation channel *)

Definition viaWorker_post (showNumber : Z -> string) (agentId : string)
    (uuidAt nowAt : nat -> string) (attempt : nat)
    (b : Worker.Bucket) (_ : string) (payload : bytes)
    : outcome Worker.Response * Worker.Bucket :=
  let out := Worker.handleDrop showNumber b agentId "conversations" payload
               (uuidAt attempt) (nowAt attempt) in
  (Returns (fst out), snd out).

Definition viaWorker_list (listWithMetadata : bool) (b : Worker.Bucket) (_ : string)
    : outcome Worker.Response :=
  Returns (fst (Worker.handlePickupList listWithMetadata b "conversations")).

Definition viaWorker_get (b : Worker.Bucket) (_ id : string) : outcome Worker.Response :=
  Returns (fst (Worker.handlePickup b "conversations" id)).

Definition viaWorker_delete (b : Worker.Bucket) (_ id : string) : Worker.Bucket :=
  snd (Worker.handleConfirm b "conversations" id).

Lemma secondPart_conversations uuid :
  Worker.secondPart (Worker.keyOf "conversations" uuid) = Worker.untilSlash uuid.
Proof. reflexivity. Qed.

Lemma prefix_conversations uuid :
  String.prefix ("conversations" ++ "/") (Worker.keyOf "conversations" uuid) = true.
Proof. destruct uuid; reflexivity. Qed.

Section RoundTrip.

Variable RELAY_URL RELAY_TOKEN KEY_PATH CC_AGENT_ID : string.
Variable aesGcmSeal : bytes -> bytes -> bytes -> option (bytes * bytes).
Variable aesGcmOpen : bytes -> bytes -> bytes -> bytes -> option bytes.
Variable hkdfSha256 : bytes -> bytes -> bytes -> nat -> bytes.
Variable hmacSha256 : bytes -> bytes -> bytes.
Variable stringifyDrop : RelayDrop -> bytes.
Variable parseDrop : bytes -> ParsedDrop.
Variable stringifyPayload : EncryptedPayload -> bytes.
Variable parsePayload : bytes -> option EncryptedPayload.
Variable showNumber : Z -> string.
Variable sha256hex : string -> string.
Variable embedAt : nat -> list string -> option (list vector).
Variable nowAt : nat -> string.
Variable lanceOkAt : nat -> bool.
Variable listWithMetadata : bool.

(** The drop of the device, with the Worker at the other end. *)
Definition drop (workerAgent : string) (uuidAt workerNowAt : nat -> string)
    (nonceB : bytes) (now : string) (messages : list Message)
    (d : Mirror.Disk) (bucket : Worker.Bucket) : outcome Z * Worker.Bucket :=
  dropAtRelay RELAY_TOKEN KEY_PATH CC_AGENT_ID aesGcmSeal hkdfSha256 hmacSha256
    stringifyDrop stringifyPayload Worker.Bucket
    (viaWorker_post showNumber workerAgent uuidAt workerNowAt)
    nonceB now messages d bucket.

(** The poll, with the Worker at the other end. *)
Definition poll (d : Mirror.Disk) (bucket : Worker.Bucket) (st : State)
    : outcome Tally * Worker.Bucket * State :=
  pollOnce RELAY_URL RELAY_TOKEN KEY_PATH aesGcmOpen hkdfSha256 hmacSha256 parseDrop
    parsePayload Worker.Bucket (viaWorker_list listWithMetadata) viaWorker_get
    viaWorker_delete sha256hex embedAt nowAt lanceOkAt d bucket st.

(** X30. From the device to the store. Messages dropped by
    [dropAtRelay] through the Worker, on a relay whose [conversations]
    channel was empty, are what the next [pollOnce] of a machine with the
    same key ingests: the drop is accepted at the first attempt and
    returns the number of messages; the poll builds the chunks of these
    messages under the agent id of the device, and when their ingest
    returns [count] it reports [count] ingested and no error, the store
    is the one that ingest left, and the relay is as it was before the
    drop (the blob is confirmed and deleted). AES-GCM is asked to open
    what it sealed, and JSON to parse what it printed for this drop. *)
Theorem drop_then_poll workerAgent uuidAt workerNowAt nonceB dropNow messages
    (bucket : Worker.Bucket) (deviceDisk miniDisk : Mirror.Disk) key chunks st count st' :
  sealsAndOpens aesGcmSeal aesGcmOpen ->
  JS.truthy RELAY_URL = true -> JS.truthy RELAY_TOKEN = true ->
  Mirror.loadRelayKey KEY_PATH deviceDisk = Returns key ->
  Mirror.loadRelayKey KEY_PATH miniDisk = Returns key ->
  length nonceB = 12%nat ->
  parseDrop (stringifyDrop (mkDrop CC_AGENT_ID dropNow messages))
  = ADrop (mkDrop CC_AGENT_ID dropNow messages) ->
  (forall p,
     encrypt aesGcmSeal hkdfSha256 hmacSha256 nonceB
       (stringifyDrop (mkDrop CC_AGENT_ID dropNow messages)) key = Returns p ->
     parsePayload (stringifyPayload p) = Some p /\
     0 < Z.of_nat (length (stringifyPayload p)) <= WorkerFacts.maxBlobBytes) ->
  (forall k o, bucket !! k = Some o -> String.prefix ("conversations" ++ "/") k = false) ->
  Worker.untilSlash (uuidAt 0%nat) = uuidAt 0%nat ->
  buildChunks CC_AGENT_ID messages = Some chunks ->
  ingest sha256hex (embedAt 0%nat) (nowAt 0%nat) (lanceOkAt 0%nat) chunks st
  = (Returns count, st') ->
  exists bucket1,
    drop workerAgent uuidAt workerNowAt nonceB dropNow messages deviceDisk bucket
    = (Returns (Z.of_nat (length messages)), bucket1) /\
    (exists obj, bucket1 !! Worker.keyOf "conversations" (uuidAt 0%nat) = Some obj) /\
    poll miniDisk bucket1 st = (Returns (mkTally count 0), bucket, st') /\
    Forall (fun c => hashPresent (sqliteDb st') (sha256hex (text c)) = true) chunks.
Proof.
  intros Hcipher Hurl Htoken Hkey1 Hkey2 Hn Hdrop Hjson Hempty Huuid Hchunks Hingest.
  set (theDrop := mkDrop CC_AGENT_ID dropNow messages) in *.
  pose proof (MirrorFacts.loadRelayKey_length _ _ _ Hkey1) as Hlen.
  destruct (MirrorFacts.seal_then_open aesGcmSeal aesGcmOpen hkdfSha256 hmacSha256
              key nonceB (stringifyDrop theDrop) Hcipher Hlen Hn)
    as (p & Hseal & Hopen).
  destruct (Hjson p Hseal) as [Hparse Hsize].
  set (body := stringifyPayload p) in *.
  set (uuid := uuidAt 0%nat) in *.
  set (k := Worker.keyOf "conversations" uuid).
  set (obj := Worker.mkObject body
                (Some (Worker.mkMetadata workerAgent (workerNowAt 0%nat)
                         (showNumber (Z.of_nat (length body))))) (workerNowAt 0%nat)).
  assert (Hfree : bucket !! k = None).
  { destruct (bucket !! k) as [o|] eqn:E; [|reflexivity].
    apply Hempty in E. subst k. now rewrite prefix_conversations in E. }
  assert (Hpost : Worker.handleDrop showNumber bucket workerAgent "conversations" body
                    uuid (workerNowAt 0%nat)
                  = (Worker.json (Worker.DropJson uuid "conversations"
                                    (Z.of_nat (length body)) (workerNowAt 0%nat)) 200,
                     <[k := obj]> bucket)).
  { unfold Worker.handleDrop. change (Worker.isValidChannel "conversations") with true.
    cbn [negb]. unfold WorkerFacts.maxBlobBytes in Hsize.
    destruct (Z.eqb_spec (Z.of_nat (length body)) 0); [lia|].
    destruct (Z.ltb_spec (100 * 1024 * 1024) (Z.of_nat (length body))); [lia|].
    reflexivity. }
  assert (Hlook : <[k := obj]> bucket !! k = Some obj) by apply lookup_insert_eq.
  exists (<[k := obj]> bucket). split; [|split; [|split]].
  - unfold drop, dropAtRelay. rewrite Hkey1. fold theDrop. rewrite Hseal. fold body.
    cbn [postWithRetry]. unfold viaWorker_post. fold uuid. rewrite Hpost.
    reflexivity.
  - exists obj. apply lookup_insert_eq.
  - set (blob := Worker.blobInfo (k, Worker.listed listWithMetadata obj)).
    assert (Hid : Worker.b_id blob = uuid).
    { subst blob k. cbn [Worker.blobInfo Worker.b_id].
      now rewrite secondPart_conversations. }
    assert (Hblob :
      processBlob RELAY_TOKEN aesGcmOpen hkdfSha256 hmacSha256 parseDrop parsePayload
        Worker.Bucket viaWorker_get viaWorker_delete sha256hex embedAt nowAt lanceOkAt
        key (mkPoll Worker.Bucket (<[k := obj]> bucket) st (mkTally 0 0) 0) blob
      = mkPoll Worker.Bucket bucket st' (mkTally count 0) 1).
    { unfold processBlob. cbn [relay store tally calls].
      rewrite Hid. unfold viaWorker_get, Worker.handlePickup.
      change (Worker.isValidChannel "conversations") with true. cbn [negb].
      change (Worker.keyOf "conversations" uuid) with k.
      rewrite Hlook. cbn [fst].
      match goal with |- context [Mirror.ok ?r] => change (Mirror.ok r) with true end.
      cbn [negb Worker.payload]. unfold obj at 1. cbn [Worker.body].
      rewrite Hparse. unfold decryptDrop. rewrite Hopen, Hdrop.
      unfold theDrop. cbn [d_agent_id d_messages].
      rewrite Hchunks, Hingest. cbn [ingested errors].
      unfold viaWorker_delete, Worker.handleConfirm.
      change (Worker.isValidChannel "conversations") with true. cbn [negb].
      change (Worker.keyOf "conversations" uuid) with k.
      rewrite Hlook. cbn [snd]. rewrite delete_insert_id by exact Hfree.
      replace (0 + count) with count by lia. reflexivity. }
    unfold poll, pollOnce. rewrite Hurl, Htoken, Hkey2. cbn [negb orb].
    unfold viaWorker_list. unfold Worker.handlePickupList.
    change (Worker.isValidChannel "conversations") with true. cbn [negb fst].
    rewrite (MirrorFacts.listPrefix_single _ bucket _ k obj);
      [|subst k; apply prefix_conversations|exact Hempty].
    cbn [map length]. fold blob.
    change (Mirror.ok (Worker.json
                         (Worker.ListJson "conversations" (Z.of_nat 1) [blob]) 200))
      with true.
    cbn [negb Worker.payload Worker.json]. change (Z.of_nat 1 =? 0) with false.
    cbn [fold_left]. rewrite Hblob. reflexivity.
  - apply List.Forall_forall. intros c Hc.
    now apply (CrystalFacts.ingest_returns_present _ _ _ _ _ _ _ _ Hingest).
Qed.

End RoundTrip.

(** *** Concrete runs *)

(** A blob on the relay whose envelope opens to a text that is JSON but
    no drop. *)
Definition printEnvelope (_ : EncryptedPayload) : bytes := utf8 "envelope".
Definition readEnvelope (_ : bytes) : option EncryptedPayload :=
  Some (Mirror.sealedWith (utf8 "drop")).





(** A device drops two messages; the poller ingests them. *)
Definition twoMessages : RelayDrop :=
  mkDrop "cc-air" "2026-02-14T10:02:00.000Z" [Capture.hello; Capture.answer].

Definition printDrop (_ : RelayDrop) : bytes := utf8 "drop".
Definition readDrop (_ : bytes) : ParsedDrop := ADrop twoMessages.

Definition keyDisk : Mirror.Disk := <["/key" := utf8 (toBase64 demoKey)]> ∅.

Definition twoChunks : list Chunk :=
  match buildChunks "cc-air" [Capture.hello; Capture.answer] with
  | Some cs => cs
  | None => []
  end.

Definition polledState : State :=
  snd (ingest plainHash unitEmbed "2026-02-14T10:01:00.000Z" true twoChunks freshState).

Lemma drop_then_poll_witness :
  exists bucket1,
    drop "token" "/key" "cc-air" copySeal keyAsSigningKey listMac printDrop
      printEnvelope (fun _ => "8") "cc-air" (fun _ => "X")
      (fun _ => "2026-02-14T10:02:01.000Z") demoNonce "2026-02-14T10:02:00.000Z"
      [Capture.hello; Capture.answer] keyDisk ∅
    = (Returns (Z.of_nat (length [Capture.hello; Capture.answer])), bucket1) /\
    (exists obj, bucket1 !! Worker.keyOf "conversations" "X" = Some obj) /\
    poll "https://relay.example" "token" "/key" copyOpen keyAsSigningKey listMac
      readDrop readEnvelope plainHash Capture.workingProvider Capture.fixedClock
      Capture.lanceUp false keyDisk bucket1 freshState
    = (Returns (mkTally 2 0), ∅, polledState) /\
    Forall (fun c => hashPresent (sqliteDb polledState) (plainHash (text c)) = true)
      twoChunks.
Proof.
  apply (drop_then_poll "https://relay.example" "token" "/key" "cc-air" copySeal
           copyOpen keyAsSigningKey listMac printDrop readDrop printEnvelope
           readEnvelope (fun _ => "8") plainHash Capture.workingProvider
           Capture.fixedClock Capture.lanceUp false "cc-air" (fun _ => "X")
           (fun _ => "2026-02-14T10:02:01.000Z") demoNonce
           "2026-02-14T10:02:00.000Z" [Capture.hello; Capture.answer] ∅
           keyDisk keyDisk demoKey twoChunks freshState 2 polledState).
  - exact copy_sealsAndOpens.
  - reflexivity.
  - reflexivity.
  - vm_compute. reflexivity.
  - vm_compute. reflexivity.
  - reflexivity.
  - reflexivity.
  - intros p H. vm_compute in H. injection H as <-.
    split; [vm_compute; reflexivity|]. vm_compute. split; [reflexivity|discriminate].
  - intros k o H. rewrite lookup_empty in H. discriminate H.
  - reflexivity.
  - vm_compute. reflexivity.
  - vm_compute. reflexivity.
Defined.

End Poller.
